(** * pyglottolog.references.bibfiles_db: the reference store and its id resolver

    A shallow embedding of [bibfiles_db.py]: the three relations [file],
    [entry], [value] as lists of rows, the SQL statements as list
    comprehensions over them (three-valued logic for NULL), and the
    Python driver code around them as pure functions returning either a
    new store or the exception that aborts the run. *)

From Stdlib Require Import ZArith QArith Lia Lqa String Ascii List DecimalString.
From stdpp Require Import base option list gmap strings sorting.

Local Open Scope string_scope.
Local Open Scope Z_scope.

#[local] Set Warnings "-clear-no-such-hyp".

(** ** Exceptions *)

Inductive exn : Type :=
  | AssertionError
  | KeyError
  | ValueError
  | IntegrityError
  | RuntimeError (msg : string).

Inductive result (A : Type) : Type :=
  | Ok (a : A)
  | Raise (e : exn).
Arguments Ok {A} a.
Arguments Raise {A} e.

#[global] Instance result_ret : MRet result := fun A a => Ok a.

#[global] Instance result_bind : MBind result := fun A B k m =>
  match m with
  | Ok a => k a
  | Raise e => Raise e
  end.

Definition assert (b : bool) : result unit :=
  if b then Ok tt else Raise AssertionError.

Fixpoint mapM {A B} (f : A -> result B) (l : list A) : result (list B) :=
  match l with
  | [] => Ok []
  | x :: l' => y ← f x; ys ← mapM f l'; Ok (y :: ys)
  end.

(** A Python [for] loop whose body updates the store or raises. *)
Fixpoint foldM {A S} (f : S -> A -> result S) (s : S) (l : list A) : result S :=
  match l with
  | [] => Ok s
  | x :: l' => s' ← f s x; foldM f s' l'
  end.

(** ** SQL three-valued logic

    A nullable column is an [option]; a comparison with NULL is NULL
    ([None]), and a WHERE clause keeps a row only when its condition is
    true. *)

Definition sql_eq {A} `{EqDecision A} (x y : option A) : option bool :=
  match x, y with
  | Some a, Some b => Some (bool_decide (a = b))
  | _, _ => None
  end.

Definition sql_ne {A} `{EqDecision A} (x y : option A) : option bool :=
  match x, y with
  | Some a, Some b => Some (negb (bool_decide (a = b)))
  | _, _ => None
  end.

Definition sql_and (p q : option bool) : option bool :=
  match p, q with
  | Some false, _ | _, Some false => Some false
  | Some true, Some true => Some true
  | _, _ => None
  end.

Definition sql_or (p q : option bool) : option bool :=
  match p, q with
  | Some true, _ | _, Some true => Some true
  | Some false, Some false => Some false
  | _, _ => None
  end.

(** [WHERE c]: NULL counts as not satisfied. *)
Definition holds (c : option bool) : bool :=
  match c with
  | Some true => true
  | _ => false
  end.

(** [x IS NULL] / [x != NULL] as SQLAlchemy renders [== sa.null()]. *)
Definition is_null {A} (x : option A) : bool :=
  match x with
  | None => true
  | Some _ => false
  end.

Definition not_null {A} (x : option A) : bool := negb (is_null x).

(** ** Orderings used by ORDER BY

    Text columns compare bytewise (SQLite's BINARY collation), integers
    numerically, and NULL sorts before every value. *)

Definition cmp_opt {A} (cmp : A -> A -> comparison) (x y : option A) : comparison :=
  match x, y with
  | None, None => Eq
  | None, Some _ => Lt
  | Some _, None => Gt
  | Some a, Some b => cmp a b
  end.

(** Lexicographic combination of sort keys. *)
Definition then_cmp (c d : comparison) : comparison :=
  match c with
  | Eq => d
  | _ => c
  end.

(** [.desc()] *)
Definition desc (c : comparison) : comparison := CompOpp c.

Definition cmp_leb (c : comparison) : bool :=
  match c with
  | Gt => false
  | _ => true
  end.

Section Sorting.
Context {A : Type} (cmp : A -> A -> comparison).

Fixpoint insert_sorted (x : A) (l : list A) : list A :=
  match l with
  | [] => [x]
  | y :: l' =>
      if cmp_leb (cmp x y) then x :: l else y :: insert_sorted x l'
  end.

(** ORDER BY: rows that tie on every sort key keep their table order,
    hence the insertion from the right. *)
Definition order_by (l : list A) : list A := foldr insert_sorted [] l.
End Sorting.

(** ** Helpers of [pyglottolog.util] *)

(** Modelled from the spec: [util.unique] is imported but not part of the
    sources at hand; it yields the items of an iterable in order, dropping
    every item seen before ("de-duplicated"). *)
Fixpoint unique_go {A} `{EqDecision A} (seen : list A) (l : list A) : list A :=
  match l with
  | [] => []
  | x :: l' =>
      if decide (x ∈ seen) then unique_go seen l'
      else x :: unique_go (x :: seen) l'
  end.

Definition unique {A} `{EqDecision A} (l : list A) : list A := unique_go [] l.

(** [itertools.groupby]: maximal runs of consecutive rows with equal key. *)
Fixpoint groupby {A K} `{EqDecision K} (key : A -> K) (l : list A) : list (K * list A) :=
  match l with
  | [] => []
  | x :: l' =>
      match groupby key l' with
      | (k, g) :: rest =>
          if decide (key x = k) then (k, x :: g) :: rest
          else (key x, [x]) :: (k, g) :: rest
      | [] => [(key x, [x])]
      end
  end.

(** [result.partitions(size)]: successive [fetchmany(size)] chunks until an
    empty one comes back. *)
Fixpoint partitions_go {A} (fuel : nat) (size : nat) (l : list A) : list (list A) :=
  match fuel with
  | O => []
  | S fuel' =>
      match take size l with
      | [] => []
      | chunk => chunk :: partitions_go fuel' size (drop size l)
      end
  end.

Definition partitions {A} (size : nat) (l : list A) : list (list A) :=
  partitions_go (S (length l)) size l.

(** ** Constants of the module *)

Definition UNION_FIELDS : list string := ["fn"; "asjp_name"; "isbn"].
Definition IGNORE_FIELDS : list string := ["crossref"; "numnote"; "glotto_id"].
Definition REF_ID_FIELD : string := "glottolog_ref_id".
Definition ENTRYTYPE : string := "ENTRYTYPE".

(** ** External collaborators

    What the module calls but does not define: the similarity ratio of
    [difflib.SequenceMatcher], the fingerprint and tokenizer of
    [libmonster], and two conversions the SQLite engine applies between
    INTEGER and TEXT. Floating point results are taken as exact
    rationals. *)

Class Collaborators := {
  (** [difflib.SequenceMatcher(None, a, b).ratio()] *)
  ratio : string -> string -> Q;
  (** [libmonster.keyid(fields, words)] *)
  keyid : gmap string string -> gmap string nat -> string;
  (** [libmonster.wrds(title)] *)
  wrds : string -> list string;
  (** the integer stored when the text of a numeral is inserted into an
      INTEGER column; a text that is no numeral the engine keeps as
      TEXT, and a store with such a value is outside this embedding,
      whose id columns hold integers *)
  int_of_text : string -> Z;
  (** the engine's answer to [integer_column == text_column] *)
  int_eq_text : Z -> string -> bool
}.

(** ** The three relations *)

Module File.
Record t := mk {
  pk : Z;
  name : string;
  size : Z;
  mtime : Z;
  priority : Z
}.
End File.

Module Entry.
Record t := mk {
  pk : Z;
  file_pk : Z;
  bibkey : string;
  refid : option Z;
  hash : option string;
  srefid : option Z;
  id : option Z
}.

Definition set_hash (h : option string) (e : t) : t :=
  mk (pk e) (file_pk e) (bibkey e) (refid e) h (srefid e) (id e).
Definition set_srefid (s : option Z) (e : t) : t :=
  mk (pk e) (file_pk e) (bibkey e) (refid e) (hash e) s (id e).
Definition set_id (i : option Z) (e : t) : t :=
  mk (pk e) (file_pk e) (bibkey e) (refid e) (hash e) (srefid e) i.
End Entry.

Module Value.
Record t := mk {
  entry_pk : Z;
  field : string;
  value : string
}.
End Value.

Record Store := mkStore {
  files : list File.t;
  entries : list Entry.t;
  values : list Value.t
}.

Definition with_entries (db : Store) (es : list Entry.t) : Store :=
  mkStore (files db) es (values db).

(** [UPDATE entry SET ... WHERE cond]: every row satisfying [cond] is
    rewritten, all others stay. *)
Definition update_where (cond : Entry.t -> bool) (set : Entry.t -> Entry.t)
    (db : Store) : Store :=
  with_entries db (map (fun e => if cond e then set e else e) (entries db)).

(** [sa.exists()] over the aliased table [other]. *)
Definition exists_other (db : Store) (cond : Entry.t -> bool) : bool :=
  existsb cond (entries db).

(** ** Entry: the checkpoints *)

Definition allhash (db : Store) : bool :=
  negb (existsb (fun e => is_null (Entry.hash e)) (entries db)).

Definition allid (db : Store) : bool :=
  negb (existsb (fun e => is_null (Entry.id e)) (entries db)).

Section Checks.
Context `{Collaborators}.

(** [other.id == cls.hash]: an INTEGER column against a TEXT column. *)
Definition id_eq_hash (i : option Z) (h : option string) : option bool :=
  match i, h with
  | Some n, Some s => Some (int_eq_text n s)
  | _, _ => None
  end.

Definition onetoone (db : Store) : bool :=
  negb (existsb (fun cls =>
    exists_other db (fun other =>
      let diff_id := sql_and (sql_eq (Entry.hash other) (Entry.hash cls))
                             (sql_ne (Entry.id other) (Entry.id cls)) in
      let diff_hash := sql_and (id_eq_hash (Entry.id other) (Entry.hash cls))
                               (sql_ne (Entry.hash other) (Entry.hash cls)) in
      holds (sql_or diff_id diff_hash)))
    (entries db)).
End Checks.

(** ** Entry.windowed *)

Definition cmp_int : option Z -> option Z -> comparison := cmp_opt Z.compare.
Definition cmp_text : option string -> option string -> comparison :=
  cmp_opt String.compare.

(** [SELECT DISTINCT key ORDER BY key] *)
Definition select_keys (key_column : Entry.t -> option Z) (db : Store) : list (option Z) :=
  order_by cmp_int (unique (map key_column (entries db))).

(** The generator yields [(keys[0], keys[-1])] per partition. *)
Definition first_last {A} (keys : list A) : option (A * A) :=
  match keys, last keys with
  | k :: _, Some k' => Some (k, k')
  | _, _ => None
  end.

Definition windowed (db : Store) (key_column : Entry.t -> option Z) (size : nat)
    : list (option Z * option Z) :=
  omap first_last (partitions size (select_keys key_column db)).

(** [sa.between(column, first, last)] *)
Definition between (x first last : option Z) : option bool :=
  match x, first, last with
  | Some v, Some lo, Some hi => Some ((lo <=? v)%Z && (v <=? hi)%Z)
  | _, _, _ => None
  end.

(** ** Merge view *)

(** A row of [select_values]: [entry JOIN file JOIN value], with the
    columns of the entry it comes from kept for the WHERE clause and the
    file priority for the ORDER BY. *)
Module Row.
Record t := mk {
  entry : Entry.t;
  field : string;
  value : string;
  filename : string;
  bibkey : string;
  priority : Z
}.
End Row.

Definition entry_file_value (db : Store) : list Row.t :=
  e ← entries db;
  f ← filter (fun f => File.pk f = Entry.file_pk e) (files db);
  v ← filter (fun v => Value.entry_pk v = Entry.pk e) (values db);
  [Row.mk e (Value.field v) (Value.value v) (File.name f) (Entry.bibkey e)
          (File.priority f)].

(** [ORDER BY File.priority DESC, filename, bibkey]: the order of the
    members of a group. *)
Definition cmp_member (r r' : Row.t) : comparison :=
  then_cmp (desc (Z.compare (Row.priority r) (Row.priority r')))
  (then_cmp (String.compare (Row.filename r) (Row.filename r'))
            (String.compare (Row.bibkey r) (Row.bibkey r'))).

(** [ORDER BY field, File.priority DESC, filename, bibkey] *)
Definition cmp_field_member (r r' : Row.t) : comparison :=
  then_cmp (String.compare (Row.field r) (Row.field r')) (cmp_member r r').

(** The lookup key of [__getitem__] and [_merged_entrygrp]: a [refid]
    (old grouping) or a [hash] (current grouping). *)
Inductive key : Type :=
  | IntKey (refid : Z)
  | StrKey (hash : string)
  | NoneKey.

(** [(Entry.refid if isinstance(key, int) else Entry.hash) == key]; a key
    that is [None] is no [int] and renders as [hash IS NULL]. *)
Definition key_matches (k : key) (e : Entry.t) : bool :=
  match k with
  | IntKey n => holds (sql_eq (Entry.refid e) (Some n))
  | StrKey s => holds (sql_eq (Entry.hash e) (Some s))
  | NoneKey => is_null (Entry.hash e)
  end.

Definition int_key (x : option Z) : key :=
  match x with
  | Some n => IntKey n
  | None => NoneKey
  end.

Definition str_key (x : option string) : key :=
  match x with
  | Some s => StrKey s
  | None => NoneKey
  end.

Definition select_values (db : Store) (k : key) : list Row.t :=
  order_by cmp_field_member
    (filter (fun r => key_matches k (Row.entry r) = true) (entry_file_value db)).

(** A field with its [(value, filename, bibkey)] triples in member order. *)
Definition fieldgrp : Type := string * list (string * string * string).

Definition group_fields (rows : list Row.t) : list fieldgrp :=
  map (fun '(field, g) =>
         (field, map (fun r => (Row.value r, Row.filename r, Row.bibkey r)) g))
      (groupby Row.field rows).

(** Modelled from the spec: [_compat.removesuffix] is outside the sources
    at hand; it is Python 3.9's [str.removesuffix], which drops the
    suffix when the string ends with it. *)
Definition removesuffix (s suffix : string) : string :=
  let n := String.length s in
  let m := String.length suffix in
  if (m <=? n)%nat && String.eqb (String.substring (n - m) m s) suffix
  then String.substring 0 (n - m) s
  else s.

Definition _sep : string := ", ".

(** [sorted(set(...))] over strings *)
Definition sorted_set (l : list string) : list string :=
  order_by String.compare (unique l).

(** The dict comprehension of [_merged_entry]: one item per field that
    is not ignored; a later item with the same key replaces the earlier.
    [values[0][0]] is the first triple's value; [groupby] never yields an
    empty group, the empty case stands for that unreachable branch. *)
Definition merged_field (fv : fieldgrp) : string :=
  let '(field, values) := fv in
  if decide (field ∈ UNION_FIELDS)
  then String.concat _sep (unique (map (fun '(vl, _, _) => vl) values))
  else match values with
       | (vl, _, _) :: _ => vl
       | [] => ""
       end.

Definition merged_fields (grp : list fieldgrp) : gmap string string :=
  foldl (fun fields fv => <[fv.1 := merged_field fv]> fields) ∅
        (filter (fun fv => fv.1 ∉ IGNORE_FIELDS) grp).

Definition grp_src (grp : list fieldgrp) : list string :=
  fv ← grp; '(_, filename, _) ← fv.2; [removesuffix filename ".bib"].

Definition grp_srctrickle (grp : list fieldgrp) : list string :=
  fv ← grp; '(_, filename, bibkey) ← fv.2;
  [removesuffix filename ".bib" ++ "#" ++ bibkey].

(** [_merged_entry(grp, raw=True)] *)
Definition _merged_entry_raw (grp : list fieldgrp) : gmap string string :=
  <["srctrickle" := String.concat _sep (sorted_set (grp_srctrickle grp))]>
  (<["src" := String.concat _sep (sorted_set (grp_src grp))]>
   (merged_fields grp)).

(** [_merged_entry(grp, raw=False)]: the entry type is popped. *)
Definition _merged_entry (grp : list fieldgrp)
    : result (string * gmap string string) :=
  let fields := _merged_entry_raw grp in
  match fields !! ENTRYTYPE with
  | Some entrytype => Ok (entrytype, delete ENTRYTYPE fields)
  | None => Raise KeyError
  end.

(** [_merged_entrygrp(conn, key=key)] with its default [raw=True] *)
Definition _merged_entrygrp (db : Store) (k : key) : result (gmap string string) :=
  match group_fields (select_values db k) with
  | [] => Raise KeyError
  | grp => Ok (_merged_entry_raw grp)
  end.

(** ** distance *)

Definition weight (k : string) : Z :=
  if decide (k ∈ ["author"; "year"; "title"]) then 3
  else if decide (k = ENTRYTYPE) then 2
  else 1.

Definition Qsum (l : list Q) : Q := foldr Qplus 0%Q l.

Section Distance.
Context `{Collaborators}.

(** The sums are exact: the order in which the floats are added, and
    their rounding, are not modelled. *)
Definition distance (left right : gmap string string) : Q :=
  if bool_decide (left = ∅) && bool_decide (right = ∅) then 0%Q
  else
    let keys := elements (dom left ∩ dom right : gset string) in
    match keys with
    | [] => 1%Q
    | _ =>
        let ratios :=
          map (fun k => (inject_Z (weight k) * ratio (left !!! k) (right !!! k))%Q)
              keys in
        let weights := map (fun k => inject_Z (weight k)) keys in
        (1 - Qsum ratios / Qsum weights)%Q
    end.
End Distance.

(** ** assign_ids *)

(** Python's [min(iterable, key=...)]: the first of the minimal items. *)
Definition Qltb (x y : Q) : bool := negb (Qle_bool y x).

Definition py_min {A} (f : A -> Q) (l : list A) : result A :=
  match l with
  | [] => Raise ValueError
  | x :: l' =>
      Ok (foldl (fun best it => if Qltb (f it) (f best) then it else best) x l')
  end.

(** A row of [select_split] or [select_merge]: the grouping column, the
    column that varies inside the group, and where the entry comes from. *)
Module GroupRow.
Record t (K V : Type) := mk {
  first : option K;
  second : option V;
  filename : string;
  bibkey : string
}.
Arguments mk {K V}.
Arguments first {K V}.
Arguments second {K V}.
Arguments filename {K V}.
Arguments bibkey {K V}.
End GroupRow.

(** Modelled from the spec: [util.group_first] is imported from
    [pyglottolog.util], outside the sources at hand; it is
    [itertools.groupby] on the first column, each group made a list. *)
Definition groupby_first {K V} `{EqDecision K}
    (rows : list (GroupRow.t K V)) : list (option K * list (GroupRow.t K V)) :=
  groupby GroupRow.first rows.

Definition entry_file {K V} (db : Store) (cond : Entry.t -> bool)
    (first : Entry.t -> option K) (second : Entry.t -> option V)
    : list (GroupRow.t K V) :=
  e ← filter (fun e => cond e = true) (entries db);
  f ← filter (fun f => File.pk f = Entry.file_pk e) (files db);
  [GroupRow.mk (first e) (second e) (File.name f) (Entry.bibkey e)].

Definition cmp_source {K V} (r r' : GroupRow.t K V) : comparison :=
  then_cmp (String.compare (GroupRow.filename r) (GroupRow.filename r'))
           (String.compare (GroupRow.bibkey r) (GroupRow.bibkey r')).

(** [ORDER BY refid, hash, filename, bibkey] *)
Definition cmp_split (r r' : GroupRow.t Z string) : comparison :=
  then_cmp (cmp_int (GroupRow.first r) (GroupRow.first r'))
  (then_cmp (cmp_text (GroupRow.second r) (GroupRow.second r'))
            (cmp_source r r')).

(** [ORDER BY hash, srefid DESC, filename, bibkey] *)
Definition cmp_merge (r r' : GroupRow.t string Z) : comparison :=
  then_cmp (cmp_text (GroupRow.first r) (GroupRow.first r'))
  (then_cmp (desc (cmp_int (GroupRow.second r) (GroupRow.second r')))
            (cmp_source r r')).

Definition is_split (db : Store) (e : Entry.t) : bool :=
  exists_other db (fun other =>
    holds (sql_and (sql_eq (Entry.refid other) (Entry.refid e))
                   (sql_ne (Entry.hash other) (Entry.hash e)))).

Definition select_split (db : Store) : list (GroupRow.t Z string) :=
  order_by cmp_split (entry_file db (is_split db) Entry.refid Entry.hash).

Definition is_merge (db : Store) (e : Entry.t) : bool :=
  exists_other db (fun other =>
    holds (sql_and (sql_eq (Entry.hash other) (Entry.hash e))
                   (sql_ne (Entry.srefid other) (Entry.srefid e)))).

Definition select_merge (db : Store) : list (GroupRow.t string Z) :=
  order_by cmp_merge (entry_file db (is_merge db) Entry.hash Entry.srefid).

Definition nosplits (db : Store) : bool :=
  negb (existsb (fun e =>
    exists_other db (fun other =>
      holds (sql_and (sql_eq (Entry.srefid other) (Entry.srefid e))
                     (sql_ne (Entry.hash other) (Entry.hash e)))))
    (entries db)).

Definition nomerges (db : Store) : bool :=
  negb (existsb (fun e =>
    exists_other db (fun other =>
      holds (sql_and (sql_eq (Entry.hash other) (Entry.hash e))
                     (sql_ne (Entry.id other) (Entry.id e)))))
    (entries db)).

(** [coalesce(max(Entry.refid), 0) + 1], over a column of integers *)
Definition sql_max (l : list (option Z)) : option Z :=
  match omap (fun x => x) l with
  | [] => None
  | x :: xs => Some (foldl Z.max x xs)
  end.

Definition select_nextid (db : Store) : Z :=
  default 0 (sql_max (map Entry.refid (entries db))) + 1.

(** [SELECT hash WHERE id IS NULL GROUP BY hash ORDER BY hash] *)
Definition select_new (db : Store) : list (option string) :=
  order_by cmp_text
    (unique (map Entry.hash (filter (fun e => is_null (Entry.id e) = true) (entries db)))).

(** [enumerate(rows, start)] *)
Fixpoint enumerate {A} (l : list A) (start : Z) : list (Z * A) :=
  match l with
  | [] => []
  | x :: l' => (start, x) :: enumerate l' (start + 1)
  end.

Section Resolver.
Context `{Collaborators}.

(** Stage 0: [UPDATE entry SET id = NULL, srefid = refid] *)
Definition reset_entries (db : Store) : Store :=
  update_where (fun _ => true)
    (fun e => Entry.set_id None (Entry.set_srefid (Entry.refid e) e)) db.

(** [[(k, merged_entrygrp(conn, key=k)) for k in unique(...)]] *)
Definition candidates {K} (db : Store) (to_key : option K -> key)
    (ks : list (option K)) : result (list (option K * gmap string string)) :=
  mapM (fun k => view ← _merged_entrygrp db (to_key k); Ok (k, view)) ks.

(** The body of the split loop for one [(refid, group)]. *)
Definition split_target (db : Store) (refid : option Z)
    (group : list (GroupRow.t Z string)) : result (option string) :=
  old ← _merged_entrygrp db (int_key refid);
  cand ← candidates db str_key (unique (map GroupRow.second group));
  best ← py_min (fun p => distance old p.2) cand;
  Ok best.1.

Definition update_split (eq_refid : option Z) (ne_hash : option string)
    (db : Store) : Store :=
  update_where
    (fun e => holds (sql_and (sql_eq (Entry.refid e) eq_refid)
                             (sql_ne (Entry.hash e) ne_hash)))
    (Entry.set_srefid None) db.

Definition resolve_splits (db : Store) : result Store :=
  foldM (fun db '(refid, group) =>
           new ← split_target db refid group;
           Ok (update_split refid new db))
        db (groupby_first (select_split db)).

(** The body of the merge loop for one [(hash, group)]. *)
Definition merge_target (db : Store) (hash_ : option string)
    (group : list (GroupRow.t string Z)) : result (option Z) :=
  new ← _merged_entrygrp db (str_key hash_);
  cand ← candidates db int_key (unique (map GroupRow.second group));
  best ← py_min (fun p => distance new p.2) cand;
  Ok best.1.

Definition update_merge (eq_hash : option string) (ne_srefid new_id : option Z)
    (db : Store) : Store :=
  update_where
    (fun e => holds (sql_and (sql_eq (Entry.hash e) eq_hash)
                             (sql_ne (Entry.srefid e) ne_srefid)))
    (Entry.set_id new_id) db.

Definition resolve_merges (db : Store) : result Store :=
  foldM (fun db '(hash_, group) =>
           old ← merge_target db hash_ group;
           Ok (update_merge hash_ old old db))
        db (groupby_first (select_merge db)).

(** Stage 3: entries that neither split nor merged keep [srefid]. *)
Definition update_unchanged (db : Store) : Store :=
  update_where
    (fun e => is_null (Entry.id e) && not_null (Entry.srefid e))
    (fun e => Entry.set_id (Entry.srefid e) e) db.

(** Stage 4. The scalar subquery is read off the store as it stands
    before the statement; [nomerges] has just been asserted, so every
    row it could return carries the same id. *)
Definition identified_id (db : Store) (e : Entry.t) : option Z :=
  match filter (fun other =>
                  holds (sql_eq (Entry.hash other) (Entry.hash e))
                  && not_null (Entry.id other) = true) (entries db) with
  | other :: _ => Entry.id other
  | [] => None
  end.

Definition update_identified (db : Store) : Store :=
  update_where
    (fun e => is_null (Entry.refid e)
              && exists_other db (fun other =>
                   holds (sql_eq (Entry.hash other) (Entry.hash e))
                   && not_null (Entry.id other)))
    (fun e => Entry.set_id (identified_id db e) e) db.

(** Stage 5: [UPDATE entry SET id = ? WHERE hash = ?], once per
    parameter pair. *)
Definition update_new (params : list (Z * option string)) (db : Store) : Store :=
  foldl (fun db '(id_, hash_) =>
           update_where (fun e => holds (sql_eq (Entry.hash e) hash_))
                        (Entry.set_id (Some id_)) db)
        db params.

Definition new_params (db : Store) : list (Z * option string) :=
  enumerate (select_new db) (select_nextid db).

Definition assign_new (db : Store) : Store := update_new (new_params db) db.

Definition assign_ids (db : Store) : result Store :=
  _ ← assert (allhash db);
  let db := reset_entries db in
  db ← resolve_splits db;
  _ ← assert (nosplits db);
  db ← resolve_merges db;
  let db := update_unchanged db in
  _ ← assert (nomerges db);
  let db := update_identified db in
  let db := assign_new db in
  _ ← assert (allid db);
  _ ← assert (onetoone db);
  Ok db.
End Resolver.

(** ** difflib.SequenceMatcher

    The standard library's matcher as [distance] calls it: no junk
    predicate, [autojunk] left on, sequences of characters. *)
Module difflib.
Local Open Scope nat_scope.

Definition seq_of (s : string) : list ascii := list_ascii_of_string s.

(** The positions of [elt] in [b], in increasing order. *)
Definition positions (b : list ascii) (elt : ascii) : list nat :=
  omap (fun '(j, x) => if decide (x = elt) then Some j else None)
       (imap (fun j x => (j, x)) b).

(** [__chain_b]: [b2j] maps an element to its positions; with 200 or
    more elements, those occurring more than [n // 100 + 1] times are
    purged as popular. *)
Definition b2j (b : list ascii) (elt : ascii) : list nat :=
  let n := length b in
  let idxs := positions b elt in
  if (200 <=? n)%nat && (n / 100 + 1 <? length idxs)%nat then [] else idxs.

Record Match := mkMatch { m_a : nat; m_b : nat; m_size : nat }.

(** [j2len.get(j - 1, 0)]; for [j = 0] the key is [-1], never present. *)
Definition j2lenget (j2len : gmap nat nat) (j : nat) : nat :=
  match j with
  | O => O
  | S j' => default O (j2len !! j')
  end.

(** The part of the positions the loop visits before its [break]. *)
Fixpoint until_break (bhi : nat) (js : list nat) : list nat :=
  match js with
  | [] => []
  | j :: js' => if (bhi <=? j)%nat then [] else j :: until_break bhi js'
  end.

(** The inner loop over the positions [j] of [a[i]] in [b]. *)
Definition scan_row (blo bhi i : nat) (j2len : gmap nat nat)
    (best : Match) (js : list nat) : Match * gmap nat nat :=
  foldl (fun '(best, newj2len) j =>
           if (j <? blo)%nat then (best, newj2len)
           else
             let k := S (j2lenget j2len j) in
             (if (m_size best <? k)%nat
              then mkMatch (i + 1 - k) (j + 1 - k) k else best,
              <[j := k]> newj2len))
        (best, ∅) (until_break bhi js).

(** Extend the match to the left while the elements before it agree. *)
Fixpoint extend_left (a b : list ascii) (alo blo : nat) (fuel : nat)
    (m : Match) : Match :=
  match fuel with
  | O => m
  | S fuel' =>
      if (alo <? m_a m)%nat && (blo <? m_b m)%nat
         && bool_decide (a !! (m_a m - 1)%nat = b !! (m_b m - 1)%nat)
      then extend_left a b alo blo fuel'
             (mkMatch (m_a m - 1) (m_b m - 1) (S (m_size m)))
      else m
  end.

(** Extend it to the right likewise. *)
Fixpoint extend_right (a b : list ascii) (ahi bhi : nat) (fuel : nat)
    (m : Match) : Match :=
  match fuel with
  | O => m
  | S fuel' =>
      if (m_a m + m_size m <? ahi)%nat && (m_b m + m_size m <? bhi)%nat
         && bool_decide (a !! (m_a m + m_size m)%nat = b !! (m_b m + m_size m)%nat)
      then extend_right a b ahi bhi fuel'
             (mkMatch (m_a m) (m_b m) (S (m_size m)))
      else m
  end.

Definition find_longest_match (a b : list ascii) (alo ahi blo bhi : nat) : Match :=
  let '(best, _) :=
    foldl (fun '(best, j2len) i =>
             match a !! i with
             | Some elt => scan_row blo bhi i j2len best (b2j b elt)
             | None => (best, ∅)
             end)
          (mkMatch alo blo 0, ∅) (seq alo (ahi - alo)) in
  let best := extend_left a b alo blo (length a) best in
  extend_right a b ahi bhi (length a) best.

(** [get_matching_blocks]: the work queue is a stack of windows
    [(alo, ahi, blo, bhi)], its top at the head of the list; the blocks
    are collected unsorted, their sizes are all that [ratio] reads. *)
Fixpoint matching_blocks (a b : list ascii) (fuel : nat)
    (queue : list (nat * nat * nat * nat)) (blocks : list Match) : list Match :=
  match fuel, queue with
  | S fuel', (alo, ahi, blo, bhi) :: queue' =>
      let x := find_longest_match a b alo ahi blo bhi in
      let '(i, j, k) := (m_a x, m_b x, m_size x) in
      match k with
      | O => matching_blocks a b fuel' queue' blocks
      | S _ =>
          let queue1 :=
            if (alo <? i)%nat && (blo <? j)%nat
            then (alo, i, blo, j) :: queue' else queue' in
          let queue2 :=
            if (i + k <? ahi)%nat && (j + k <? bhi)%nat
            then (i + k, ahi, j + k, bhi) :: queue1 else queue1 in
          matching_blocks a b fuel' queue2 (blocks ++ [x])
      end
  | _, _ => blocks
  end.

Definition get_matching_blocks (a b : list ascii) : list Match :=
  matching_blocks a b (S (2 * length a)) [(0, length a, 0, length b)]%nat [].

(** [_calculate_ratio(matches, len(a) + len(b))] *)
Definition SequenceMatcher_ratio (sa sb : string) : Q :=
  let a := seq_of sa in
  let b := seq_of sb in
  let matches := sum_list (map m_size (get_matching_blocks a b)) in
  let length := (length a + length b)%nat in
  match length with
  | O => 1%Q
  | S _ => (2 * inject_Z (Z.of_nat matches) / inject_Z (Z.of_nat length))%Q
  end.
End difflib.

(** ** The bibfiles collaborator

    What the module reads from a parsed [.bib] file and writes back to
    it. The classes themselves are defined in [pyglottolog.references],
    outside the sources at hand. *)

(** A Python [dict] with its insertion order. *)
Definition odict (V : Type) : Type := list (string * V).

Fixpoint od_get {V} (d : odict V) (k : string) : option V :=
  match d with
  | [] => None
  | (k', v) :: d' => if decide (k' = k) then Some v else od_get d' k
  end.

(** [d[k] = v]: in place when the key is there, at the end otherwise. *)
Fixpoint od_set {V} (d : odict V) (k : string) (v : V) : odict V :=
  match d with
  | [] => [(k, v)]
  | (k', v') :: d' =>
      if decide (k' = k) then (k, v) :: d' else (k', v') :: od_set d' k v
  end.

(** [d.pop(k, None)] *)
Definition od_pop {V} (d : odict V) (k : string) : option V * odict V :=
  (od_get d k, filter (fun kv => kv.1 ≠ k) d).

Module BibEntry.
(** Modelled from the spec: an entry of a bibfile as [iterentries] yields
    it, a record key, a type tag and an ordered field-name to value map. *)
Record t := mk {
  key : string;
  type : string;
  fields : odict string
}.
End BibEntry.

Module BibFile.
(** Modelled from the spec: a source file with its metadata (name, size,
    modification time), its priority and its entries in file order. *)
Record t := mk {
  name : string;
  size : Z;
  mtime : Z;
  priority : Z;
  iterentries : list BibEntry.t
}.

(** Modelled from the spec: [bf.load()] gives the entries as a dict from
    bibkey to [(entrytype, fields)]. *)
Definition load (bf : t) : odict (string * odict string) :=
  foldl (fun d e => od_set d (BibEntry.key e) (BibEntry.type e, BibEntry.fields e))
        [] (iterentries bf).

(** Modelled from the spec: [bf.save(entries)] rewrites the file from
    such a dict. *)
Definition save (bf : t) (entries : odict (string * odict string)) : t :=
  mk (name bf) (size bf) (mtime bf) (priority bf)
     (map (fun '(k, (ty, fs)) => BibEntry.mk k ty fs) entries).
End BibFile.

(** ** import_bibfiles *)

(** [cursor.lastrowid] of an insert into a table with an integer primary
    key: one more than the largest key present. *)
Definition next_pk (pks : list Z) : Z := foldr Z.max 0 pks + 1.

Section Importer.
Context `{Collaborators}.

Definition insert_file (db : Store) (b : BibFile.t) : result (Z * Store) :=
  let file_pk := next_pk (map File.pk (files db)) in
  if bool_decide (BibFile.name b = "") || negb (0 <? BibFile.size b)
     || bool_decide (BibFile.name b ∈ map File.name (files db))
  then Raise IntegrityError
  else Ok (file_pk,
           mkStore (files db ++ [File.mk file_pk (BibFile.name b) (BibFile.size b)
                                         (BibFile.mtime b) (BibFile.priority b)])
                   (entries db) (values db)).

Definition insert_entry (db : Store) (file_pk : Z) (bibkey : string)
    (refid : option Z) : result (Z * Store) :=
  let entry_pk := next_pk (map Entry.pk (entries db)) in
  if bool_decide (bibkey = "")
     || match refid with Some r => negb (0 <? r) | None => false end
     || bool_decide ((file_pk, bibkey) ∈
                     map (fun e => (Entry.file_pk e, Entry.bibkey e)) (entries db))
  then Raise IntegrityError
  else Ok (entry_pk,
           mkStore (files db)
                   (entries db ++ [Entry.mk entry_pk file_pk bibkey refid None None None])
                   (values db)).

Definition insert_value (db : Store) (v : Value.t) : result Store :=
  if bool_decide (Value.field v = "")
     || bool_decide ((Value.entry_pk v, Value.field v) ∈
                     map (fun v => (Value.entry_pk v, Value.field v)) (values db))
  then Raise IntegrityError
  else Ok (mkStore (files db) (entries db) (values db ++ [v])).

Definition import_entry (file_pk : Z) (db : Store) (e : BibEntry.t) : result Store :=
  let refid := int_of_text <$> od_get (BibEntry.fields e) REF_ID_FIELD in
  '(entry_pk, db) ← insert_entry db file_pk (BibEntry.key e) refid;
  let fields := (ENTRYTYPE, BibEntry.type e) :: BibEntry.fields e in
  foldM insert_value db
        (map (fun '(field, value) => Value.mk entry_pk field value) fields).

Definition import_bibfile (db : Store) (b : BibFile.t) : result Store :=
  '(file_pk, db) ← insert_file db b;
  foldM (import_entry file_pk) db (BibFile.iterentries b).

Definition import_bibfiles (db : Store) (bibfiles : list BibFile.t) : result Store :=
  foldM import_bibfile db bibfiles.
End Importer.

(** ** generate_hashes *)

(** [collections.Counter.update] with an iterable of words. *)
Definition counter_update (words : gmap string nat) (ws : list string)
    : gmap string nat :=
  foldl (fun c w => <[w := S (default O (c !! w))]> c) words ws.

Section Hashes.
Context `{Collaborators}.

Definition title_words (db : Store) : gmap string nat :=
  foldl (fun words v => counter_update words (wrds (Value.value v))) ∅
        (filter (fun v => Value.field v = "title") (values db)).

(** The generator [windowed_entries]: per file in name order, the
    first and last [pk] of each chunk of its entries. *)
Definition windowed_entries (db : Store) (chunksize : nat) : list (Z * Z) :=
  file ← order_by (fun f f' => String.compare (File.name f) (File.name f')) (files db);
  omap first_last
    (partitions chunksize
       (order_by Z.compare
          (map Entry.pk
             (filter (fun e => Entry.file_pk e = File.pk file) (entries db))))).

(** [select_bfv]: [value JOIN entry], type tag left out, by [pk]. *)
Definition select_bfv (db : Store) (first last : Z) : list (Z * string * string) :=
  order_by (fun r r' => Z.compare r.1.1 r'.1.1)
    (v ← values db;
     e ← filter (fun e => Entry.pk e = Value.entry_pk v) (entries db);
     if ((first <=? Entry.pk e) && (Entry.pk e <=? last))%Z
        && negb (bool_decide (Value.field v = ENTRYTYPE))
     then [(Entry.pk e, Value.field v, Value.value v)] else []).

(** [{r.field: r.value for r in grp}] *)
Definition fields_dict (grp : list (Z * string * string)) : gmap string string :=
  foldl (fun d r => <[r.1.2 := r.2]> d) ∅ grp.

(** [UPDATE entry SET hash = ? WHERE pk = ?]; the column's CHECK
    refuses the empty text. *)
Definition update_entry (db : Store) (hash : string) (entry_pk : Z) : result Store :=
  if bool_decide (hash = "")
     && existsb (fun e => bool_decide (Entry.pk e = entry_pk)) (entries db)
  then Raise IntegrityError
  else Ok (update_where (fun e => bool_decide (Entry.pk e = entry_pk))
                        (Entry.set_hash (Some hash)) db).

Definition hash_window (words : gmap string nat) (db : Store) (w : Z * Z)
    : result Store :=
  foldM (fun db '(entry_pk, grp) =>
           update_entry db (keyid (fields_dict grp) words) entry_pk)
        db (groupby (fun r => r.1.1) (select_bfv db w.1 w.2)).

Definition generate_hashes (db : Store) : result Store :=
  let words := title_words db in
  foldM (hash_window words) db (windowed_entries db 500).
End Hashes.

(** ** BaseDatabase.__iter__ *)

(** [ORDER BY id, field, File.priority DESC, filename, bibkey] *)
Definition cmp_id_field_member (r r' : Row.t) : comparison :=
  then_cmp (cmp_int (Entry.id (Row.entry r)) (Entry.id (Row.entry r')))
           (cmp_field_member r r').

Definition select_values_between (db : Store) (first last : option Z) : list Row.t :=
  order_by cmp_id_field_member
    (filter (fun r => holds (between (Entry.id (Row.entry r)) first last) = true)
            (entry_file_value db)).

Definition id_hash (r : Row.t) : option Z * option string :=
  (Entry.id (Row.entry r), Entry.hash (Row.entry r)).

Section Iter.
Context `{Collaborators}.

(** What the generator yields, in order: [(id, hash)] with the fields
    of the group. *)
Definition iter (db : Store) (chunksize : nat)
    : result (list ((option Z * option string) * list fieldgrp)) :=
  _ ← assert (allid db);
  _ ← assert (onetoone db);
  Ok ('(first, last) ← windowed db Entry.id chunksize;
      '(id_hash, grp) ← groupby id_hash (select_values_between db first last);
      [(id_hash, group_fields grp)]).
End Iter.

(** ** File.same_as and Exportable.trickle *)

(** [{name: (size, mtime)}] as a dict, later items replacing earlier. *)
Definition stat_dict (l : list (string * (Z * Z))) : gmap string (Z * Z) :=
  foldl (fun d kv => <[kv.1 := kv.2]> d) ∅ l.

Definition ondisk (bibfiles : list BibFile.t) : gmap string (Z * Z) :=
  stat_dict (map (fun b => (BibFile.name b, (BibFile.size b, BibFile.mtime b)))
                 bibfiles).

Definition indb (db : Store) : gmap string (Z * Z) :=
  stat_dict (map (fun f => (File.name f, (File.size f, File.mtime f)))
                 (order_by (fun f f' => String.compare (File.name f) (File.name f'))
                           (files db))).

Definition same_as (db : Store) (bibfiles : list BibFile.t) : bool :=
  bool_decide (ondisk bibfiles = indb db).

Definition is_uptodate (db : Store) (bibfiles : list BibFile.t) : bool :=
  same_as db bibfiles.

(** [CAST(x AS TEXT)] of an integer: its decimal numeral. *)
Definition text_of_int (z : Z) : string := NilZero.string_of_int (Z.to_int z).

(** SQLite's [lower()]: the letters A to Z only. *)
Definition lower_ascii (c : ascii) : ascii :=
  let n := nat_of_ascii c in
  if ((65 <=? n) && (n <=? 90))%nat then ascii_of_nat (n + 32) else c.

Fixpoint lower (s : string) : string :=
  match s with
  | EmptyString => EmptyString
  | String c s' => String (lower_ascii c) (lower s')
  end.

(** [Entry.id != coalesce(Entry.refid, -1)] *)
Definition changed (e : Entry.t) : bool :=
  holds (sql_ne (Entry.id e) (Some (default (-1) (Entry.refid e)))).

Definition select_files (db : Store) : list (Z * string) :=
  order_by (fun r r' => String.compare r.2 r'.2)
    (map (fun f => (File.pk f, File.name f))
       (filter (fun f => existsb (fun e => bool_decide (Entry.file_pk e = File.pk f)
                                           && changed e) (entries db) = true)
               (files db))).

(** Rows [(bibkey, refid, id)], the two ids cast to text. A changed
    row has an id: on a NULL id the condition is NULL. *)
Definition select_changed (db : Store) (file_pk : Z)
    : list (string * option string * string) :=
  order_by (fun r r' => String.compare (lower r.1.1) (lower r'.1.1))
    (e ← filter (fun e => bool_decide (Entry.file_pk e = file_pk) && changed e = true)
                (entries db);
     match Entry.id e with
     | Some i => [(Entry.bibkey e, text_of_int <$> Entry.refid e, text_of_int i)]
     | None => []
     end).

(** What [trickle] leaves behind: the bibfiles as they are on disk when
    it returns or raises, and how it ended. It issues SELECTs only, the
    store itself is never written. *)
Definition outcome : Type := list BibFile.t * result unit.

(** Modelled from the spec: [bibfiles[filename]] looks a bibfile up by
    its name and raises [KeyError] when there is none. *)
Definition bibfiles_get (bibfiles : list BibFile.t) (filename : string)
    : result BibFile.t :=
  match filter (fun b => BibFile.name b = filename) bibfiles with
  | bf :: _ => Ok bf
  | [] => Raise KeyError
  end.

(** The inner loop: one changed entry of the loaded file. *)
Definition trickle_entry (entries : odict (string * odict string))
    (row : string * option string * string)
    : result (odict (string * odict string)) :=
  let '(bibkey, refid, new) := row in
  match od_get entries bibkey with
  | None => Raise KeyError
  | Some (entrytype, fields) =>
      let '(old, fields) := od_pop fields REF_ID_FIELD in
      _ ← assert (bool_decide (old = refid));
      Ok (od_set entries bibkey (entrytype, od_set fields REF_ID_FIELD new))
  end.

(** The outer loop: the file is saved once all its entries went through. *)
Fixpoint trickle_files (db : Store) (bibfiles : list BibFile.t)
    (changed_files : list (Z * string)) : outcome :=
  match changed_files with
  | [] => (bibfiles, Ok tt)
  | (file_pk, filename) :: changed_files' =>
      match bf ← bibfiles_get bibfiles filename;
            entries ← foldM trickle_entry (BibFile.load bf) (select_changed db file_pk);
            Ok (bf, entries) with
      | Raise e => (bibfiles, Raise e)
      | Ok (bf, entries) =>
          let saved :=
            map (fun b => if decide (BibFile.name b = filename)
                          then BibFile.save bf entries else b) bibfiles in
          trickle_files db saved changed_files'
      end
  end.

Definition trickle (db : Store) (bibfiles : list BibFile.t) : outcome :=
  if negb (allid db) then (bibfiles, Raise AssertionError)
  else if negb (is_uptodate db bibfiles)
  then (bibfiles, Raise (RuntimeError "trickle with an outdated db"))
  else trickle_files db bibfiles (select_files db).

(** ** A concrete set of collaborators

    The matcher is the model of [difflib] above. The fingerprint joins
    author, title and year, a stand-in with the shape of a [libmonster]
    key; texts convert to integers by their decimal numeral, and an
    integer equals a text when the text is its numeral. *)

Definition decimal (s : string) : Z :=
  match NilZero.int_of_string s with
  | Some d => Z.of_int d
  | None => 0
  end.

Definition sample_keyid (fields : gmap string string) (words : gmap string nat) : string :=
  default "" (fields !! "author") ++ "_" ++ default "" (fields !! "title")
  ++ default "" (fields !! "year").

Definition sample : Collaborators := {|
  ratio := difflib.SequenceMatcher_ratio;
  keyid := sample_keyid;
  wrds := fun title => [title];
  int_of_text := decimal;
  int_eq_text := fun n s => String.eqb (text_of_int n) s
|}.

(** * Vocabulary of the properties, and sample stores

    The predicates the statements below are written with, and the
    concrete bibfiles and stores they are tried on. *)

(** A comparison that ORDER BY can sort with: swapping the arguments
    flips the answer, and "not greater" is transitive. *)
Class LawfulCmp {A} (cmp : A -> A -> comparison) := {
  cmp_flip : forall x y, cmp y x = CompOpp (cmp x y);
  cmp_le_trans : forall x y z, cmp x y <> Gt -> cmp y z <> Gt -> cmp x z <> Gt
}.

Definition sorted_by {A} (cmp : A -> A -> comparison) : list A -> Prop :=
  StronglySorted (fun x y => cmp x y <> Gt).

(** Two records carry the same hash and different ids. *)
Definition same_hash_diff_id (e1 e2 : Entry.t) : Prop :=
  exists h i1 i2, Entry.hash e1 = Some h /\ Entry.hash e2 = Some h /\
                  Entry.id e1 = Some i1 /\ Entry.id e2 = Some i2 /\ i1 <> i2.

(** The id of some record compares equal to the hash of another one
    that has a different hash: the only way the second comparison of
    [onetoone] can come out true. *)
Definition id_reads_as_hash `{Collaborators} (e1 e2 : Entry.t) : Prop :=
  exists i h h', Entry.id e1 = Some i /\ Entry.hash e2 = Some h /\
                 Entry.hash e1 = Some h' /\ h' <> h /\ int_eq_text i h = true.

(** Two records without a common hash; the id of the first is the
    number the hash of the second spells. *)
Definition id_as_hash_store : Store :=
  mkStore []
    [Entry.mk 1 1 "k1" None (Some "a") None (Some 7);
     Entry.mk 2 1 "k2" None (Some "7") None (Some 9)]
    [].

(** Two records with different hashes and the same id. *)
Definition shared_id_store : Store :=
  mkStore []
    [Entry.mk 1 1 "k1" None (Some "smith_grammar1999") None (Some 7);
     Entry.mk 2 1 "k2" None (Some "jones_dictionary2001") None (Some 7)]
    [].

Definition ratio_in_range `{Collaborators} (A B : gmap string string) : Prop :=
  forall k a b, A !! k = Some a -> B !! k = Some b ->
    (0 <= ratio a b <= 1)%Q /\ (a = b -> (ratio a b == 1)%Q).

(** The documented example of [difflib]'s order dependence, as titles. *)
Definition tide : gmap string string := {["title" := "tide"]}.

Definition diet : gmap string string := {["title" := "diet"]}.

(** A store built from [a.bib] at 10 bytes, and the file grown to 11. *)
Definition stale_store : Store :=
  mkStore [File.mk 1 "a.bib" 10 100 1]
          [Entry.mk 1 1 "k1" (Some 3) (Some "smith_grammar1999") (Some 3) (Some 4)]
          [Value.mk 1 ENTRYTYPE "book"; Value.mk 1 REF_ID_FIELD "3"].

Definition grown_bibfiles : list BibFile.t :=
  [BibFile.mk "a.bib" 11 100 1 [BibEntry.mk "k1" "book" [(REF_ID_FIELD, "3")]]].

(** A store that only grew: every row of [db] is a row of [db']. *)
Definition extends (db db' : Store) : Prop :=
  (exists fs, files db' = (files db ++ fs)%list) /\
  (exists es, entries db' = (entries db ++ es)%list) /\
  (exists vs, values db' = (values db ++ vs)%list).

(** The rows one record contributes. *)
Definition entry_row `{Collaborators} (entry_pk file_pk : Z) (e : BibEntry.t) : Entry.t :=
  Entry.mk entry_pk file_pk (BibEntry.key e)
           (int_of_text <$> od_get (BibEntry.fields e) REF_ID_FIELD) None None None.

Definition value_rows (entry_pk : Z) (e : BibEntry.t) : list Value.t :=
  Value.mk entry_pk ENTRYTYPE (BibEntry.type e)
  :: map (fun '(field, value) => Value.mk entry_pk field value) (BibEntry.fields e).

(** What the store holds for record [e] of bibfile [b]. *)
Definition imported `{Collaborators} (db : Store) (b : BibFile.t) (e : BibEntry.t) : Prop :=
  exists f r,
    f ∈ files db /\ File.name f = BibFile.name b /\
    r ∈ entries db /\ r = entry_row (Entry.pk r) (File.pk f) e /\
    Value.mk (Entry.pk r) ENTRYTYPE (BibEntry.type e) ∈ values db /\
    forall field value, (field, value) ∈ BibEntry.fields e ->
      Value.mk (Entry.pk r) field value ∈ values db.

(** The store before the first import. *)
Definition empty_store : Store := mkStore [] [] [].

(** One bibfile with one record that carries a prior identifier. *)
Definition grammar_entry : BibEntry.t :=
  BibEntry.mk "k1" "book" [("title", "Grammar"); (REF_ID_FIELD, "3")].

Definition grammar_bibfile : BibFile.t :=
  BibFile.mk "a.bib" 10 100 1 [grammar_entry].

Definition grammar_store : Store :=
  mkStore [File.mk 1 "a.bib" 10 100 1]
          [Entry.mk 1 1 "k1" (Some 3) None None None]
          [Value.mk 1 ENTRYTYPE "book"; Value.mk 1 "title" "Grammar";
           Value.mk 1 REF_ID_FIELD "3"].

(** One record through the whole batch of updates. *)
Definition update_new_row (params : list (Z * option string)) (e : Entry.t) : Entry.t :=
  foldl (fun e '(id_, hash_) =>
           if holds (sql_eq (Entry.hash e) hash_) then Entry.set_id (Some id_) e else e)
        e params.

(** Before stage 5: one record keeps its id 9, two have none. *)
Definition unminted_store : Store :=
  mkStore [File.mk 1 "a.bib" 10 100 1]
          [Entry.mk 1 1 "k1" (Some 5) (Some "smith_grammar1999") None None;
           Entry.mk 2 1 "k2" None (Some "jones_dictionary2001") None None;
           Entry.mk 3 1 "k3" (Some 9) (Some "zed_atlas1980") (Some 9) (Some 9)]
          [].

(** Four records of three works before [assign_ids]: [k1] and [k4]
    are one work, known as 5 through [k1]; [k3] is known as 9; [k2] is
    new. *)
Definition fresh_store : Store :=
  mkStore [File.mk 1 "a.bib" 10 100 1]
          [Entry.mk 1 1 "k1" (Some 5) (Some "smith_grammar1999") None None;
           Entry.mk 2 1 "k2" None (Some "jones_dictionary2001") None None;
           Entry.mk 3 1 "k3" (Some 9) (Some "zed_atlas1980") None None;
           Entry.mk 4 1 "k4" None (Some "smith_grammar1999") None None]
          [Value.mk 1 ENTRYTYPE "book"; Value.mk 2 ENTRYTYPE "book";
           Value.mk 3 ENTRYTYPE "misc"; Value.mk 4 ENTRYTYPE "book"].

(** The same records after it: [k4] joins [k1], [k2] gets the new id 10. *)
Definition fresh_resolved : Store :=
  with_entries fresh_store
    [Entry.mk 1 1 "k1" (Some 5) (Some "smith_grammar1999") (Some 5) (Some 5);
     Entry.mk 2 1 "k2" None (Some "jones_dictionary2001") None (Some 10);
     Entry.mk 3 1 "k3" (Some 9) (Some "zed_atlas1980") (Some 9) (Some 9);
     Entry.mk 4 1 "k4" None (Some "smith_grammar1999") None (Some 5)].

(** The record has no field value besides its type tag. *)
Definition only_type_tag (db : Store) (e : Entry.t) : Prop :=
  forall v, v ∈ values db -> Value.entry_pk v = Entry.pk e -> Value.field v = ENTRYTYPE.

(** A freshly imported store: record [k1] has a type and nothing else. *)
Definition bare_entry : Entry.t := Entry.mk 1 1 "k1" None None None None.

Definition bare_store : Store :=
  mkStore [File.mk 1 "a.bib" 10 100 1]
          [bare_entry; Entry.mk 2 1 "k2" None None None None]
          [Value.mk 1 ENTRYTYPE "book";
           Value.mk 2 ENTRYTYPE "book"; Value.mk 2 "author" "Smith";
           Value.mk 2 "title" "Grammar"; Value.mk 2 "year" "1999"].

Definition half_hashed_store : Store :=
  with_entries bare_store
    [bare_entry; Entry.mk 2 1 "k2" None (Some "Smith_Grammar1999") None None].

(** A value lies in the window: [between(value, first, last)] holds. *)
Definition in_window (v : Z) (w : option Z * option Z) : bool :=
  holds (between (Some v) w.1 w.2).

(** Every id stands for one hash: what [onetoone] is meant to assert. *)
Definition one_hash_per_id (db : Store) : Prop :=
  forall e1 e2, e1 ∈ entries db -> e2 ∈ entries db ->
    Entry.id e1 = Entry.id e2 -> Entry.hash e1 = Entry.hash e2.

(** The keys [(id, hash)] one window yields, in order. *)
Definition window_keys (db : Store) (w : option Z * option Z)
    : list (option Z * option string) :=
  map fst (groupby id_hash (select_values_between db w.1 w.2)).

(** Two records of one file with different hashes and the same id,
    each with an author and a title. *)
Definition shared_id_fields_store : Store :=
  mkStore [File.mk 1 "a.bib" 10 100 1]
          [Entry.mk 1 1 "k1" None (Some "smith_grammar1999") None (Some 7);
           Entry.mk 2 1 "k2" None (Some "jones_dictionary2001") None (Some 7)]
          [Value.mk 1 "author" "Smith"; Value.mk 1 "title" "Grammar";
           Value.mk 2 "author" "Jones"; Value.mk 2 "title" "Dictionary"].

(** A resolved store: two records share id 4, the others have 7 and 9. *)
Definition resolved_store : Store :=
  mkStore [File.mk 1 "a.bib" 10 100 1]
          [Entry.mk 1 1 "k1" (Some 4) (Some "smith_grammar1999") (Some 4) (Some 4);
           Entry.mk 2 1 "k2" None (Some "smith_grammar1999") None (Some 4);
           Entry.mk 3 1 "k3" (Some 7) (Some "jones_dictionary2001") (Some 7) (Some 7);
           Entry.mk 4 1 "k4" (Some 3) (Some "zed_atlas1980") None (Some 9)]
          [Value.mk 1 ENTRYTYPE "book"; Value.mk 2 ENTRYTYPE "book";
           Value.mk 3 ENTRYTYPE "misc"; Value.mk 4 ENTRYTYPE "book"].

(** The field values of a group for one field, in member order: highest
    file priority first, then by file name, then by bibkey. *)
Definition field_members (db : Store) (k : key) (field : string) : list Row.t :=
  order_by cmp_member
    (filter (fun r => Row.field r = field /\ key_matches k (Row.entry r) = true)
            (entry_file_value db)).

(** [r] comes before [r'] among the members, or ties with it. *)
Definition outranks (r r' : Row.t) : Prop :=
  Row.priority r' < Row.priority r \/
  (Row.priority r = Row.priority r' /\
   (String.ltb (Row.filename r) (Row.filename r') = true \/
    (Row.filename r = Row.filename r' /\
     String.leb (Row.bibkey r) (Row.bibkey r') = true))).

(** Two files hold the same work; the one with the higher priority
    lists "b" as file name, the other one "a". *)
Definition union_bibfiles : list BibFile.t :=
  [BibFile.mk "hh.bib" 10 100 2
     [BibEntry.mk "k1" "book"
        [("author", "Smith"); ("title", "Grammar"); ("year", "1999"); ("fn", "b")]];
   BibFile.mk "zz.bib" 10 100 1
     [BibEntry.mk "k2" "book"
        [("author", "Smith"); ("title", "Grammar"); ("year", "1999"); ("fn", "a")]]].

Definition union_store : Store :=
  mkStore [File.mk 1 "hh.bib" 10 100 2; File.mk 2 "zz.bib" 10 100 1]
          [Entry.mk 1 1 "k1" None (Some "Smith_Grammar1999") None None;
           Entry.mk 2 2 "k2" None (Some "Smith_Grammar1999") None None]
          [Value.mk 1 ENTRYTYPE "book"; Value.mk 1 "author" "Smith";
           Value.mk 1 "title" "Grammar"; Value.mk 1 "year" "1999";
           Value.mk 1 "fn" "b";
           Value.mk 2 ENTRYTYPE "book"; Value.mk 2 "author" "Smith";
           Value.mk 2 "title" "Grammar"; Value.mk 2 "year" "1999";
           Value.mk 2 "fn" "a"].

(** The merge view of the one hash of [union_store]. *)
Definition union_view : gmap string string :=
  _merged_entry_raw (group_fields (select_values union_store (StrKey "Smith_Grammar1999"))).

(** Three records of one work in one file: [k0] is new, [k1] and [k2]
    carry the prior ids 1 and 2; [k0] and [k2] agree on the note. *)
Definition tie_bibfiles : list BibFile.t :=
  [BibFile.mk "a.bib" 10 100 1
     [BibEntry.mk "k0" "book"
        [("author", "Smith"); ("title", "Grammar"); ("year", "1999"); ("note", "1")];
      BibEntry.mk "k1" "book"
        [("author", "Smith"); ("title", "Grammar"); ("year", "1999"); ("note", "2");
         (REF_ID_FIELD, "1")];
      BibEntry.mk "k2" "book"
        [("author", "Smith"); ("title", "Grammar"); ("year", "1999"); ("note", "1");
         (REF_ID_FIELD, "2")]]].

Definition tie_values (entry_pk : Z) (note : string) (refid : list (string * string))
    : list Value.t :=
  map (fun '(field, value) => Value.mk entry_pk field value)
      ([(ENTRYTYPE, "book"); ("author", "Smith"); ("title", "Grammar");
        ("year", "1999"); ("note", note)] ++ refid).

Definition tie_store : Store :=
  mkStore [File.mk 1 "a.bib" 10 100 1]
          [Entry.mk 1 1 "k0" None (Some "Smith_Grammar1999") None None;
           Entry.mk 2 1 "k1" (Some 1) (Some "Smith_Grammar1999") None None;
           Entry.mk 3 1 "k2" (Some 2) (Some "Smith_Grammar1999") None None]
          (tie_values 1 "1" [] ++ tie_values 2 "2" [(REF_ID_FIELD, "1")]
           ++ tie_values 3 "1" [(REF_ID_FIELD, "2")]).

Definition tie_resolved : Store :=
  with_entries tie_store
    [Entry.mk 1 1 "k0" None (Some "Smith_Grammar1999") None (Some 2);
     Entry.mk 2 1 "k1" (Some 1) (Some "Smith_Grammar1999") (Some 1) (Some 2);
     Entry.mk 3 1 "k2" (Some 2) (Some "Smith_Grammar1999") (Some 2) (Some 2)].

Definition tie_group : list (GroupRow.t string Z) :=
  [GroupRow.mk (Some "Smith_Grammar1999") (Some 2) "a.bib" "k2";
   GroupRow.mk (Some "Smith_Grammar1999") (Some 1) "a.bib" "k1"].

(** The columns a stage leaves alone. *)
Definition old_grouping (e : Entry.t) : option Z * option string :=
  (Entry.refid e, Entry.hash e).

Definition split_grouping (e : Entry.t) : option Z * option string * option Z :=
  (Entry.refid e, Entry.hash e, Entry.srefid e).

(** After the reset and the split loop no record has an id, and a
    record that still has a split id has it from its [refid]. *)
Definition split_state (db : Store) : Prop :=
  forall e, e ∈ entries db ->
    Entry.id e = None /\
    forall x, Entry.srefid e = Some x -> Entry.refid e = Some x.

(** Every id given so far is the split id of a record with the same
    hash in the store [db1] the merge loop started from. *)
Definition ids_from_split_ids (db1 db : Store) : Prop :=
  forall e i, e ∈ entries db -> Entry.id e = Some i ->
    exists e0, e0 ∈ entries db1 /\ Entry.srefid e0 = Some i /\
               Entry.hash e0 = Entry.hash e.

(** * Indexable: lookups *)

(** A Python [dict] built from items: a later item replaces an earlier
    one with the same key. *)
Definition py_dict {V} (items : list (string * V)) : gmap string V :=
  foldl (fun d kv => <[kv.1 := kv.2]> d) ∅ items.

(** [select_items] of [_entry]: [value JOIN entry JOIN file], filtered by
    bibkey and file name. The statement has no ORDER BY; the rows are
    taken in the order of the value table. *)
Definition select_items (db : Store) (filename bibkey : string)
    : list (string * string) :=
  v ← values db;
  e ← filter (fun e => Entry.pk e = Value.entry_pk v /\ Entry.bibkey e = bibkey)
             (entries db);
  f ← filter (fun f => File.pk f = Entry.file_pk e /\ File.name f = filename)
             (files db);
  [(Value.field v, Value.value v)].

(** [_entry]: the dict of the rows; [KeyError] when it is empty, and from
    [fields.pop(ENTRYTYPE)] when the type tag is not among them. *)
Definition _entry (db : Store) (filename bibkey : string)
    : result (string * gmap string string) :=
  let fields := py_dict (select_items db filename bibkey) in
  if bool_decide (fields = ∅) then Raise KeyError
  else match fields !! ENTRYTYPE with
       | Some entrytype => Ok (entrytype, delete ENTRYTYPE fields)
       | None => Raise KeyError
       end.

(** [_merged_entrygrp(conn, key=key, raw=False)], as [__getitem__] calls it *)
Definition _merged_entrygrp_entry (db : Store) (k : key)
    : result (string * gmap string string) :=
  match group_fields (select_values db k) with
  | [] => Raise KeyError
  | grp => _merged_entry grp
  end.

(** The keys of [__getitem__]: a tuple [(filename, bibkey)], an [int] or
    a [str]; any other key is refused with a [TypeError] before the
    store is read. *)
Inductive item_key : Type :=
  | ByLocation (filename bibkey : string)
  | ByRefid (refid : Z)
  | ByHash (hash : string).

(** [__getitem__] *)
Definition getitem (db : Store) (k : item_key)
    : result (item_key * (string * gmap string string)) :=
  entry ← match k with
          | ByLocation filename bibkey => _entry db filename bibkey
          | ByRefid refid => _merged_entrygrp_entry db (IntKey refid)
          | ByHash hash => _merged_entrygrp_entry db (StrKey hash)
          end;
  Ok (k, entry).

(** * BaseDatabase.merged and Exportable *)

(** How an export can fail: with one of the exceptions above, or with
    the [TypeError] of formatting [None] with [:d]. *)
Inductive export_exn : Type :=
  | Exn (e : exn)
  | TypeError.

(** A generator, run to its end: the items it yielded, and the exception
    it ended with, if any. *)
Fixpoint yield_until {A B} (f : A -> export_exn + B) (l : list A)
    : list B * option export_exn :=
  match l with
  | [] => ([], None)
  | x :: l' =>
      match f x with
      | inl e => ([], Some e)
      | inr y => let '(ys, st) := yield_until f l' in (y :: ys, st)
      end
  end.

(** The body of the loop of [merged]: the merged entry of the group,
    with the id of the group as its [glottolog_ref_id], under the hash. *)
Definition merged_item (item : (option Z * option string) * list fieldgrp)
    : export_exn + (option string * (string * gmap string string)) :=
  let '((id_, hash_), grp) := item in
  match _merged_entry grp with
  | Raise e => inl (Exn e)
  | Ok (entrytype, fields) =>
      match id_ with
      | None => inl TypeError
      | Some i => inr (hash_, (entrytype, <[REF_ID_FIELD := text_of_int i]> fields))
      end
  end.

(** [merged]: [for (id_, hash_), grp in self], with the window size
    [__iter__] defaults to. *)
Definition merged `{Collaborators} (db : Store)
    : list (option string * (string * gmap string string)) * option export_exn :=
  match iter db 100 with
  | Raise e => ([], Some (Exn e))
  | Ok items => yield_until merged_item items
  end.

(** [select_pairs] of [to_replacements]: [(refid AS id, id AS replacement)]
    [WHERE id != refid ORDER BY replacement]. *)
Definition select_pairs (db : Store) : list (option Z * option Z) :=
  order_by (fun p p' => cmp_int p.2 p'.2)
    (map (fun e => (Entry.refid e, Entry.id e))
         (filter (fun e => holds (sql_ne (Entry.id e) (Entry.refid e)) = true)
                 (entries db))).

(** [to_replacements]: the JSON file, absent or a list of pairs, is
    read ([default=[]] when absent), extended by the pairs and written
    back. *)
Definition to_replacements (db : Store) (file : option (list (option Z * option Z)))
    : list (option Z * option Z) :=
  (default [] file ++ select_pairs db)%list.

(** A row of [select_rows] of [to_csvfile], with the id as the integer
    the rows are sorted by and as the text that is written. *)
Module CsvRow.
Record t := mk {
  filename : string;
  bibkey : string;
  hash : option string;
  entry_id : option Z
}.

(** The cells as written: [cast(Entry.id, Text)], NULL left as it is. *)
Definition cells (r : t) : list (option string) :=
  [Some (filename r); Some (bibkey r); hash r; text_of_int <$> entry_id r].
End CsvRow.

(** [ORDER BY lower(File.name), lower(Entry.bibkey), hash, Entry.id] *)
Definition cmp_csv (r r' : CsvRow.t) : comparison :=
  then_cmp (String.compare (lower (CsvRow.filename r)) (lower (CsvRow.filename r')))
  (then_cmp (String.compare (lower (CsvRow.bibkey r)) (lower (CsvRow.bibkey r')))
  (then_cmp (cmp_text (CsvRow.hash r) (CsvRow.hash r'))
            (cmp_int (CsvRow.entry_id r) (CsvRow.entry_id r')))).

(** [select_rows]: [file JOIN entry]. *)
Definition select_rows (db : Store) : list CsvRow.t :=
  order_by cmp_csv
    (f ← files db;
     e ← filter (fun e => Entry.file_pk e = File.pk f) (entries db);
     [CsvRow.mk (File.name f) (Entry.bibkey e) (Entry.hash e) (Entry.id e)]).

(** [to_csvfile]: the rows handed to the writer, the header first. *)
Definition to_csvfile (db : Store) : list (list (option string)) :=
  [Some "filename"; Some "bibkey"; Some "hash"; Some "id"]
  :: map CsvRow.cells (select_rows db).

(** * Vocabulary of the further properties *)

(** The unique key of an [entry] row, [UniqueConstraint(file_pk, bibkey)]. *)
Definition entry_key (e : Entry.t) : Z * string := (Entry.file_pk e, Entry.bibkey e).

(** The primary key of a [value] row, [(entry_pk, field)]. *)
Definition value_key (v : Value.t) : Z * string := (Value.entry_pk v, Value.field v).

(** What the schema declares about the three tables and what the
    importer adds to it: the keys are unique, an entry points to a file
    and a value to an entry, every entry has its type tag row, and the
    CHECK constraints of the imported columns hold. *)
Record wellformed (db : Store) : Prop := {
  wf_file_pk : NoDup (map File.pk (files db));
  wf_file_name : NoDup (map File.name (files db));
  wf_entry_pk : NoDup (map Entry.pk (entries db));
  wf_entry_key : NoDup (map entry_key (entries db));
  wf_value_key : NoDup (map value_key (values db));
  wf_entry_file : forall e, e ∈ entries db -> Entry.file_pk e ∈ map File.pk (files db);
  wf_value_entry : forall v, v ∈ values db -> Value.entry_pk v ∈ map Entry.pk (entries db);
  wf_entry_type : forall e, e ∈ entries db ->
    (Entry.pk e, ENTRYTYPE) ∈ map value_key (values db);
  wf_file_check : forall f, f ∈ files db -> File.name f <> "" /\ 0 < File.size f;
  wf_entry_check : forall e, e ∈ entries db ->
    Entry.bibkey e <> "" /\ forall r, Entry.refid e = Some r -> 0 < r;
  wf_value_check : forall v, v ∈ values db -> Value.field v <> ""
}.

(** The bibfiles the importer takes: a record has a non-empty key, a
    prior identifier that reads as a positive integer, if any, and field
    names that are non-empty, distinct and other than ENTRYTYPE; a file
    has a non-empty name, a positive size and no bibkey twice; no two
    files share a name. *)
Definition valid_entry `{Collaborators} (e : BibEntry.t) : Prop :=
  BibEntry.key e <> "" /\
  (forall x, od_get (BibEntry.fields e) REF_ID_FIELD = Some x -> 0 < int_of_text x) /\
  ("" ∉ map fst (BibEntry.fields e)) /\
  NoDup (ENTRYTYPE :: map fst (BibEntry.fields e)).

Definition valid_bibfile `{Collaborators} (b : BibFile.t) : Prop :=
  BibFile.name b <> "" /\ 0 < BibFile.size b /\
  NoDup (map BibEntry.key (BibFile.iterentries b)) /\
  Forall valid_entry (BibFile.iterentries b).

Definition valid_bibfiles `{Collaborators} (bibfiles : list BibFile.t) : Prop :=
  NoDup (map BibFile.name bibfiles) /\ Forall valid_bibfile bibfiles.

(** What one imported record adds to the store: its row under the next
    free key and one value row for the type tag and each field. *)
Definition with_record `{Collaborators} (db : Store) (file_pk : Z) (e : BibEntry.t)
    : Store :=
  let entry_pk := next_pk (map Entry.pk (entries db)) in
  mkStore (files db) (entries db ++ [entry_row entry_pk file_pk e])
          (values db ++ value_rows entry_pk e).

(** A loop whose step [g] is taken under the condition [ok] of the
    state it reaches. *)
Fixpoint all_ok {A S} (ok : S -> A -> Prop) (g : S -> A -> S) (s : S) (l : list A) : Prop :=
  match l with
  | [] => True
  | x :: l' => ok s x /\ all_ok ok g (g s x) l'
  end.

(** The condition under which a record goes into the store. *)
Definition record_ok `{Collaborators} (file_pk : Z) (db : Store) (e : BibEntry.t) : Prop :=
  valid_entry e /\ ((file_pk, BibEntry.key e) ∉ map entry_key (entries db)).

(** What the records of one file add, in file order. *)
Definition with_records `{Collaborators} (file_pk : Z) (db : Store)
    (es : list BibEntry.t) : Store :=
  foldl (fun db e => with_record db file_pk e) db es.

(** What one imported file adds: its row under the next free key, then
    its records. *)
Definition with_file (db : Store) (b : BibFile.t) : Store :=
  mkStore (files db ++ [File.mk (next_pk (map File.pk (files db))) (BibFile.name b)
                                (BibFile.size b) (BibFile.mtime b) (BibFile.priority b)])
          (entries db) (values db).

Definition with_bibfile `{Collaborators} (db : Store) (b : BibFile.t) : Store :=
  with_records (next_pk (map File.pk (files db))) (with_file db b) (BibFile.iterentries b).

(** The condition under which a file goes into the store. *)
Definition file_ok (db : Store) (b : BibFile.t) : Prop :=
  BibFile.name b <> "" /\ 0 < BibFile.size b /\
  (BibFile.name b ∉ map File.name (files db)).

Definition bibfile_ok `{Collaborators} (db : Store) (b : BibFile.t) : Prop :=
  valid_bibfile b /\ (BibFile.name b ∉ map File.name (files db)).

(** The store a run of the importer that meets no refusal builds. *)
Definition imported_store `{Collaborators} (db : Store) (bibfiles : list BibFile.t) : Store :=
  foldl with_bibfile db bibfiles.

(** Every prior identifier in the bibfiles is the decimal numeral of a
    64-bit integer: the engine then stores that integer for it. *)
Definition numeral_ids `{Collaborators} (bibfiles : list BibFile.t) : Prop :=
  forall b e x, b ∈ bibfiles -> e ∈ BibFile.iterentries b ->
    od_get (BibEntry.fields e) REF_ID_FIELD = Some x ->
    x = text_of_int (int_of_text x) /\ - 2 ^ 63 <= int_of_text x < 2 ^ 63.

(** The metadata [same_as] compares, of a file row and of a bibfile. *)
Definition file_stat (f : File.t) : string * (Z * Z) :=
  (File.name f, (File.size f, File.mtime f)).

Definition bibfile_stat (b : BibFile.t) : string * (Z * Z) :=
  (BibFile.name b, (BibFile.size b, BibFile.mtime b)).

(** The store holds record [e] of bibfile [b] with exactly its rows. *)
Definition record_of `{Collaborators} (db : Store) (b : BibFile.t) (e : BibEntry.t)
    (f : File.t) (r : Entry.t) : Prop :=
  f ∈ files db /\ File.name f = BibFile.name b /\
  r ∈ entries db /\ r = entry_row (Entry.pk r) (File.pk f) e /\
  filter (fun v => Value.entry_pk v = Entry.pk r) (values db) = value_rows (Entry.pk r) e.

(** Every record of the store comes from a record of a bibfile. *)
Definition from_bibfiles_only (bibfiles : list BibFile.t) (db : Store) : Prop :=
  forall r f, r ∈ entries db -> f ∈ files db -> File.pk f = Entry.file_pk r ->
    exists b e, b ∈ bibfiles /\ e ∈ BibFile.iterentries b /\
                BibFile.name b = File.name f /\ BibEntry.key e = Entry.bibkey r.

(** The rows of the hashing query for one entry: its field values other
    than the type tag, in the order of the value table. *)
Definition hash_rows (db : Store) (entry_pk : Z) : list (Z * string * string) :=
  map (fun v => (entry_pk, Value.field v, Value.value v))
      (filter (fun v => Value.entry_pk v = entry_pk /\ Value.field v <> ENTRYTYPE)
              (values db)).

(** The fingerprint of an entry: [keyid] of its fields, against the
    title words of the whole store. *)
Definition hash_of `{Collaborators} (db : Store) (entry_pk : Z) : string :=
  keyid (fields_dict (hash_rows db entry_pk)) (title_words db).

(** An entry as [generate_hashes] leaves it. *)
Definition hashed `{Collaborators} (db : Store) (e : Entry.t) : Entry.t :=
  match hash_rows db (Entry.pk e) with
  | [] => e
  | _ => Entry.set_hash (Some (hash_of db (Entry.pk e))) e
  end.

(** One row through the UPDATEs of a window. *)
Definition hash_step `{Collaborators} (words : gmap string nat) (e : Entry.t)
    (g : Z * list (Z * string * string)) : Entry.t :=
  if bool_decide (Entry.pk e = g.1)
  then Entry.set_hash (Some (keyid (fields_dict g.2) words)) e else e.

(** One row through the windows. *)
Definition window_step `{Collaborators} (db : Store) (e : Entry.t) (w : Z * Z)
    : Entry.t :=
  if bool_decide (w.1 <= Entry.pk e <= w.2 /\ hash_rows db (Entry.pk e) <> [])
  then Entry.set_hash (Some (hash_of db (Entry.pk e))) e else e.

(** The columns of an entry that [assign_ids] reads and never writes. *)
Definition imported_columns (e : Entry.t)
    : Z * Z * string * option Z * option string :=
  (Entry.pk e, Entry.file_pk e, Entry.bibkey e, Entry.refid e, Entry.hash e).

(** Two stores that differ at most in the split ids and ids of their
    entries. *)
Definition same_source (db db' : Store) : Prop :=
  files db' = files db /\ values db' = values db /\
  map imported_columns (entries db') = map imported_columns (entries db).

(** What the first stage makes of a row, from its imported columns. *)
Definition reset_row (c : Z * Z * string * option Z * option string) : Entry.t :=
  let '(pk, file_pk, bibkey, refid, hash) := c in
  Entry.mk pk file_pk bibkey refid hash refid None.

(** The old group [r] and the new group [h] coincide on the records that
    carry a prior identifier. *)
Definition same_group (r : Z) (h : string) (e : Entry.t) : Prop :=
  (Entry.refid e = Some r -> Entry.hash e = Some h) /\
  (forall r', Entry.hash e = Some h -> Entry.refid e = Some r' -> r' = r).

(** A store before the resolver runs: [k1] carries the prior identifier
    4 and [k2], new, has the same hash; [k3] carries 7 on another hash. *)
Definition steady_store : Store :=
  mkStore [File.mk 1 "a.bib" 10 100 1]
          [Entry.mk 1 1 "k1" (Some 4) (Some "smith_grammar1999") None None;
           Entry.mk 2 1 "k2" None (Some "smith_grammar1999") None None;
           Entry.mk 3 1 "k3" (Some 7) (Some "jones_dictionary2001") None None]
          [Value.mk 1 ENTRYTYPE "book"; Value.mk 2 ENTRYTYPE "book";
           Value.mk 3 ENTRYTYPE "misc"].

Definition steady_resolved : Store :=
  with_entries steady_store
    [Entry.mk 1 1 "k1" (Some 4) (Some "smith_grammar1999") (Some 4) (Some 4);
     Entry.mk 2 1 "k2" None (Some "smith_grammar1999") None (Some 4);
     Entry.mk 3 1 "k3" (Some 7) (Some "jones_dictionary2001") (Some 7) (Some 7)].

(** The columns of an entry the importer fills. *)
Definition entry_source (e : Entry.t) : Z * Z * string * option Z :=
  (Entry.pk e, Entry.file_pk e, Entry.bibkey e, Entry.refid e).

(** The record got an id other than its prior identifier. *)
Definition replaced (e : Entry.t) : bool :=
  match Entry.refid e, Entry.id e with
  | Some r, Some i => negb (i =? r)
  | _, _ => false
  end.

(** A store that differs from [db0] at most in the columns the later
    stages write: the hash, the split id and the id of an entry. *)
Definition same_import (db0 db : Store) : Prop :=
  files db = files db0 /\ values db = values db0 /\
  map entry_source (entries db) = map entry_source (entries db0).

(** The fields of a record other than its [glottolog_ref_id]. *)
Definition other_fields (fields : odict string) : odict string :=
  filter (fun kv => kv.1 <> REF_ID_FIELD) fields.

(** Record [e'] of a bibfile named [filename] is record [e] with the id
    the store has for it: key, type and the other fields, in their
    order, are those of [e], and [glottolog_ref_id] is the id of the
    entry at [(filename, key)], as a decimal numeral. *)
Definition written_entry (db : Store) (filename : string) (e e' : BibEntry.t) : Prop :=
  BibEntry.key e' = BibEntry.key e /\
  BibEntry.type e' = BibEntry.type e /\
  other_fields (BibEntry.fields e') = other_fields (BibEntry.fields e) /\
  exists f r, f ∈ files db /\ File.name f = filename /\
              r ∈ entries db /\ Entry.file_pk r = File.pk f /\
              Entry.bibkey r = BibEntry.key e /\
              od_get (BibEntry.fields e') REF_ID_FIELD = text_of_int <$> Entry.id r.

(** Bibfile [b'] is bibfile [b] with the ids of the store written into
    its records: the same name, and record by record the same entries
    but for the id. *)
Definition written (db : Store) (b b' : BibFile.t) : Prop :=
  BibFile.name b' = BibFile.name b /\
  Forall2 (written_entry db (BibFile.name b))
          (BibFile.iterentries b) (BibFile.iterentries b').

(** A loaded entry after the rows of [select_changed] went through the
    inner loop of [trickle]. *)
Definition trickled_item (rows : list (string * option string * string))
    (kv : string * (string * odict string)) : string * (string * odict string) :=
  match filter (fun row : string * option string * string => row.1.1 = kv.1) rows with
  | row :: _ => (kv.1, (kv.2.1, od_set (other_fields kv.2.2) REF_ID_FIELD row.2))
  | [] => kv
  end.

Definition loaded (e : BibEntry.t) : string * (string * odict string) :=
  (BibEntry.key e, (BibEntry.type e, BibEntry.fields e)).

Definition trickled_file (rows : list (string * option string * string))
    (b : BibFile.t) : BibFile.t :=
  BibFile.save b (map (trickled_item rows) (map loaded (BibFile.iterentries b))).

(** The file the loop turns to is on disk, its keys are distinct, and
    each changed row finds its record with the prior identifier the
    store has. *)
Definition file_ready (db : Store) (c : Z * string) (b : BibFile.t) : Prop :=
  BibFile.name b = c.2 /\
  NoDup (map BibEntry.key (BibFile.iterentries b)) /\
  NoDup (map (fun row : string * option string * string => row.1.1)
             (select_changed db c.1)) /\
  forall row, row ∈ select_changed db c.1 ->
    exists e, e ∈ BibFile.iterentries b /\ BibEntry.key e = row.1.1 /\
              od_get (BibEntry.fields e) REF_ID_FIELD = row.1.2.

(** The bibfile after the loop went over the changed files [cf]. *)
Definition trickled (db : Store) (cf : list (Z * string)) (b : BibFile.t) : BibFile.t :=
  match filter (fun c : Z * string => c.2 = BibFile.name b) cf with
  | c :: _ => trickled_file (select_changed db c.1) b
  | [] => b
  end.

(** The store of the three records as imported, before the hashes. *)
Definition tie_imported : Store :=
  with_entries tie_store (map (Entry.set_hash None) (entries tie_store)).

(** * Properties *)

(** ** Comparisons and ORDER BY *)

Section LawfulFacts.
Context {A} (cmp : A -> A -> comparison) `{!LawfulCmp cmp}.

Lemma cmp_refl x : cmp x x = Eq.
Proof. pose proof (cmp_flip x x) as E. destruct (cmp x x); simpl in E; congruence. Qed.

Lemma cmp_gt_flip x y : cmp x y = Gt -> cmp y x = Lt.
Proof. intros E. rewrite cmp_flip, E. reflexivity. Qed.

Lemma cmp_lt_flip x y : cmp x y = Lt -> cmp y x = Gt.
Proof. intros E. rewrite cmp_flip, E. reflexivity. Qed.

Lemma cmp_eq_flip x y : cmp x y = Eq -> cmp y x = Eq.
Proof. intros E. rewrite cmp_flip, E. reflexivity. Qed.

Lemma cmp_eq_trans x y z : cmp x y = Eq -> cmp y z = Eq -> cmp x z = Eq.
Proof.
  intros E1 E2.
  assert (L : cmp x z <> Gt) by (apply (cmp_le_trans x y z); congruence).
  assert (R : cmp z x <> Gt).
  { apply (cmp_le_trans z y x); rewrite cmp_flip; [rewrite E2|rewrite E1]; simpl; congruence. }
  rewrite cmp_flip in R. destruct (cmp x z); simpl in *; congruence.
Qed.

Lemma cmp_lt_le_trans x y z : cmp x y = Lt -> cmp y z <> Gt -> cmp x z = Lt.
Proof.
  intros E1 E2.
  assert (L : cmp x z <> Gt) by (apply (cmp_le_trans x y z); congruence).
  destruct (cmp x z) eqn:E; try congruence.
  exfalso. apply cmp_eq_flip in E.
  assert (G : cmp y x <> Gt) by (apply (cmp_le_trans y z x); congruence).
  apply cmp_lt_flip in E1. congruence.
Qed.

Lemma cmp_le_lt_trans x y z : cmp x y <> Gt -> cmp y z = Lt -> cmp x z = Lt.
Proof.
  intros E1 E2.
  assert (L : cmp x z <> Gt) by (apply (cmp_le_trans x y z); congruence).
  destruct (cmp x z) eqn:E; try congruence.
  exfalso. apply cmp_eq_flip in E.
  assert (G : cmp z y <> Gt) by (apply (cmp_le_trans z x y); congruence).
  apply cmp_lt_flip in E2. congruence.
Qed.
End LawfulFacts.

#[global] Instance Z_compare_lawful : LawfulCmp Z.compare.
Proof.
  split.
  - intros x y. apply Z.compare_antisym.
  - intros x y z. rewrite !Z.compare_le_iff. lia.
Qed.

Lemma string_compare_le_trans (x y z : string) :
  String.compare x y <> Gt -> String.compare y z <> Gt -> String.compare x z <> Gt.
Proof.
  revert y z. induction x as [|a x IH]; intros [|b y] [|c z]; simpl; try congruence.
  destruct (Ascii.compare a b) eqn:Eab; try congruence.
  - apply Ascii.compare_eq_iff in Eab. subst b.
    destruct (Ascii.compare a c) eqn:Eac; try congruence. apply IH.
  - intros _. unfold Ascii.compare in *. rewrite N.compare_lt_iff in Eab.
    destruct (N_of_ascii b ?= N_of_ascii c)%N eqn:Ebc; try congruence.
    + apply N.compare_eq_iff in Ebc. intros _.
      assert (E : (N_of_ascii a ?= N_of_ascii c)%N = Lt)
        by (rewrite N.compare_lt_iff; lia).
      rewrite E. congruence.
    + rewrite N.compare_lt_iff in Ebc. intros _.
      assert (E : (N_of_ascii a ?= N_of_ascii c)%N = Lt)
        by (rewrite N.compare_lt_iff; lia).
      rewrite E. congruence.
Qed.

#[global] Instance string_compare_lawful : LawfulCmp String.compare.
Proof.
  split.
  - intros x y. apply String.compare_antisym.
  - apply string_compare_le_trans.
Qed.

#[global] Instance cmp_opt_lawful {A} (cmp : A -> A -> comparison) :
  LawfulCmp cmp -> LawfulCmp (cmp_opt cmp).
Proof.
  intros L. split.
  - intros [x|] [y|]; simpl; try reflexivity. apply cmp_flip.
  - intros [x|] [y|] [z|]; simpl; try congruence. apply cmp_le_trans.
Qed.

(** [.desc()] of a lawful comparison. *)
#[global] Instance desc_lawful {A} (cmp : A -> A -> comparison) :
  LawfulCmp cmp -> LawfulCmp (fun x y => desc (cmp x y)).
Proof.
  intros L. split.
  - intros x y. unfold desc. rewrite (cmp_flip (cmp:=cmp) x y). reflexivity.
  - intros x y z. unfold desc. intros E1 E2.
    assert (G1 : cmp y x <> Gt).
    { rewrite cmp_flip. destruct (cmp x y); simpl in *; congruence. }
    assert (G2 : cmp z y <> Gt).
    { rewrite cmp_flip. destruct (cmp y z); simpl in *; congruence. }
    pose proof (cmp_le_trans z y x G2 G1) as G.
    rewrite cmp_flip in G. destruct (cmp x z); simpl in *; congruence.
Qed.

(** A comparison on a column of the row. *)
#[global] Instance on_lawful {A B} (f : A -> B) (cmp : B -> B -> comparison) :
  LawfulCmp cmp -> LawfulCmp (fun x y => cmp (f x) (f y)).
Proof.
  intros L. split.
  - intros x y. apply cmp_flip.
  - intros x y z. apply cmp_le_trans.
Qed.

(** Lexicographic combination of two sort keys. *)
#[global] Instance then_lawful {A} (c d : A -> A -> comparison) :
  LawfulCmp c -> LawfulCmp d -> LawfulCmp (fun x y => then_cmp (c x y) (d x y)).
Proof.
  intros Lc Ld. split.
  - intros x y. unfold then_cmp. rewrite (cmp_flip (cmp:=c) x y).
    destruct (c x y); simpl; try reflexivity. apply cmp_flip.
  - intros x y z. unfold then_cmp.
    destruct (c x y) eqn:E1; try congruence;
      destruct (c y z) eqn:E2; try congruence.
    + rewrite (cmp_eq_trans c x y z E1 E2). apply cmp_le_trans.
    + intros _ _. rewrite (cmp_le_lt_trans c x y z); congruence.
    + intros _ _. rewrite (cmp_lt_le_trans c x y z); congruence.
    + intros _ _. rewrite (cmp_lt_le_trans c x y z); congruence.
Qed.

Section OrderBy.
Context {A} (cmp : A -> A -> comparison).

Lemma insert_sorted_perm x l : insert_sorted cmp x l ≡ₚ x :: l.
Proof.
  induction l as [|y l IH]; simpl; [reflexivity|].
  destruct (cmp_leb (cmp x y)); [reflexivity|].
  rewrite IH. apply Permutation_swap.
Qed.

Lemma order_by_perm l : order_by cmp l ≡ₚ l.
Proof.
  induction l as [|x l IH]; simpl; [reflexivity|].
  rewrite insert_sorted_perm, IH. reflexivity.
Qed.

Lemma order_by_elem x l : x ∈ order_by cmp l <-> x ∈ l.
Proof. rewrite order_by_perm. reflexivity. Qed.

Lemma order_by_nil_inv l : order_by cmp l = [] -> l = [].
Proof.
  intros E. apply Permutation_nil_r. rewrite <- E. symmetry. apply order_by_perm.
Qed.

Lemma insert_sorted_least x l :
  (forall z, z ∈ l -> cmp x z <> Gt) -> insert_sorted cmp x l = x :: l.
Proof.
  destruct l as [|y l]; simpl; [reflexivity|]. intros Hle.
  specialize (Hle y ltac:(left)). destruct (cmp x y); simpl; congruence.
Qed.

Lemma order_by_ext (cmp' : A -> A -> comparison) l :
  (forall x y, x ∈ l -> y ∈ l -> cmp x y = cmp' x y) ->
  order_by cmp l = order_by cmp' l.
Proof.
  induction l as [|x l IH]; simpl; [reflexivity|]. intros Hext.
  rewrite <- IH by (intros; apply Hext; right; assumption).
  assert (Hin : forall z, z ∈ order_by cmp l -> z ∈ x :: l)
    by (intros z Hz; right; apply (proj1 (order_by_elem z l)), Hz).
  revert Hin. generalize (order_by cmp l) as s.
  induction s as [|y s IHs]; simpl; intros Hin; [reflexivity|].
  rewrite <- (Hext x y) by (try left; apply Hin; left).
  rewrite IHs by (intros; apply Hin; right; assumption). reflexivity.
Qed.

Context `{!LawfulCmp cmp}.

Lemma insert_sorted_sorted x l :
  sorted_by cmp l -> sorted_by cmp (insert_sorted cmp x l).
Proof.
  unfold sorted_by. induction 1 as [|y l Hs IH Hy]; simpl.
  - repeat constructor.
  - destruct (cmp x y) eqn:E; simpl.
    + constructor; [constructor; assumption|].
      constructor; [congruence|].
      eapply Forall_impl; [exact Hy|]. intros z Hz.
      apply (cmp_le_trans x y z); congruence.
    + constructor; [constructor; assumption|].
      constructor; [congruence|].
      eapply Forall_impl; [exact Hy|]. intros z Hz.
      apply (cmp_le_trans x y z); congruence.
    + constructor; [exact IH|].
      rewrite insert_sorted_perm. constructor; [|exact Hy].
      rewrite (cmp_gt_flip cmp x y E). congruence.
Qed.

Lemma order_by_sorted l : sorted_by cmp (order_by cmp l).
Proof.
  induction l as [|x l IH]; simpl; [constructor|].
  apply insert_sorted_sorted, IH.
Qed.

(** The sort is stable, so a WHERE clause may be applied before or
    after it. *)
Lemma filter_insert_sorted (P : A -> Prop) `{!forall x, Decision (P x)} x l :
  sorted_by cmp l ->
  filter P (insert_sorted cmp x l) =
    if decide (P x) then insert_sorted cmp x (filter P l) else filter P l.
Proof.
  unfold sorted_by. induction 1 as [|y l Hs IH Hy]; simpl.
  - rewrite filter_cons, filter_nil. destruct (decide (P x)); reflexivity.
  - destruct (cmp x y) eqn:E; simpl.
    1,2: rewrite (filter_cons _ x); destruct (decide (P x)); [|reflexivity];
      rewrite insert_sorted_least; [reflexivity|];
      intros z Hz; apply list_elem_of_filter in Hz as [_ Hz];
      apply elem_of_cons in Hz as [->|Hz]; [congruence|];
      rewrite Forall_forall in Hy;
      apply (cmp_le_trans x y z); [congruence|apply Hy, Hz].
    rewrite !(filter_cons _ y), IH.
    destruct (decide (P y)), (decide (P x)); simpl; rewrite ?E; reflexivity.
Qed.

Lemma order_by_filter (P : A -> Prop) `{!forall x, Decision (P x)} l :
  filter P (order_by cmp l) = order_by cmp (filter P l).
Proof.
  induction l as [|x l IH]; simpl; [reflexivity|].
  rewrite filter_insert_sorted by apply order_by_sorted.
  rewrite filter_cons, IH. destruct (decide (P x)); reflexivity.
Qed.

(** The first row of a sorted result is not greater than any row. *)
Lemma sorted_head_least x l y :
  sorted_by cmp (x :: l) -> y ∈ x :: l -> cmp x y <> Gt.
Proof.
  intros Hs Hy. inversion Hs as [|? ? _ Hall]; subst.
  apply elem_of_cons in Hy as [->|Hy].
  - rewrite cmp_refl by assumption. congruence.
  - rewrite Forall_forall in Hall. apply Hall, Hy.
Qed.
End OrderBy.

(** ** unique *)

Section Unique.
Context {A} `{EqDecision A}.
Implicit Types l seen : list A.

Lemma unique_go_elem x seen l :
  x ∈ unique_go seen l <-> x ∈ l /\ x ∉ seen.
Proof.
  revert seen. induction l as [|y l IH]; intros seen; simpl.
  - split; [intros Hx; inversion Hx|intros [Hx _]; inversion Hx].
  - destruct (decide (y ∈ seen)) as [Hy|Hy].
    + rewrite IH, elem_of_cons. split; [tauto|].
      intros [[->|Hx] Hn]; [contradiction|tauto].
    + rewrite elem_of_cons, IH, !elem_of_cons. split.
      * intros [->|[Hx Hn]]; [tauto|]. split; [tauto|]. tauto.
      * intros [[->|Hx] Hn]; [tauto|].
        destruct (decide (x = y)) as [->|Hne]; [tauto|]. right. tauto.
Qed.

Lemma unique_elem x l : x ∈ unique l <-> x ∈ l.
Proof.
  unfold unique. rewrite unique_go_elem. split; [tauto|].
  intros Hx. split; [exact Hx|]. apply not_elem_of_nil.
Qed.

Lemma unique_go_NoDup seen l : NoDup (unique_go seen l).
Proof.
  revert seen. induction l as [|y l IH]; intros seen; simpl; [constructor|].
  destruct (decide (y ∈ seen)); [apply IH|].
  constructor; [|apply IH].
  rewrite unique_go_elem, elem_of_cons. tauto.
Qed.

Lemma unique_NoDup l : NoDup (unique l).
Proof. apply unique_go_NoDup. Qed.

Lemma unique_go_sublist seen l : sublist (unique_go seen l) l.
Proof.
  revert seen. induction l as [|y l IH]; intros seen; simpl; [constructor|].
  destruct (decide (y ∈ seen)); [apply sublist_cons|apply sublist_skip]; apply IH.
Qed.

Lemma unique_sublist l : sublist (unique l) l.
Proof. apply unique_go_sublist. Qed.

(** A list without repetition goes through unchanged. *)
Lemma unique_go_id seen l :
  NoDup l -> (forall x, x ∈ l -> x ∉ seen) -> unique_go seen l = l.
Proof.
  intros Hnd. revert seen. induction Hnd as [|y l Hy Hnd IH]; intros seen Hs; simpl.
  - reflexivity.
  - destruct (decide (y ∈ seen)) as [Hin|_].
    + exfalso. apply (Hs y); [left|exact Hin].
    + f_equal. apply IH. intros x Hx. rewrite elem_of_cons.
      intros [->|Hin]; [contradiction|]. apply (Hs x); [right; exact Hx|exact Hin].
Qed.

Lemma unique_id l : NoDup l -> unique l = l.
Proof. intros Hnd. apply unique_go_id; [exact Hnd|]. intros x _. apply not_elem_of_nil. Qed.
End Unique.

(** ** SQL conditions read as propositions *)

Lemma existsb_elem {A} (f : A -> bool) (l : list A) :
  existsb f l = true <-> exists x, x ∈ l /\ f x = true.
Proof.
  rewrite existsb_exists. split; intros (x & Hx & Hf); exists x; split;
    try assumption; apply list_elem_of_In; assumption.
Qed.

Lemma existsb_false {A} (f : A -> bool) (l : list A) :
  existsb f l = false <-> forall x, x ∈ l -> f x = false.
Proof.
  split.
  - intros E x Hx. destruct (f x) eqn:Ef; [|reflexivity].
    assert (existsb f l = true) by (apply existsb_elem; eauto). congruence.
  - intros Hall. destruct (existsb f l) eqn:E; [|reflexivity].
    apply existsb_elem in E as (x & Hx & Hf). rewrite (Hall x Hx) in Hf. discriminate.
Qed.

Lemma not_existsb_elem {A} (f : A -> bool) (l : list A) :
  negb (existsb f l) = true <-> forall x, x ∈ l -> f x = false.
Proof. rewrite negb_true_iff. apply existsb_false. Qed.

Lemma holds_eq {A} `{EqDecision A} (x y : option A) :
  holds (sql_eq x y) = true <-> exists a, x = Some a /\ y = Some a.
Proof. destruct x, y; simpl; try case_bool_decide; naive_solver. Qed.

Lemma holds_ne {A} `{EqDecision A} (x y : option A) :
  holds (sql_ne x y) = true <-> exists a b, x = Some a /\ y = Some b /\ a <> b.
Proof. destruct x, y; simpl; try case_bool_decide; naive_solver. Qed.

Lemma holds_and p q : holds (sql_and p q) = true <-> holds p = true /\ holds q = true.
Proof. destruct p as [[]|], q as [[]|]; simpl; intuition discriminate. Qed.

Lemma holds_or p q : holds (sql_or p q) = true <-> holds p = true \/ holds q = true.
Proof. destruct p as [[]|], q as [[]|]; simpl; intuition discriminate. Qed.

Lemma is_null_true {A} (x : option A) : is_null x = true <-> x = None.
Proof. destruct x; simpl; split; congruence. Qed.

Lemma not_null_true {A} (x : option A) : not_null x = true <-> exists a, x = Some a.
Proof.
  destruct x; unfold not_null; simpl; split; try discriminate; eauto.
  intros (? & ?). discriminate.
Qed.

Lemma allhash_true db :
  allhash db = true <-> forall e, e ∈ entries db -> exists h, Entry.hash e = Some h.
Proof.
  unfold allhash. rewrite not_existsb_elem. split; intros Hall e He.
  - specialize (Hall e He). destruct (Entry.hash e); [eauto|discriminate].
  - destruct (Hall e He) as (h & ->). reflexivity.
Qed.

Lemma allid_true db :
  allid db = true <-> forall e, e ∈ entries db -> exists i, Entry.id e = Some i.
Proof.
  unfold allid. rewrite not_existsb_elem. split; intros Hall e He.
  - specialize (Hall e He). destruct (Entry.id e); [eauto|discriminate].
  - destruct (Hall e He) as (h & ->). reflexivity.
Qed.

(** ** Entry.onetoone *)

Lemma holds_id_eq_hash `{Collaborators} i h :
  holds (id_eq_hash i h) = true <->
  exists n s, i = Some n /\ h = Some s /\ int_eq_text n s = true.
Proof.
  destruct i as [n|], h as [s|]; simpl; try destruct (int_eq_text n s) eqn:E;
    naive_solver.
Qed.

Lemma onetoone_true `{Collaborators} db :
  onetoone db = true <->
  forall e1 e2, e1 ∈ entries db -> e2 ∈ entries db ->
    ~ same_hash_diff_id e1 e2 /\ ~ id_reads_as_hash e1 e2.
Proof.
  unfold onetoone, exists_other. rewrite not_existsb_elem. split.
  - intros Hall e1 e2 H1 H2. specialize (Hall e2 H2). simpl in Hall.
    rewrite existsb_false in Hall. specialize (Hall e1 H1).
    apply not_true_iff_false in Hall.
    rewrite holds_or, !holds_and, holds_eq, !holds_ne, holds_id_eq_hash in Hall.
    split.
    + intros (h & i1 & i2 & Hh1 & Hh2 & Hi1 & Hi2 & Hne).
      apply Hall. left. split; eauto 10.
    + intros (i & h & h' & Hi & Hh & Hh' & Hne & E).
      apply Hall. right. split; eauto 10.
  - intros Hall e2 H2. apply existsb_false.
    intros e1 H1. destruct (Hall e1 e2 H1 H2) as [Hd Hr].
    apply not_true_iff_false.
    rewrite holds_or, !holds_and, holds_eq, !holds_ne, holds_id_eq_hash.
    intros [[(h & Hh1 & Hh2) (i1 & i2 & Hi1 & Hi2 & Hne)]
           |[(n & s & Hn & Hs & E) (h1 & h2 & Hh1 & Hh2 & Hne)]].
    + apply Hd. exists h, i1, i2. auto.
    + apply Hr. exists n, s, h1. rewrite Hs in Hh2. injection Hh2 as <-. auto.
Qed.

(** C8, amended. [Entry.onetoone] answers true exactly when no two
    records share a hash while differing in id and no id compares equal
    to the hash of a record with another hash (the second comparison of
    the query sets [other.id] against [cls.hash]). Where no id compares
    equal to a hash, it answers true exactly when no two records share
    a hash while differing in id; records with different hashes and one
    id do not make it false. *)
Theorem onetoone_only_checks_ids `{Collaborators} (db : Store) :
  (onetoone db = true <->
   (forall e1 e2, e1 ∈ entries db -> e2 ∈ entries db ->
      ~ same_hash_diff_id e1 e2 /\ ~ id_reads_as_hash e1 e2)) /\
  ((forall e1 e2, e1 ∈ entries db -> e2 ∈ entries db -> ~ id_reads_as_hash e1 e2) ->
   (onetoone db = true <->
    (forall e1 e2, e1 ∈ entries db -> e2 ∈ entries db -> ~ same_hash_diff_id e1 e2))).
Proof.
  split; [apply onetoone_true|].
  intros Hno. rewrite onetoone_true. split.
  - intros Hall e1 e2 H1 H2. apply (Hall e1 e2 H1 H2).
  - intros Hall e1 e2 H1 H2. split; [apply Hall|apply Hno]; assumption.
Qed.

Ltac members H :=
  repeat (apply elem_of_cons in H as [->|H]); [..|apply elem_of_nil in H; destruct H].

Lemma onetoone_only_checks_ids_witness :
  (forall e1 e2, e1 ∈ entries shared_id_store -> e2 ∈ entries shared_id_store ->
                 ~ id_reads_as_hash (H:=sample) e1 e2) /\
  (onetoone (H:=sample) shared_id_store = true <->
   (forall e1 e2, e1 ∈ entries shared_id_store -> e2 ∈ entries shared_id_store ->
                  ~ same_hash_diff_id e1 e2)).
Proof.
  assert (Hno : forall e1 e2, e1 ∈ entries shared_id_store ->
                  e2 ∈ entries shared_id_store -> ~ id_reads_as_hash (H:=sample) e1 e2).
  { intros e1 e2 H1 H2 (i & h & h' & Hi & Hh & Hh' & Hne & E).
    simpl in H1, H2. members H1; members H2; simpl in *;
      injection Hi as <-; injection Hh as <-; vm_compute in E; discriminate. }
  split; [exact Hno|].
  apply (proj2 (onetoone_only_checks_ids (H:=sample) shared_id_store) Hno).
Defined.

(** No two records of the store share a hash, yet the check fails: id 7
    compares equal to the hash ["7"] of the other record. *)
Lemma onetoone_id_reads_as_hash :
  onetoone (H:=sample) id_as_hash_store = false /\
  (forall e1 e2, e1 ∈ entries id_as_hash_store -> e2 ∈ entries id_as_hash_store ->
                 ~ same_hash_diff_id e1 e2).
Proof.
  split; [vm_compute; reflexivity|].
  intros e1 e2 H1 H2 (h & i1 & i2 & Hh1 & Hh2 & Hi1 & Hi2 & Hne).
  simpl in H1, H2. members H1; members H2; simpl in *; congruence.
Qed.

(** On that store the check passes although one id stands for two hashes. *)
Example onetoone_shared_id :
  onetoone (H:=sample) shared_id_store = true /\
  exists e1 e2, e1 ∈ entries shared_id_store /\ e2 ∈ entries shared_id_store /\
                Entry.id e1 = Entry.id e2 /\ Entry.hash e1 <> Entry.hash e2.
Proof.
  split; [vm_compute; reflexivity|].
  eexists _, _. split; [left|]. split; [right; left|]. split; [reflexivity|].
  simpl. discriminate.
Qed.

(** ** distance *)

Lemma weight_pos k : 1 <= weight k.
Proof. unfold weight. repeat case_decide; lia. Qed.

Lemma weight_ge1 k : (1 <= inject_Z (weight k))%Q.
Proof. change 1%Q with (inject_Z 1). rewrite <- Zle_Qle. apply weight_pos. Qed.

Lemma Qsum_le (l l' : list Q) : Forall2 Qle l l' -> (Qsum l <= Qsum l')%Q.
Proof.
  induction 1 as [|x y l l' Hxy _ IH]; simpl; [apply Qle_refl|].
  apply Qplus_le_compat; assumption.
Qed.

Lemma Qsum_eq (l l' : list Q) : Forall2 Qeq l l' -> (Qsum l == Qsum l')%Q.
Proof.
  induction 1 as [|x y l l' Hxy _ IH]; simpl; [reflexivity|].
  rewrite Hxy, IH. reflexivity.
Qed.

Lemma Qsum_weights_pos (keys : list string) :
  keys <> [] -> (0 < Qsum (map (fun k => inject_Z (weight k)) keys))%Q.
Proof.
  destruct keys as [|k keys]; [congruence|]. intros _. simpl.
  assert (H0 : (0 <= Qsum (map (fun k => inject_Z (weight k)) keys))%Q).
  { induction keys as [|k' keys IH]; simpl; [apply Qle_refl|].
    pose proof (weight_ge1 k'). lra. }
  pose proof (weight_ge1 k). lra.
Qed.

(** The per-key terms of the weighted sum, for keys both maps hold. *)
Lemma ratios_bounds `{Collaborators} (A B : gmap string string) (keys : list string) :
  (forall k, k ∈ keys -> exists a b, A !! k = Some a /\ B !! k = Some b /\
                                    (0 <= ratio a b <= 1)%Q) ->
  (0 <= Qsum (map (fun k => inject_Z (weight k) * ratio (A !!! k) (B !!! k)) keys)
   <= Qsum (map (fun k => inject_Z (weight k)) keys))%Q.
Proof.
  induction keys as [|k keys IH]; simpl; intros Hk; [lra|].
  destruct (Hk k ltac:(left)) as (a & b & Ha & Hb & Hr).
  rewrite (lookup_total_correct A k a Ha), (lookup_total_correct B k b Hb).
  destruct IH as [IH1 IH2]; [intros; apply Hk; right; assumption|].
  pose proof (weight_ge1 k).
  split; nra.
Qed.

Lemma shared_keys (A B : gmap string string) k :
  k ∈ elements (dom A ∩ dom B : gset string) <->
  exists a b, A !! k = Some a /\ B !! k = Some b.
Proof.
  rewrite elem_of_elements, elem_of_intersection, !elem_of_dom.
  unfold is_Some. split.
  - intros [[a Ha] [b Hb]]. eauto.
  - intros (a & b & Ha & Hb). eauto.
Qed.

(** C6, amended. Given per-field ratios in [0, 1] that are 1 on equal
    values: the distance of a non-empty field map to itself is 0; two
    maps without a common key, not both empty, are at distance 1; and
    the distance lies in [0, 1]. Nothing is said of [distance B A]. *)
Theorem distance_laws `{Collaborators} (A B : gmap string string) :
  ratio_in_range A B ->
  (A <> ∅ -> A = B -> (distance A B == 0)%Q) /\
  (~ (A = ∅ /\ B = ∅) -> dom A ∩ dom B = (∅ : gset string) -> (distance A B == 1)%Q) /\
  (0 <= distance A B <= 1)%Q.
Proof.
  intros Hr. unfold distance.
  repeat split.
  - intros Hne <-. case_bool_decide; [contradiction|]. simpl.
    destruct (elements (dom A ∩ dom A)) as [|k0 keys] eqn:Ek.
    { exfalso. apply Hne. apply elements_empty_inv in Ek.
      apply dom_empty_iff_L. set_solver. }
    rewrite <- Ek. clear Ek.
    assert (Hk : forall k, k ∈ elements (dom A ∩ dom A : gset string) ->
              exists a, A !! k = Some a).
    { intros k Hk. apply shared_keys in Hk as (a & _ & Ha & _). eauto. }
    assert (E : (Qsum (map (fun k => inject_Z (weight k) * ratio (A !!! k) (A !!! k))
                        (elements (dom A ∩ dom A : gset string)))
                 == Qsum (map (fun k => inject_Z (weight k))
                        (elements (dom A ∩ dom A : gset string))))%Q).
    { apply Qsum_eq. revert Hk. generalize (elements (dom A ∩ dom A : gset string)).
      intros l. induction l as [|k l IH]; simpl; intros Hk; constructor.
      - destruct (Hk k ltac:(left)) as (a & Ha).
        rewrite (lookup_total_correct A k a Ha).
        destruct (Hr k a a Ha Ha) as [_ E1]. rewrite (E1 eq_refl). ring.
      - apply IH. intros; apply Hk; right; assumption. }
    rewrite E. 
    assert (Hp : (0 < Qsum (map (fun k => inject_Z (weight k))
                        (elements (dom A ∩ dom A : gset string))))%Q).
    { apply Qsum_weights_pos. intros E0. apply elements_empty_inv in E0.
      apply Hne, dom_empty_iff_L. set_solver. }
    field. lra.
  - intros Hne Hd. rewrite Hd, elements_empty.
    destruct (bool_decide (A = ∅) && bool_decide (B = ∅)) eqn:E; [|reflexivity].
    exfalso. apply andb_true_iff in E as [E1 E2].
    apply bool_decide_eq_true in E1, E2. tauto.
  - destruct (bool_decide (A = ∅) && bool_decide (B = ∅)); [lra|].
    destruct (elements (dom A ∩ dom B)) as [|k0 keys] eqn:Ek; [lra|].
    rewrite <- Ek.
    assert (Hne : elements (dom A ∩ dom B : gset string) <> []) by (rewrite Ek; discriminate).
    clear Ek. pose proof (Qsum_weights_pos _ Hne) as Hp.
    destruct (ratios_bounds A B (elements (dom A ∩ dom B : gset string))) as [H1 H2].
    { intros k Hk. apply shared_keys in Hk as (a & b & Ha & Hb).
      exists a, b. repeat split; try assumption; apply (Hr k a b Ha Hb). }
    assert (Hd : (Qsum (map (fun k => inject_Z (weight k) * ratio (A !!! k) (B !!! k))
                        (elements (dom A ∩ dom B : gset string)))
                  / Qsum (map (fun k => inject_Z (weight k))
                        (elements (dom A ∩ dom B : gset string))) <= 1)%Q).
    { apply Qle_shift_div_r; [exact Hp|]. lra. }
    lra.
  - destruct (bool_decide (A = ∅) && bool_decide (B = ∅)); [lra|].
    destruct (elements (dom A ∩ dom B)) as [|k0 keys] eqn:Ek; [lra|].
    rewrite <- Ek.
    assert (Hne : elements (dom A ∩ dom B : gset string) <> []) by (rewrite Ek; discriminate).
    clear Ek. pose proof (Qsum_weights_pos _ Hne) as Hp.
    destruct (ratios_bounds A B (elements (dom A ∩ dom B : gset string))) as [H1 H2].
    { intros k Hk. apply shared_keys in Hk as (a & b & Ha & Hb).
      exists a, b. repeat split; try assumption; apply (Hr k a b Ha Hb). }
    assert (Hd : (0 <= Qsum (map (fun k => inject_Z (weight k) * ratio (A !!! k) (B !!! k))
                        (elements (dom A ∩ dom B : gset string)))
                  / Qsum (map (fun k => inject_Z (weight k))
                        (elements (dom A ∩ dom B : gset string))))%Q).
    { apply Qle_shift_div_l; [exact Hp|]. lra. }
    lra.
Qed.

Lemma distance_not_symmetric :
  ~ (distance (H:=sample) tide diet == distance (H:=sample) diet tide)%Q.
Proof. vm_compute. discriminate. Qed.

Lemma distance_laws_witness :
  ratio_in_range (H:=sample) tide diet /\
  (tide <> ∅ -> tide = diet -> (distance (H:=sample) tide diet == 0)%Q) /\
  (~ (tide = ∅ /\ diet = ∅) -> dom tide ∩ dom diet = (∅ : gset string) ->
   (distance (H:=sample) tide diet == 1)%Q) /\
  (0 <= distance (H:=sample) tide diet <= 1)%Q.
Proof.
  assert (Hr : ratio_in_range (H:=sample) tide diet).
  { intros k a b Ha Hb. unfold tide, diet in *.
    apply lookup_singleton_Some in Ha as [_ <-].
    apply lookup_singleton_Some in Hb as [_ <-].
    split; [vm_compute; split; discriminate|discriminate]. }
  split; [exact Hr|]. apply (distance_laws (H:=sample) tide diet Hr).
Defined.

(** ** Exportable.trickle *)

(** C7, amended. On a store that is not up to date with the bibfiles
    (the names, sizes and modification times on disk are not those
    recorded) [trickle] raises and leaves every bibfile as it was; it
    has no way to write the store. What it raises is the staleness
    error when every record has an id, and the error of the all-ids
    assertion, which comes first, when some record has none. *)
Theorem trickle_outdated (db : Store) (bibfiles : list BibFile.t) :
  ondisk bibfiles <> indb db ->
  (trickle db bibfiles).1 = bibfiles /\
  (exists e, (trickle db bibfiles).2 = Raise e) /\
  (allid db = true ->
   (trickle db bibfiles).2 = Raise (RuntimeError "trickle with an outdated db")) /\
  (allid db = false -> (trickle db bibfiles).2 = Raise AssertionError).
Proof.
  intros Hstale. unfold trickle, is_uptodate, same_as.
  rewrite (bool_decide_eq_false_2 _ Hstale).
  destruct (allid db); simpl; repeat split; eauto; discriminate.
Qed.

Lemma trickle_outdated_witness :
  ondisk grown_bibfiles <> indb stale_store /\
  (trickle stale_store grown_bibfiles).1 = grown_bibfiles /\
  (exists e, (trickle stale_store grown_bibfiles).2 = Raise e) /\
  (allid stale_store = true ->
   (trickle stale_store grown_bibfiles).2
   = Raise (RuntimeError "trickle with an outdated db")) /\
  (allid stale_store = false ->
   (trickle stale_store grown_bibfiles).2 = Raise AssertionError).
Proof.
  assert (Hstale : ondisk grown_bibfiles <> indb stale_store).
  { intros E. apply (f_equal (fun m => m !! "a.bib")) in E.
    vm_compute in E. discriminate. }
  split; [exact Hstale|]. apply (trickle_outdated stale_store grown_bibfiles Hstale).
Defined.

(** A stale store with a record that has no id yet: the all-ids
    assertion is what fails, not the staleness test, again with the
    bibfiles untouched. *)
Lemma trickle_stale_without_ids :
  ondisk grown_bibfiles <> indb bare_store /\
  trickle bare_store grown_bibfiles = (grown_bibfiles, Raise AssertionError).
Proof.
  split; [|vm_compute; reflexivity].
  intros E. apply (f_equal (fun m => m !! "a.bib")) in E.
  vm_compute in E. discriminate.
Qed.

(** With the file as it was at import, the new id is written. *)
Example trickle_uptodate :
  trickle stale_store
    [BibFile.mk "a.bib" 10 100 1 [BibEntry.mk "k1" "book" [(REF_ID_FIELD, "3")]]]
  = ([BibFile.mk "a.bib" 10 100 1 [BibEntry.mk "k1" "book" [(REF_ID_FIELD, "4")]]],
     Ok tt).
Proof. vm_compute. reflexivity. Qed.

(** ** The exception monad *)

Lemma bind_Ok {A B} (m : result A) (k : A -> result B) (b : B) :
  m ≫= k = Ok b <-> exists a, m = Ok a /\ k a = Ok b.
Proof.
  destruct m as [a|e]; simpl; split.
  - intros E. exists a. auto.
  - intros (a' & [= <-] & E). exact E.
  - discriminate.
  - intros (a' & [=] & _).
Qed.

Lemma assert_Ok (b : bool) (u : unit) : assert b = Ok u <-> b = true.
Proof. destruct b, u; simpl; split; congruence. Qed.

(** ** import_bibfiles *)

Lemma extends_refl db : extends db db.
Proof. repeat split; exists []; rewrite app_nil_r; reflexivity. Qed.

Lemma extends_trans db1 db2 db3 : extends db1 db2 -> extends db2 db3 -> extends db1 db3.
Proof.
  intros ([f1 E1] & [e1 E2] & [v1 E3]) ([f2 E4] & [e2 E5] & [v2 E6]).
  repeat split; eexists.
  - rewrite E4, E1, <- app_assoc. reflexivity.
  - rewrite E5, E2, <- app_assoc. reflexivity.
  - rewrite E6, E3, <- app_assoc. reflexivity.
Qed.

Lemma insert_values_Ok db vs db' :
  foldM insert_value db vs = Ok db' ->
  files db' = files db /\ entries db' = entries db /\ values db' = (values db ++ vs)%list.
Proof.
  revert db. induction vs as [|v vs IH]; simpl; intros db E.
  - injection E as <-. rewrite app_nil_r. auto.
  - apply bind_Ok in E as (db1 & E1 & E2). unfold insert_value in E1.
    destruct (_ || _) in E1; [discriminate|]. injection E1 as <-.
    apply IH in E2 as (-> & -> & ->). simpl. rewrite <- app_assoc. auto.
Qed.

Lemma import_entry_Ok `{Collaborators} file_pk db e db' :
  import_entry file_pk db e = Ok db' ->
  exists entry_pk,
    files db' = files db /\
    entries db' = (entries db ++ [entry_row entry_pk file_pk e])%list /\
    values db' = (values db ++ value_rows entry_pk e)%list.
Proof.
  unfold import_entry. intros E. apply bind_Ok in E as ([entry_pk db1] & E1 & E2).
  unfold insert_entry in E1. destruct (_ || _) in E1; [discriminate|].
  injection E1 as <- <-. apply insert_values_Ok in E2 as (-> & -> & ->).
  eexists. simpl. repeat split; reflexivity.
Qed.

Lemma import_entries_Ok `{Collaborators} file_pk db es db' :
  foldM (import_entry file_pk) db es = Ok db' ->
  extends db db' /\
  forall e, e ∈ es -> exists entry_pk,
    entry_row entry_pk file_pk e ∈ entries db' /\
    forall v, v ∈ value_rows entry_pk e -> v ∈ values db'.
Proof.
  revert db. induction es as [|e es IH]; simpl; intros db E.
  - injection E as <-. split; [apply extends_refl|]. intros e He. inversion He.
  - apply bind_Ok in E as (db1 & E1 & E2).
    apply import_entry_Ok in E1 as (entry_pk & Ef & Ee & Ev).
    apply IH in E2 as [Hext Hes].
    assert (Hext1 : extends db db1).
    { repeat split; eexists; [rewrite Ef, app_nil_r|exact Ee|exact Ev]; reflexivity. }
    split; [eapply extends_trans; eassumption|].
    intros e' He'. apply elem_of_cons in He' as [->|He']; [|apply Hes, He'].
    exists entry_pk. destruct Hext as (_ & [es' Ees] & [vs' Evs]). split.
    + rewrite Ees, Ee. apply elem_of_app. left. apply elem_of_app. right. left.
    + intros v Hv. rewrite Evs, Ev. apply elem_of_app. left. apply elem_of_app. right.
      exact Hv.
Qed.

Lemma imported_extends `{Collaborators} db db' b e :
  extends db db' -> imported db b e -> imported db' b e.
Proof.
  intros ([fs Ef] & [es Ee] & [vs Ev]) (f & r & Hf & Hn & Hr & Hrow & Ht & Hv).
  exists f, r. rewrite Ef, Ee, Ev. repeat split; try assumption.
  - apply elem_of_app. left. exact Hf.
  - apply elem_of_app. left. exact Hr.
  - apply elem_of_app. left. exact Ht.
  - intros field value Hfv. apply elem_of_app. left. apply Hv, Hfv.
Qed.

Lemma import_bibfile_Ok `{Collaborators} db b db' :
  import_bibfile db b = Ok db' ->
  extends db db' /\ forall e, e ∈ BibFile.iterentries b -> imported db' b e.
Proof.
  unfold import_bibfile. intros E. apply bind_Ok in E as ([file_pk db1] & E1 & E2).
  unfold insert_file in E1. destruct (_ || _) in E1; [discriminate|].
  injection E1 as <- <-. apply import_entries_Ok in E2 as [Hext Hes].
  split.
  - eapply extends_trans; [|exact Hext].
    repeat split; eexists; simpl; [reflexivity|rewrite app_nil_r..]; reflexivity.
  - intros e He. destruct (Hes e He) as (entry_pk & Hr & Hv).
    eexists _, (entry_row entry_pk _ e). repeat split.
    + destruct Hext as ([fs Ef] & _). rewrite Ef. simpl.
      apply elem_of_app. left. apply elem_of_app. right. left.
    + reflexivity.
    + exact Hr.
    + apply Hv. left.
    + intros field value Hfv. apply Hv. right.
      apply (list_elem_of_fmap_2 (fun '(field, value) => Value.mk entry_pk field value)
               _ (field, value)), Hfv.
Qed.

(** C4, amended. For every imported record the prior identifier is read
    out of the field map onto the record row, the type tag is stored as
    a field value under ENTRYTYPE, and every item of the field map, the
    prior identifier field included, is stored as a field value under
    its own name. *)
Theorem import_bibfiles_rows `{Collaborators} (db : Store) (bibfiles : list BibFile.t)
    (db' : Store) :
  import_bibfiles db bibfiles = Ok db' ->
  forall b e, b ∈ bibfiles -> e ∈ BibFile.iterentries b -> imported db' b e.
Proof.
  unfold import_bibfiles. revert db.
  induction bibfiles as [|b0 bibfiles IH]; simpl; intros db E b e Hb He.
  - inversion Hb.
  - apply bind_Ok in E as (db1 & E1 & E2).
    apply import_bibfile_Ok in E1 as [_ Hes].
    apply elem_of_cons in Hb as [->|Hb]; [|eapply IH; eassumption].
    assert (Hext : extends db1 db').
    { clear -E2. revert db1 E2. induction bibfiles as [|b bibfiles IH]; simpl; intros db1 E.
      - injection E as <-. apply extends_refl.
      - apply bind_Ok in E as (db2 & E1 & E2). apply import_bibfile_Ok in E1 as [Hx _].
        eapply extends_trans; [exact Hx|apply IH, E2]. }
    eapply imported_extends; [exact Hext|apply Hes, He].
Qed.

Lemma import_grammar :
  import_bibfiles (H:=sample) empty_store [grammar_bibfile] = Ok grammar_store.
Proof. vm_compute. reflexivity. Qed.

(** The prior identifier field is among the stored field values. *)
Lemma import_keeps_ref_id_field :
  exists db', import_bibfiles (H:=sample) empty_store [grammar_bibfile] = Ok db' /\
              exists v, v ∈ values db' /\ Value.field v = REF_ID_FIELD.
Proof.
  exists grammar_store. split; [apply import_grammar|].
  exists (Value.mk 1 REF_ID_FIELD "3"). split; [|reflexivity].
  simpl. right. right. left.
Qed.

Lemma import_bibfiles_rows_witness :
  import_bibfiles (H:=sample) empty_store [grammar_bibfile] = Ok grammar_store /\
  forall b e, b ∈ [grammar_bibfile] -> e ∈ BibFile.iterentries b ->
              imported (H:=sample) grammar_store b e.
Proof.
  split; [apply import_grammar|].
  apply (import_bibfiles_rows (H:=sample) empty_store [grammar_bibfile] grammar_store).
  vm_compute. reflexivity.
Defined.

(** ** Stage 5: new ids *)

Lemma foldl_max_ge (x : Z) (l : list Z) :
  x <= foldl Z.max x l /\ forall y, y ∈ l -> y <= foldl Z.max x l.
Proof.
  revert x. induction l as [|z l IH]; simpl; intros x.
  - split; [lia|]. intros y Hy. inversion Hy.
  - destruct (IH (Z.max x z)) as [H1 H2]. split; [lia|].
    intros y Hy. apply elem_of_cons in Hy as [->|Hy]; [lia|apply H2, Hy].
Qed.

Lemma sql_max_ge (l : list (option Z)) (r : Z) :
  Some r ∈ l -> exists m, sql_max l = Some m /\ r <= m.
Proof.
  intros Hr. unfold sql_max.
  assert (Hin : r ∈ omap (fun x => x) l).
  { apply list_elem_of_omap. exists (Some r). auto. }
  destruct (omap (fun x => x) l) as [|x xs]; [inversion Hin|].
  eexists. split; [reflexivity|].
  destruct (foldl_max_ge x xs) as [H1 H2].
  apply elem_of_cons in Hin as [->|Hin]; [exact H1|apply H2, Hin].
Qed.

Lemma select_nextid_gt (db : Store) e r :
  e ∈ entries db -> Entry.refid e = Some r -> r < select_nextid db.
Proof.
  intros He Hr. unfold select_nextid.
  destruct (sql_max_ge (map Entry.refid (entries db)) r) as (m & -> & Hm).
  - rewrite <- Hr. apply list_elem_of_fmap_2, He.
  - simpl. lia.
Qed.

Lemma enumerate_lookup {A} (l : list A) (start : Z) (k : nat) :
  enumerate l start !! k = (fun x => (start + Z.of_nat k, x)) <$> l !! k.
Proof.
  revert start k. induction l as [|x l IH]; intros start [|k]; simpl; try reflexivity.
  - rewrite Z.add_0_r. reflexivity.
  - rewrite IH. destruct (l !! k); simpl; [|reflexivity].
    do 2 f_equal. lia.
Qed.

Lemma enumerate_snd {A} (l : list A) (start : Z) : map snd (enumerate l start) = l.
Proof.
  revert start. induction l as [|x l IH]; intros start; simpl; [reflexivity|].
  rewrite IH. reflexivity.
Qed.


Lemma cmp_text_eq (x y : option string) : cmp_text x y = Eq -> x = y.
Proof.
  destruct x as [a|], y as [b|]; simpl; try discriminate; try reflexivity.
  intros E. apply String.compare_eq_iff in E. congruence.
Qed.


Lemma select_new_NoDup (db : Store) : NoDup (select_new db).
Proof. unfold select_new. rewrite order_by_perm. apply unique_NoDup. Qed.

Lemma select_new_elem (db : Store) h :
  h ∈ select_new db <->
  exists e, e ∈ entries db /\ Entry.id e = None /\ Entry.hash e = h.
Proof.
  unfold select_new. rewrite order_by_elem, unique_elem, list_elem_of_fmap. split.
  - intros (e & -> & He). apply list_elem_of_filter in He as [Hn He].
    apply is_null_true in Hn. eauto.
  - intros (e & He & Hn & <-). exists e. split; [reflexivity|].
    apply list_elem_of_filter. split; [apply is_null_true, Hn|exact He].
Qed.

Lemma update_new_entries params db :
  entries (update_new params db) = map (update_new_row params) (entries db).
Proof.
  unfold update_new, update_new_row. revert db.
  induction params as [|[i h] params IH]; intros db; simpl.
  - rewrite map_id. reflexivity.
  - rewrite IH. unfold update_where. simpl. rewrite map_map. reflexivity.
Qed.

Lemma update_new_row_hash params e :
  Entry.hash (update_new_row params e) = Entry.hash e.
Proof.
  unfold update_new_row. revert e.
  induction params as [|[i h] params IH]; intros e; simpl; [reflexivity|].
  rewrite IH. destruct (holds _); reflexivity.
Qed.

Lemma update_new_row_other params e :
  (forall i, (i, Entry.hash e) ∉ params) -> update_new_row params e = e.
Proof.
  unfold update_new_row. revert e.
  induction params as [|[i h] params IH]; intros e Hno; simpl; [reflexivity|].
  destruct (holds (sql_eq (Entry.hash e) h)) eqn:E.
  - apply holds_eq in E as (a & Ha & ->). exfalso.
    apply (Hno i). rewrite Ha. left.
  - apply IH. intros j Hj. apply (Hno j). right. exact Hj.
Qed.

Lemma update_new_row_id params e i h :
  NoDup (map snd params) -> (i, Some h) ∈ params -> Entry.hash e = Some h ->
  Entry.id (update_new_row params e) = Some i.
Proof.
  revert e. induction params as [|[j h'] params IH]; intros e Hnd Hin Hh.
  - inversion Hin.
  - simpl in Hnd. apply NoDup_cons in Hnd as [Hnotin Hnd].
    apply elem_of_cons in Hin as [[= <- <-]|Hin].
    + change (Entry.id (update_new_row params
                (if holds (sql_eq (Entry.hash e) (Some h))
                 then Entry.set_id (Some i) e else e)) = Some i).
      assert (E : holds (sql_eq (Entry.hash e) (Some h)) = true)
        by (apply holds_eq; eauto).
      rewrite E. rewrite update_new_row_other; [reflexivity|].
      intros j Hj. apply Hnotin. simpl in Hj. rewrite Hh in Hj.
      apply (list_elem_of_fmap_2 snd) in Hj. exact Hj.
    + change (Entry.id (update_new_row params
                (if holds (sql_eq (Entry.hash e) h')
                 then Entry.set_id (Some j) e else e)) = Some i).
      destruct (holds (sql_eq (Entry.hash e) h')) eqn:E.
      * apply holds_eq in E as (a & Ha & ->). exfalso. apply Hnotin.
        rewrite Hh in Ha. injection Ha as <-.
        apply (list_elem_of_fmap_2 snd) in Hin. exact Hin.
      * apply IH; assumption.
Qed.


Example new_params_unminted :
  new_params unminted_store
  = [(10, Some "jones_dictionary2001"); (11, Some "smith_grammar1999")] /\
  map Entry.id (entries (assign_new unminted_store))
  = [Some 11; Some 10; Some 9].
Proof. vm_compute. split; reflexivity. Qed.


(** ** Loops *)

(** An invariant of the store carries through a loop that ends normally. *)
Lemma foldM_invariant {A S} (P : S -> Prop) (f : S -> A -> result S) (l : list A) s s' :
  P s ->
  (forall s x s', x ∈ l -> P s -> f s x = Ok s' -> P s') ->
  foldM f s l = Ok s' -> P s'.
Proof.
  revert s. induction l as [|x l IH]; simpl; intros s Hs Hstep E.
  - injection E as <-. exact Hs.
  - apply bind_Ok in E as (s1 & E1 & E2).
    apply (IH s1); [|intros; eapply Hstep; try eassumption; right; assumption|exact E2].
    eapply Hstep; [left|exact Hs|exact E1].
Qed.

(** ** itertools.groupby *)

Lemma groupby_group {A K} `{EqDecision K} (key : A -> K) (l : list A) k g :
  (k, g) ∈ groupby key l -> g <> [] /\ forall x, x ∈ g -> x ∈ l /\ key x = k.
Proof.
  revert k g. induction l as [|x l IH]; simpl; intros k g Hin.
  - inversion Hin.
  - destruct (groupby key l) as [|[k0 g0] rest] eqn:E.
    + apply list_elem_of_singleton in Hin. injection Hin as -> ->.
      split; [discriminate|]. intros y Hy. apply list_elem_of_singleton in Hy as ->.
      split; [left|reflexivity].
    + destruct (decide (key x = k0)) as [Hk|Hk].
      * apply elem_of_cons in Hin as [[= -> ->]|Hin].
        -- split; [discriminate|]. intros y Hy.
           apply elem_of_cons in Hy as [->|Hy]; [split; [left|exact Hk]|].
           destruct (IH k0 g0 ltac:(left)) as [_ Hg]. destruct (Hg y Hy).
           split; [right|]; assumption.
        -- destruct (IH k g ltac:(right; exact Hin)) as [Hne Hg].
           split; [exact Hne|]. intros y Hy. destruct (Hg y Hy).
           split; [right|]; assumption.
      * apply elem_of_cons in Hin as [[= -> ->]|Hin].
        -- split; [discriminate|]. intros y Hy. apply list_elem_of_singleton in Hy as ->.
           split; [left|reflexivity].
        -- destruct (IH k g Hin) as [Hne Hg].
           split; [exact Hne|]. intros y Hy. destruct (Hg y Hy).
           split; [right|]; assumption.
Qed.

(** ** generate_hashes *)

Lemma select_bfv_row db first last r :
  r ∈ select_bfv db first last ->
  exists v, v ∈ values db /\ Value.entry_pk v = r.1.1 /\ Value.field v <> ENTRYTYPE.
Proof.
  unfold select_bfv. rewrite order_by_elem. intros Hr.
  apply list_elem_of_bind in Hr as (v & Hr & Hv).
  apply list_elem_of_bind in Hr as (e & Hr & He).
  apply list_elem_of_filter in He as [Hpk He].
  destruct (_ && _) eqn:E in Hr; [|inversion Hr].
  apply list_elem_of_singleton in Hr as ->. simpl.
  apply andb_true_iff in E as [_ E]. apply negb_true_iff, bool_decide_eq_false in E.
  exists v. auto.
Qed.

Lemma update_entry_Ok db hash entry_pk db' :
  update_entry db hash entry_pk = Ok db' ->
  values db' = values db /\
  forall e, e ∈ entries db -> Entry.pk e <> entry_pk -> e ∈ entries db'.
Proof.
  unfold update_entry. destruct (_ && _); [discriminate|]. intros [= <-].
  split; [reflexivity|]. intros e He Hne. simpl.
  apply list_elem_of_fmap. exists e. split; [|exact He].
  rewrite bool_decide_eq_false_2 by exact Hne. reflexivity.
Qed.

Lemma hash_window_keeps `{Collaborators} words db w db' e :
  only_type_tag db e -> e ∈ entries db ->
  hash_window words db w = Ok db' ->
  values db' = values db /\ e ∈ entries db'.
Proof.
  intros Honly He E. unfold hash_window in E.
  apply (foldM_invariant (fun s => values s = values db /\ e ∈ entries s) _ _ _ _
           (conj eq_refl He)) in E; [exact E|].
  intros s [entry_pk grp] s' Hin [Hv Hes] Hupd.
  apply update_entry_Ok in Hupd as [Hv' Hkeep]. split; [congruence|].
  apply Hkeep; [exact Hes|]. intros Hpk.
  apply groupby_group in Hin as [Hne Hg].
  destruct grp as [|r grp]; [congruence|].
  destruct (Hg r ltac:(left)) as [Hr Hk].
  apply select_bfv_row in Hr as (v & Hv0 & Hvpk & Hfield).
  apply Hfield, (Honly v Hv0). congruence.
Qed.

(** C9. A record whose only field value is its type tag gives no row in
    the hashing query and comes out of [generate_hashes] as it went in;
    if it had no hash, [assign_ids] then fails on its first assertion. *)
Theorem type_tag_only_record_gets_no_hash `{Collaborators} (db db' : Store) (e : Entry.t) :
  e ∈ entries db -> only_type_tag db e ->
  generate_hashes db = Ok db' ->
  (forall first last r, r ∈ select_bfv db first last -> r.1.1 <> Entry.pk e) /\
  e ∈ entries db' /\
  (Entry.hash e = None -> assign_ids db' = Raise AssertionError).
Proof.
  intros He Honly E. split; [|].
  { intros first last r Hr Hpk. apply select_bfv_row in Hr as (v & Hv & Hvpk & Hfield).
    apply Hfield, (Honly v Hv). congruence. }
  assert (Hkeep : values db' = values db /\ e ∈ entries db').
  { unfold generate_hashes in E.
    apply (foldM_invariant (fun s => values s = values db /\ e ∈ entries s) _ _ _ _
             (conj eq_refl He)) in E; [exact E|].
    intros s w s' _ [Hv Hes] Hw.
    apply (hash_window_keeps _ s w s' e) in Hw as [Hv' He']; [split; congruence| |exact Hes].
    unfold only_type_tag. rewrite Hv. exact Honly. }
  destruct Hkeep as [_ He']. split; [exact He'|].
  intros Hnull. unfold assign_ids.
  assert (Hall : allhash db' = false).
  { apply not_true_iff_false. intros Hall. rewrite allhash_true in Hall.
    destruct (Hall e He') as (h & Hh). congruence. }
  rewrite Hall. reflexivity.
Qed.

Example import_bare :
  import_bibfiles (H:=sample) empty_store
    [BibFile.mk "a.bib" 10 100 1
       [BibEntry.mk "k1" "book" [];
        BibEntry.mk "k2" "book"
          [("author", "Smith"); ("title", "Grammar"); ("year", "1999")]]]
  = Ok bare_store.
Proof. vm_compute. reflexivity. Qed.

Lemma generate_hashes_bare :
  generate_hashes (H:=sample) bare_store = Ok half_hashed_store.
Proof. vm_compute. reflexivity. Qed.

Lemma type_tag_only_record_gets_no_hash_witness :
  (forall first last r, r ∈ select_bfv bare_store first last ->
                        r.1.1 <> Entry.pk bare_entry) /\
  bare_entry ∈ entries half_hashed_store /\
  (Entry.hash bare_entry = None ->
   assign_ids (H:=sample) half_hashed_store = Raise AssertionError).
Proof.
  apply (type_tag_only_record_gets_no_hash (H:=sample) bare_store half_hashed_store
           bare_entry).
  - left.
  - intros v Hv Hpk. simpl in Hv. members Hv; simpl in *; try reflexivity; discriminate.
  - apply generate_hashes_bare.
Defined.

(** ** More on itertools.groupby *)

Section GroupBy.
Context {A K : Type} `{EqDecision K} (key : A -> K).

Lemma groupby_concat (l : list A) : mjoin (map snd (groupby key l)) = l.
Proof.
  induction l as [|x l IH]; simpl; [reflexivity|].
  destruct (groupby key l) as [|[k g] rest]; simpl in *.
  - rewrite <- IH. reflexivity.
  - destruct (decide (key x = k)); simpl; rewrite <- IH; reflexivity.
Qed.

Lemma groupby_nil_inv (l : list A) : groupby key l = [] -> l = [].
Proof. intros E. rewrite <- (groupby_concat l), E. reflexivity. Qed.

Lemma groupby_key_elem (l : list A) x :
  x ∈ l -> exists g, (key x, g) ∈ groupby key l /\ x ∈ g.
Proof.
  intros Hx. pose proof (groupby_concat l) as E. rewrite <- E in Hx.
  apply list_elem_of_join in Hx as (g & Hxg & Hg).
  apply list_elem_of_fmap in Hg as ([k g'] & -> & Hg). simpl in Hxg.
  destruct (groupby_group key l k g' Hg) as [_ Hk].
  destruct (Hk x Hxg) as [_ <-]. eauto.
Qed.

Context (kcmp : K -> K -> comparison) `{!LawfulCmp kcmp}.

Lemma groupby_sorted (l : list A) :
  sorted_by (fun x y => kcmp (key x) (key y)) l ->
  (forall x y, x ∈ l -> y ∈ l -> kcmp (key x) (key y) = Eq -> key x = key y) ->
  StronglySorted (fun p q => kcmp p.1 q.1 = Lt) (groupby key l) /\
  forall k g, (k, g) ∈ groupby key l -> g = filter (fun x => key x = k) l.
Proof.
  unfold sorted_by. induction 1 as [|x l Hs IH Hx]; intros Heq; simpl.
  - split; [constructor|]. intros k g Hin. inversion Hin.
  - destruct IH as [IHs IHg];
      [intros y z Hy Hz; apply Heq; right; assumption|].
    rewrite Forall_forall in Hx.
    assert (Hkeys : forall k g, (k, g) ∈ groupby key l ->
              exists y, y ∈ l /\ key y = k).
    { intros k g Hin. destruct (groupby_group key l k g Hin) as [Hne Hg].
      destruct g as [|y g]; [congruence|]. exists y. apply Hg. left. }
    destruct (groupby key l) as [|[k0 g0] rest] eqn:E.
    { apply groupby_nil_inv in E. subst l. split; [repeat constructor|].
      intros k g Hin. apply list_elem_of_singleton in Hin. injection Hin as -> ->.
      rewrite filter_cons, filter_nil. destruct (decide (key x = key x)); congruence. }
    apply StronglySorted_cons in IHs as [Hk0 Hrest].
    destruct (decide (key x = k0)) as [Hk|Hk].
    + split.
      * apply StronglySorted_cons. split; [|exact Hrest].
        eapply Forall_impl; [exact Hk0|]. auto.
      * intros k g Hin. rewrite filter_cons.
        apply elem_of_cons in Hin as [[= -> ->]|Hin].
        -- destruct (decide (key x = k0)); [|contradiction].
           f_equal. apply IHg. left.
        -- rewrite Forall_forall in Hk0. specialize (Hk0 _ Hin). simpl in Hk0.
           destruct (decide (key x = k)) as [Hxk|_]; [|apply IHg; right; exact Hin].
           rewrite <- Hxk, Hk, (cmp_refl kcmp) in Hk0. discriminate.
    + assert (Hlt0 : kcmp (key x) k0 = Lt).
      { destruct (Hkeys k0 g0 ltac:(left)) as (y0 & Hy0 & Hky0).
        pose proof (Hx y0 Hy0) as Hle. rewrite Hky0 in Hle.
        destruct (kcmp (key x) k0) eqn:Ec; [|reflexivity|congruence].
        exfalso. apply Hk. rewrite <- Hky0. apply Heq; [left|right; exact Hy0|].
        rewrite Hky0. exact Ec. }
      assert (Hlt : forall k g, (k, g) ∈ (k0, g0) :: rest -> kcmp (key x) k = Lt).
      { intros k g Hin. apply elem_of_cons in Hin as [[= -> ->]|Hin]; [exact Hlt0|].
        rewrite Forall_forall in Hk0. specialize (Hk0 _ Hin). simpl in Hk0.
        apply (cmp_lt_le_trans kcmp _ k0); [exact Hlt0|congruence]. }
      split.
      * apply StronglySorted_cons. split.
        -- apply Forall_forall. intros [k g] Hin. simpl. eapply Hlt, Hin.
        -- apply StronglySorted_cons. split; assumption.
      * intros k g Hin. rewrite filter_cons.
        apply elem_of_cons in Hin as [[= -> ->]|Hin].
        -- destruct (decide (key x = key x)); [|congruence]. f_equal.
           destruct (filter (fun y => key y = key x) l) as [|y ys] eqn:Ef; [reflexivity|].
           exfalso. assert (Hy : y ∈ filter (fun y => key y = key x) l)
             by (rewrite Ef; left).
           apply list_elem_of_filter in Hy as [Hky Hy].
           destruct (groupby_key_elem l y Hy) as (g & Hg & _).
           rewrite E in Hg. pose proof (Hlt _ _ Hg) as Hc.
           rewrite Hky, (cmp_refl kcmp) in Hc. discriminate.
        -- pose proof (Hlt _ _ Hin) as Hc.
           destruct (decide (key x = k)) as [Hxk|_]; [|apply IHg, Hin].
           rewrite Hxk, (cmp_refl kcmp) in Hc. discriminate.
Qed.

(** The keys of the groups of a sorted result are pairwise different. *)
Lemma groupby_sorted_NoDup (l : list A) :
  sorted_by (fun x y => kcmp (key x) (key y)) l ->
  (forall x y, x ∈ l -> y ∈ l -> kcmp (key x) (key y) = Eq -> key x = key y) ->
  NoDup (map fst (groupby key l)).
Proof.
  intros Hs Heq. destruct (groupby_sorted l Hs Heq) as [Hg _].
  induction Hg as [|p G HG IH Hp]; simpl; constructor; [|exact IH].
  intros Hin. apply list_elem_of_fmap in Hin as (q & Hq & Hin).
  rewrite Forall_forall in Hp. specialize (Hp q Hin).
  rewrite Hq, (cmp_refl kcmp) in Hp. discriminate.
Qed.
End GroupBy.

(** ** partitions *)

Lemma partitions_go_spec {A} (size : nat) (fuel : nat) (l : list A) :
  (0 < size)%nat -> (length l < fuel)%nat ->
  mjoin (partitions_go fuel size l) = l /\
  Forall (fun chunk => chunk <> [] /\ (length chunk <= size)%nat)
         (partitions_go fuel size l).
Proof.
  intros Hsize. revert l. induction fuel as [|fuel IH]; intros l Hlen; [lia|].
  simpl. destruct (take size l) as [|x chunk] eqn:E.
  - destruct l as [|y l]; [split; [reflexivity|constructor]|].
    destruct size; [lia|]. simpl in E. discriminate.
  - assert (Hl : l <> []) by (intros ->; rewrite take_nil in E; discriminate).
    assert (Hd : (length (drop size l) < fuel)%nat).
    { rewrite length_drop. destruct l; [congruence|]. simpl in *. lia. }
    destruct (IH (drop size l) Hd) as [IH1 IH2]. split.
    + rewrite <- E.
      change ((take size l ++ mjoin (partitions_go fuel size (drop size l)))%list = l).
      rewrite IH1. apply take_drop.
    + constructor; [|exact IH2]. split; [discriminate|].
      rewrite <- E, length_take. lia.
Qed.

Lemma partitions_spec {A} (size : nat) (l : list A) :
  (0 < size)%nat ->
  mjoin (partitions size l) = l /\
  Forall (fun chunk => chunk <> [] /\ (length chunk <= size)%nat) (partitions size l).
Proof. intros Hsize. apply partitions_go_spec; [exact Hsize|lia]. Qed.

(** ** Entry.windowed *)

Lemma sorted_NoDup_strict {A} (cmp : A -> A -> comparison) (l : list A) :
  (forall x y, cmp x y = Eq -> x = y) ->
  sorted_by cmp l -> NoDup l -> StronglySorted (fun x y => cmp x y = Lt) l.
Proof.
  intros Heq. unfold sorted_by. induction 1 as [|x l Hs IH Hx]; intros Hnd; constructor.
  - apply IH. apply NoDup_cons in Hnd. tauto.
  - apply NoDup_cons in Hnd as [Hnotin _].
    rewrite Forall_forall in *. intros y Hy. specialize (Hx y Hy).
    destruct (cmp x y) eqn:E; [|reflexivity|congruence].
    apply Heq in E. subst y. contradiction.
Qed.

Lemma chunks_sorted_across {A} (R : A -> A -> Prop) (chunks : list (list A)) i j c c' x y :
  StronglySorted R (mjoin chunks) ->
  chunks !! i = Some c -> chunks !! j = Some c' -> (i < j)%nat ->
  x ∈ c -> y ∈ c' -> R x y.
Proof.
  revert i j. induction chunks as [|c0 chunks IH]; intros i j Hs Hi Hj Hlt Hx Hy.
  - rewrite lookup_nil in Hi. discriminate.
  - change (StronglySorted R (c0 ++ mjoin chunks)) in Hs.
    apply StronglySorted_app in Hs as (Hcross & _ & Hs).
    destruct j as [|j]; [lia|]. simpl in Hj. destruct i as [|i]; simpl in Hi.
    + injection Hi as ->. apply Hcross; [exact Hx|].
      apply list_elem_of_join. exists c'. split; [exact Hy|].
      eapply list_elem_of_lookup_2, Hj.
    + apply (IH i j Hs Hi Hj); [lia|assumption..].
Qed.

Lemma chunk_sorted {A} (R : A -> A -> Prop) (chunks : list (list A)) c :
  StronglySorted R (mjoin chunks) -> c ∈ chunks -> StronglySorted R c.
Proof.
  induction chunks as [|c0 chunks IH]; intros Hs Hc; [inversion Hc|].
  change (StronglySorted R (c0 ++ mjoin chunks)) in Hs.
  apply StronglySorted_app in Hs as (_ & Hc0 & Hs).
  apply elem_of_cons in Hc as [->|Hc]; [exact Hc0|apply IH; assumption].
Qed.

Lemma sorted_last {A} (R : A -> A -> Prop) (l : list A) b :
  StronglySorted R l -> last l = Some b ->
  b ∈ l /\ forall x, x ∈ l -> x = b \/ R x b.
Proof.
  induction 1 as [|a l Hs IH Ha]; intros Hl; [discriminate|].
  destruct l as [|a' l'].
  - injection Hl as <-. split; [left|]. intros x Hx.
    apply list_elem_of_singleton in Hx. auto.
  - change (last (a' :: l') = Some b) in Hl. destruct (IH Hl) as [Hb Hall].
    split; [right; exact Hb|]. intros x Hx.
    apply elem_of_cons in Hx as [->|Hx]; [|apply Hall, Hx].
    right. rewrite Forall_forall in Ha. apply Ha, Hb.
Qed.

Lemma in_window_true v a b : in_window v (Some a, Some b) = true <-> a <= v <= b.
Proof.
  unfold in_window. simpl.
  destruct (a <=? v) eqn:E1, (v <=? b) eqn:E2; simpl; lia.
Qed.

(** The window of one chunk of the sorted keys. *)
Lemma chunk_window (c : list (option Z)) :
  c <> [] -> StronglySorted (fun x y => cmp_int x y = Lt) c ->
  (forall x, x ∈ c -> x <> None) ->
  exists a b, first_last c = Some (Some a, Some b) /\
              Some a ∈ c /\ Some b ∈ c /\
              forall v, Some v ∈ c -> a <= v <= b.
Proof.
  intros Hne Hs Hsome. destruct c as [|[a|] c]; [congruence| |].
  2: { exfalso. apply (Hsome None); [left|reflexivity]. }
  destruct (last (Some a :: c)) as [[b|]|] eqn:El.
  - destruct (sorted_last _ _ _ Hs El) as [Hb Hall].
    exists a, b. unfold first_last. rewrite El.
    split; [reflexivity|]. split; [left|]. split; [exact Hb|].
    intros v Hv. split.
    + apply elem_of_cons in Hv as [Hv|Hv]; [injection Hv as Hv; lia|].
      apply StronglySorted_cons in Hs as [Ha _]. rewrite Forall_forall in Ha.
      specialize (Ha _ Hv). simpl in Ha. rewrite Z.compare_lt_iff in Ha. lia.
    + destruct (Hall _ Hv) as [Hvb|Hlt]; [injection Hvb as Hvb; lia|].
      simpl in Hlt. rewrite Z.compare_lt_iff in Hlt. lia.
  - exfalso. destruct (sorted_last _ _ _ Hs El) as [Hb _].
    apply (Hsome None Hb). reflexivity.
  - apply last_None in El. discriminate.
Qed.

Lemma select_keys_strict key_column db :
  StronglySorted (fun x y => cmp_int x y = Lt) (select_keys key_column db).
Proof.
  apply sorted_NoDup_strict.
  - intros [x|] [y|]; simpl; try discriminate; try reflexivity.
    intros E. apply Z.compare_eq in E. congruence.
  - apply order_by_sorted. apply cmp_opt_lawful, Z_compare_lawful.
  - unfold select_keys. rewrite order_by_perm. apply unique_NoDup.
Qed.

Lemma select_keys_elem key_column db x :
  x ∈ select_keys key_column db <-> exists e, e ∈ entries db /\ key_column e = x.
Proof.
  unfold select_keys. rewrite order_by_elem, unique_elem, list_elem_of_fmap.
  split; intros (e & H1 & H2); exists e; auto.
Qed.

Lemma omap_lookup_Some {A B} (f : A -> option B) (l : list A) i :
  Forall (fun x => is_Some (f x)) l ->
  omap f l !! i = l !! i ≫= f.
Proof.
  intros Hall. revert i. induction Hall as [|x l [y Hy] _ IH]; intros i; simpl.
  - rewrite !lookup_nil. reflexivity.
  - rewrite Hy. destruct i as [|i]; simpl; [symmetry; exact Hy|apply IH].
Qed.

Section Windowed.
Context (db : Store) (key_column : Entry.t -> option Z) (size : nat).
Hypothesis size_pos : (0 < size)%nat.
Hypothesis no_null : forall e, e ∈ entries db -> key_column e <> None.

Let chunks := partitions size (select_keys key_column db).

Lemma chunks_facts :
  mjoin chunks = select_keys key_column db /\
  forall c, c ∈ chunks ->
    exists a b, first_last c = Some (Some a, Some b) /\
                Some a ∈ c /\ Some b ∈ c /\
                forall v, Some v ∈ c -> a <= v <= b.
Proof.
  destruct (partitions_spec size (select_keys key_column db) size_pos) as [Hj Hne].
  split; [exact Hj|]. intros c Hc. rewrite Forall_forall in Hne.
  apply chunk_window.
  - apply Hne, Hc.
  - apply (chunk_sorted _ chunks); [|exact Hc].
    unfold chunks. rewrite Hj. apply select_keys_strict.
  - intros x Hx ->.
    assert (Hin : None ∈ select_keys key_column db).
    { rewrite <- Hj. apply list_elem_of_join. eauto. }
    apply select_keys_elem in Hin as (e & He & Hk). apply (no_null e He Hk).
Qed.

Lemma windowed_lookup i w :
  windowed db key_column size !! i = Some w <->
  exists c, chunks !! i = Some c /\ first_last c = Some w.
Proof.
  unfold windowed. fold chunks. rewrite omap_lookup_Some.
  - destruct (chunks !! i) as [c|]; simpl; split.
    + intros E. eauto.
    + intros (c' & [= <-] & E). exact E.
    + discriminate.
    + intros (c' & [=] & _).
  - apply Forall_forall. intros c Hc.
    destruct chunks_facts as [_ Hw]. destruct (Hw c Hc) as (a & b & -> & _). eauto.
Qed.

Lemma windowed_spec :
  (forall w, w ∈ windowed db key_column size ->
     exists a b, w = (Some a, Some b) /\ a <= b /\
                 (exists e, e ∈ entries db /\ key_column e = Some a) /\
                 (exists e, e ∈ entries db /\ key_column e = Some b)) /\
  (forall i a b c d,
     windowed db key_column size !! i = Some (a, Some b) ->
     windowed db key_column size !! S i = Some (Some c, d) -> b < c) /\
  (forall e v, e ∈ entries db -> key_column e = Some v ->
     exists i w, windowed db key_column size !! i = Some w /\
                 in_window v w = true /\
                 forall j w', windowed db key_column size !! j = Some w' ->
                              in_window v w' = true -> j = i).
Proof.
  destruct chunks_facts as [Hj Hw].
  assert (Hstrict : StronglySorted (fun x y => cmp_int x y = Lt) (mjoin chunks))
    by (rewrite Hj; apply select_keys_strict).
  split; [|split].
  - intros w Hin. apply list_elem_of_lookup_1 in Hin as [i Hi].
    apply windowed_lookup in Hi as (c & Hc & Hfl).
    destruct (Hw c (list_elem_of_lookup_2 _ _ _ Hc)) as (a & b & Hfl' & Ha & Hb & Hr).
    exists a, b. split; [congruence|]. split; [apply (Hr a Ha)|].
    assert (Hsub : forall x, x ∈ c -> exists e, e ∈ entries db /\ key_column e = x).
    { intros x Hx. apply select_keys_elem. rewrite <- Hj.
      apply list_elem_of_join. exists c. split; [exact Hx|].
      eapply list_elem_of_lookup_2, Hc. }
    split; apply Hsub; assumption.
  - intros i a b c d Hi Hi'.
    apply windowed_lookup in Hi as (c1 & Hc1 & Hfl1).
    apply windowed_lookup in Hi' as (c2 & Hc2 & Hfl2).
    destruct (Hw c1 (list_elem_of_lookup_2 _ _ _ Hc1)) as (a1 & b1 & E1 & _ & Hb1 & _).
    destruct (Hw c2 (list_elem_of_lookup_2 _ _ _ Hc2)) as (a2 & b2 & E2 & Ha2 & _ & _).
    rewrite E1 in Hfl1. rewrite E2 in Hfl2.
    injection Hfl1 as <- <-. injection Hfl2 as <- <-.
    pose proof (chunks_sorted_across _ chunks i (S i) c1 c2 _ _ Hstrict Hc1 Hc2
                  ltac:(lia) Hb1 Ha2) as Hlt.
    simpl in Hlt. rewrite Z.compare_lt_iff in Hlt. exact Hlt.
  - intros e v He Hk.
    assert (Hin : Some v ∈ mjoin chunks).
    { rewrite Hj. apply select_keys_elem. eauto. }
    apply list_elem_of_join in Hin as (c & Hv & Hc).
    apply list_elem_of_lookup_1 in Hc as [i Hi].
    destruct (Hw c (list_elem_of_lookup_2 _ _ _ Hi)) as (a & b & Hfl & _ & _ & Hr).
    exists i, (Some a, Some b). split; [apply windowed_lookup; eauto|].
    split; [apply in_window_true, Hr, Hv|].
    intros j w' Hj' Hin'.
    apply windowed_lookup in Hj' as (c' & Hc' & Hfl').
    destruct (Hw c' (list_elem_of_lookup_2 _ _ _ Hc')) as (a' & b' & E' & Ha' & Hb' & _).
    rewrite E' in Hfl'. injection Hfl' as <-.
    apply in_window_true in Hin'.
    destruct (lt_eq_lt_dec j i) as [[Hlt|Heq]|Hgt]; [|exact Heq|].
    + pose proof (chunks_sorted_across _ chunks j i c' c _ _ Hstrict Hc' Hi Hlt Hb' Hv) as Hc.
      simpl in Hc. rewrite Z.compare_lt_iff in Hc. lia.
    + pose proof (chunks_sorted_across _ chunks i j c c' _ _ Hstrict Hi Hc' Hgt Hv Ha') as Hc.
      simpl in Hc. rewrite Z.compare_lt_iff in Hc. lia.
Qed.
End Windowed.

(** ** BaseDatabase.__iter__ *)

Lemma sorted_by_then_fst {A} (c d : A -> A -> comparison) (l : list A) :
  sorted_by (fun x y => then_cmp (c x y) (d x y)) l -> sorted_by c l.
Proof.
  unfold sorted_by. induction 1 as [|x l Hs IH Hx]; constructor; [exact IH|].
  eapply Forall_impl; [exact Hx|]. intros y. simpl. unfold then_cmp.
  destruct (c x y); congruence.
Qed.

#[global] Instance cmp_member_lawful : LawfulCmp cmp_member.
Proof.
  unfold cmp_member.
  apply (then_lawful (fun r r' => desc (Z.compare (Row.priority r) (Row.priority r')))
           (fun r r' => then_cmp (String.compare (Row.filename r) (Row.filename r'))
                                 (String.compare (Row.bibkey r) (Row.bibkey r')))).
  - apply (on_lawful Row.priority (fun x y => desc (Z.compare x y))).
    apply desc_lawful, Z_compare_lawful.
  - apply (then_lawful (fun r r' => String.compare (Row.filename r) (Row.filename r'))
             (fun r r' => String.compare (Row.bibkey r) (Row.bibkey r'))).
    + apply (on_lawful Row.filename String.compare), string_compare_lawful.
    + apply (on_lawful Row.bibkey String.compare), string_compare_lawful.
Qed.

#[global] Instance cmp_field_member_lawful : LawfulCmp cmp_field_member.
Proof.
  unfold cmp_field_member.
  apply (then_lawful (fun r r' => String.compare (Row.field r) (Row.field r')) cmp_member).
  - apply (on_lawful Row.field String.compare), string_compare_lawful.
  - apply cmp_member_lawful.
Qed.

#[global] Instance cmp_id_field_member_lawful : LawfulCmp cmp_id_field_member.
Proof.
  unfold cmp_id_field_member.
  apply (then_lawful (fun r r' => cmp_int (Entry.id (Row.entry r)) (Entry.id (Row.entry r')))
           cmp_field_member).
  - apply (on_lawful (fun r => Entry.id (Row.entry r)) cmp_int).
    apply cmp_opt_lawful, Z_compare_lawful.
  - apply cmp_field_member_lawful.
Qed.

Lemma entry_file_value_entry db r :
  r ∈ entry_file_value db -> Row.entry r ∈ entries db.
Proof.
  unfold entry_file_value. intros Hr.
  apply list_elem_of_bind in Hr as (e & Hr & He).
  apply list_elem_of_bind in Hr as (f & Hr & Hf).
  apply list_elem_of_bind in Hr as (v & Hr & Hv).
  apply list_elem_of_singleton in Hr as ->. exact He.
Qed.

Lemma select_values_between_elem db first last r :
  r ∈ select_values_between db first last <->
  r ∈ entry_file_value db /\
  holds (between (Entry.id (Row.entry r)) first last) = true.
Proof.
  unfold select_values_between. rewrite order_by_elem, list_elem_of_filter. tauto.
Qed.

Lemma holds_between x first last :
  holds (between x first last) = true ->
  exists v, x = Some v /\ in_window v (first, last) = true.
Proof.
  unfold in_window. destruct x as [v|]; [|discriminate]. eauto.
Qed.

Lemma iter_keys `{Collaborators} db size out :
  iter db size = Ok out ->
  allid db = true /\
  map fst out = windowed db Entry.id size ≫= window_keys db.
Proof.
  unfold iter. intros E.
  apply bind_Ok in E as ([] & E1 & E). apply assert_Ok in E1.
  apply bind_Ok in E as ([] & _ & E). injection E as <-.
  split; [exact E1|].
  induction (windowed db Entry.id size) as [|[first last] ws IH]; [reflexivity|].
  rewrite !bind_cons, map_app, IH. f_equal.
  unfold window_keys. simpl.
  induction (groupby id_hash (select_values_between db first last)) as [|[ih grp] G IHG];
    [reflexivity|].
  rewrite bind_cons. simpl. rewrite IHG. reflexivity.
Qed.

Lemma window_keys_elem db w ih :
  ih ∈ window_keys db w <->
  exists r, r ∈ select_values_between db w.1 w.2 /\ id_hash r = ih.
Proof.
  unfold window_keys. rewrite list_elem_of_fmap. split.
  - intros ([k g] & -> & Hin). destruct (groupby_group _ _ _ _ Hin) as [Hne Hg].
    destruct g as [|r g]; [congruence|]. exists r. apply Hg. left.
  - intros (r & Hr & <-). destruct (groupby_key_elem id_hash _ r Hr) as (g & Hg & _).
    exists (id_hash r, g). auto.
Qed.

Lemma window_keys_NoDup db w :
  one_hash_per_id db -> NoDup (window_keys db w).
Proof.
  intros Hone. unfold window_keys.
  apply (groupby_sorted_NoDup id_hash (fun p q => cmp_int p.1 q.1)).
  - apply (sorted_by_then_fst _ cmp_field_member).
    apply (order_by_sorted cmp_id_field_member).
  - intros x y Hx Hy E. simpl in E.
    assert (Hid : Entry.id (Row.entry x) = Entry.id (Row.entry y)).
    { destruct (Entry.id (Row.entry x)), (Entry.id (Row.entry y));
        simpl in E; try discriminate; [|reflexivity].
      apply Z.compare_eq in E. congruence. }
    unfold id_hash. rewrite Hid. f_equal.
    apply select_values_between_elem in Hx as [Hx _].
    apply select_values_between_elem in Hy as [Hy _].
    apply Hone; [apply entry_file_value_entry..|]; assumption.
Qed.

Lemma iter_spec `{Collaborators} db size out :
  (0 < size)%nat -> one_hash_per_id db -> iter db size = Ok out ->
  NoDup (map fst out) /\
  forall ih, ih ∈ map fst out <-> exists r, r ∈ entry_file_value db /\ id_hash r = ih.
Proof.
  intros Hsize Hone E. apply iter_keys in E as [Hall ->].
  assert (Hnn : forall e, e ∈ entries db -> Entry.id e <> None).
  { intros e He Hn. rewrite allid_true in Hall. destruct (Hall e He). congruence. }
  destruct (windowed_spec db Entry.id size Hsize Hnn) as (Hw1 & _ & Hw3).
  assert (Hsame : forall w1 w2 v, w1 ∈ windowed db Entry.id size ->
            w2 ∈ windowed db Entry.id size ->
            (exists e, e ∈ entries db /\ Entry.id e = Some v) ->
            in_window v w1 = true -> in_window v w2 = true -> w1 = w2).
  { intros w1 w2 v H1 H2 (e & He & Hv) Hi1 Hi2.
    apply list_elem_of_lookup_1 in H1 as [i1 H1], H2 as [i2 H2].
    destruct (Hw3 e v He Hv) as (i & w & _ & _ & Huniq).
    pose proof (Huniq i1 w1 H1 Hi1). pose proof (Huniq i2 w2 H2 Hi2). congruence. }
  split.
  - apply NoDup_bind.
    + intros w1 w2 ih H1 H2 Hk1 Hk2.
      apply window_keys_elem in Hk1 as (r1 & Hr1 & E1), Hk2 as (r2 & Hr2 & E2).
      apply select_values_between_elem in Hr1 as [Hr1 Hb1], Hr2 as [Hr2 Hb2].
      apply holds_between in Hb1 as (v1 & Hv1 & Hb1), Hb2 as (v2 & Hv2 & Hb2).
      assert (v1 = v2).
      { unfold id_hash in *. rewrite <- E2 in E1. injection E1 as E1 _. congruence. }
      subst v2. destruct w1, w2. apply (Hsame _ _ v1 H1 H2); [|assumption..].
      exists (Row.entry r1). split; [apply entry_file_value_entry|]; assumption.
    + intros w _. apply window_keys_NoDup, Hone.
    + apply NoDup_alt. intros i j w Hi Hj.
      destruct (Hw1 w (list_elem_of_lookup_2 _ _ _ Hi)) as (a & b & -> & Hab & (e & He & Ha) & _).
      destruct (Hw3 e a He Ha) as (i0 & w0 & _ & _ & Huniq).
      assert (Hin : in_window a (Some a, Some b) = true) by (apply in_window_true; lia).
      rewrite (Huniq i _ Hi Hin), (Huniq j _ Hj Hin). reflexivity.
  - intros ih. rewrite list_elem_of_bind. split.
    + intros (w & Hk & _). apply window_keys_elem in Hk as (r & Hr & Hih).
      apply select_values_between_elem in Hr as [Hr _]. eauto.
    + intros (r & Hr & Hih).
      pose proof (entry_file_value_entry db r Hr) as He.
      destruct (Entry.id (Row.entry r)) as [v|] eqn:Hv; [|destruct (Hnn _ He Hv)].
      destruct (Hw3 _ v He Hv) as (i & w & Hi & Hin & _).
      exists w. split; [|eapply list_elem_of_lookup_2, Hi].
      apply window_keys_elem. exists r. split; [|exact Hih].
      apply select_values_between_elem. split; [exact Hr|].
      rewrite Hv. destruct w. exact Hin.
Qed.

(** C10, amended. For a window size of at least 1 and a key column
    without NULL (for [Entry.id], what [__iter__] asserts first), the
    windows of [Entry.windowed] have first <= last with both bounds keys
    of the table, consecutive windows are strictly increasing, and every
    key of the table lies in exactly one window. With every id standing
    for one hash, iterating in windows over [Entry.id] yields each
    [(id, hash)] that has field values exactly once. *)
Theorem windowed_partitions_keys `{Collaborators} (db : Store)
    (key_column : Entry.t -> option Z) (size : nat) :
  (0 < size)%nat ->
  ((forall e, e ∈ entries db -> key_column e <> None) ->
   (forall w, w ∈ windowed db key_column size ->
      exists a b, w = (Some a, Some b) /\ a <= b /\
                  (exists e, e ∈ entries db /\ key_column e = Some a) /\
                  (exists e, e ∈ entries db /\ key_column e = Some b)) /\
   (forall i a b c d,
      windowed db key_column size !! i = Some (a, Some b) ->
      windowed db key_column size !! S i = Some (Some c, d) -> b < c) /\
   (forall e v, e ∈ entries db -> key_column e = Some v ->
      exists i w, windowed db key_column size !! i = Some w /\
                  in_window v w = true /\
                  forall j w', windowed db key_column size !! j = Some w' ->
                               in_window v w' = true -> j = i)) /\
  (forall out, one_hash_per_id db -> iter db size = Ok out ->
     NoDup (map fst out) /\
     forall ih, ih ∈ map fst out <->
                exists r, r ∈ entry_file_value db /\ id_hash r = ih).
Proof.
  intros Hsize. split.
  - intros Hnn. apply windowed_spec; assumption.
  - intros out Hone E. apply (iter_spec db size out); assumption.
Qed.

Example iter_resolved :
  windowed resolved_store Entry.id 2 = [(Some 4, Some 7); (Some 9, Some 9)] /\
  (x ← iter (H:=sample) resolved_store 2; Ok (map fst x))
  = Ok [(Some 4, Some "smith_grammar1999"); (Some 7, Some "jones_dictionary2001");
        (Some 9, Some "zed_atlas1980")].
Proof. vm_compute. split; reflexivity. Qed.

(** With a NULL among the keys the first window starts at NULL, and
    [between] then holds for no key: key 9 lies in no window. And with
    one id on two hashes, which [allid] and [onetoone] both let pass,
    the rows of the id come ordered by field, so that each
    [(id, hash)] is yielded once per field. *)
Lemma iter_repeats_shared_id :
  (windowed unminted_store Entry.id 2 = [(None, Some 9)] /\
   in_window 9 (None, Some 9) = false) /\
  allid shared_id_fields_store = true /\
  onetoone (H:=sample) shared_id_fields_store = true /\
  (x ← iter (H:=sample) shared_id_fields_store 100; Ok (map fst x))
  = Ok [(Some 7, Some "smith_grammar1999"); (Some 7, Some "jones_dictionary2001");
        (Some 7, Some "smith_grammar1999"); (Some 7, Some "jones_dictionary2001")].
Proof. vm_compute. repeat split; reflexivity. Qed.

Lemma windowed_partitions_keys_witness :
  (0 < 2)%nat /\
  (forall e v, e ∈ entries resolved_store -> Entry.id e = Some v ->
     exists i w, windowed resolved_store Entry.id 2 !! i = Some w /\
                 in_window v w = true /\
                 forall j w', windowed resolved_store Entry.id 2 !! j = Some w' ->
                              in_window v w' = true -> j = i) /\
  (forall out, one_hash_per_id resolved_store ->
     iter (H:=sample) resolved_store 2 = Ok out ->
     NoDup (map fst out) /\
     forall ih, ih ∈ map fst out <->
                exists r, r ∈ entry_file_value resolved_store /\ id_hash r = ih).
Proof.
  assert (Hsize : (0 < 2)%nat) by lia.
  assert (Hnn : forall e, e ∈ entries resolved_store -> Entry.id e <> None).
  { intros e He. simpl in He. members He; discriminate. }
  destruct (windowed_partitions_keys (H:=sample) resolved_store Entry.id 2 Hsize)
    as [Hw Hi].
  split; [exact Hsize|]. split; [apply (Hw Hnn)|exact Hi].
Defined.

(** ** Merge view *)

Lemma cmp_member_outranks r r' : cmp_member r r' <> Gt <-> outranks r r'.
Proof.
  unfold cmp_member, outranks, then_cmp, desc, String.ltb, String.leb.
  destruct (Row.priority r ?= Row.priority r') eqn:Ep; simpl.
  - apply Z.compare_eq in Ep.
    destruct (String.compare (Row.filename r) (Row.filename r')) eqn:Ef.
    + apply String.compare_eq_iff in Ef.
      destruct (String.compare (Row.bibkey r) (Row.bibkey r')) eqn:Eb;
        split; try congruence; try intuition (congruence || lia).
    + split; [intros _; right; auto|congruence].
    + split; [congruence|].
      intros [Hlt|[_ [Hc|[He _]]]]; [lia|discriminate|].
      rewrite He in Ef. pose proof (cmp_refl String.compare (Row.filename r')).
      congruence.
  - rewrite Z.compare_lt_iff in Ep. split; [congruence|].
    intros [Hlt|[He _]]; lia.
  - rewrite Z.compare_gt_iff in Ep. split; [intros _; left; exact Ep|congruence].
Qed.

Lemma string_compare_eq (x y : string) : String.compare x y = Eq -> x = y.
Proof. apply String.compare_eq_iff. Qed.

(** The group [groupby] forms for a field is the field's members. *)
Lemma select_values_group db k field g :
  (field, g) ∈ groupby Row.field (select_values db k) ->
  g = field_members db k field.
Proof.
  intros Hin. unfold select_values in *.
  destruct (groupby_sorted Row.field String.compare
              (order_by cmp_field_member
                 (filter (fun r => key_matches k (Row.entry r) = true)
                         (entry_file_value db)))) as [_ Hg].
  - apply (sorted_by_then_fst _ cmp_member). apply (order_by_sorted cmp_field_member).
  - intros x y _ _. apply string_compare_eq.
  - rewrite (Hg field g Hin), (order_by_filter cmp_field_member), list_filter_filter.
    unfold field_members. apply order_by_ext.
    intros x y Hx Hy. apply list_elem_of_filter in Hx as [[Hx _] _], Hy as [[Hy _] _].
    unfold cmp_field_member. rewrite Hx, Hy, (cmp_refl String.compare). reflexivity.
Qed.

Lemma select_values_fields_NoDup db k :
  NoDup (map fst (groupby Row.field (select_values db k))).
Proof.
  apply (groupby_sorted_NoDup Row.field String.compare).
  - apply (sorted_by_then_fst _ cmp_member). apply (order_by_sorted cmp_field_member).
  - intros x y _ _. apply string_compare_eq.
Qed.

Lemma field_members_group db k field :
  field_members db k field <> [] ->
  (field, field_members db k field) ∈ groupby Row.field (select_values db k).
Proof.
  intros Hne. destruct (field_members db k field) as [|r rs] eqn:E; [congruence|].
  assert (Hr : r ∈ field_members db k field) by (rewrite E; left).
  unfold field_members in Hr. apply order_by_elem, list_elem_of_filter in Hr as [[Hf Hk] Hr].
  assert (Hsel : r ∈ select_values db k).
  { unfold select_values. apply order_by_elem, list_elem_of_filter. auto. }
  destruct (groupby_key_elem Row.field _ r Hsel) as (g & Hg & _).
  rewrite Hf in Hg. rewrite <- E, <- (select_values_group db k field g Hg). exact Hg.
Qed.

(** A dict filled item by item from pairs with distinct keys. *)
Lemma foldl_insert_lookup {V W} (f : string * W -> V) (l : list (string * W))
    (m : gmap string V) k w :
  NoDup (map fst l) -> (k, w) ∈ l ->
  foldl (fun fields fv => <[fv.1 := f fv]> fields) m l !! k = Some (f (k, w)).
Proof.
  revert m. induction l as [|[k0 w0] l IH]; intros m Hnd Hin; [inversion Hin|].
  simpl in Hnd. apply NoDup_cons in Hnd as [Hnotin Hnd]. simpl.
  apply elem_of_cons in Hin as [[= <- <-]|Hin]; [|apply IH; assumption].
  clear IH. revert m. induction l as [|[k1 w1] l IH]; intros m; simpl.
  - apply lookup_insert_eq.
  - simpl in Hnotin, Hnd. apply not_elem_of_cons in Hnotin as [Hne Hnotin].
    apply NoDup_cons in Hnd as [_ Hnd].
    rewrite insert_insert_ne by congruence. apply IH; assumption.
Qed.

Lemma group_fields_elem rows field vs :
  (field, vs) ∈ group_fields rows <->
  exists g, (field, g) ∈ groupby Row.field rows /\
            vs = map (fun r => (Row.value r, Row.filename r, Row.bibkey r)) g.
Proof.
  unfold group_fields. rewrite list_elem_of_fmap. split.
  - intros ([f g] & [= -> ->] & Hin). eauto.
  - intros (g & Hin & ->). exists (field, g). auto.
Qed.

Lemma group_fields_keys rows : map fst (group_fields rows) = map fst (groupby Row.field rows).
Proof.
  unfold group_fields. rewrite map_map. apply map_ext. intros [f g]. reflexivity.
Qed.

Lemma sublist_map_NoDup {A B} (f : A -> B) (l l' : list A) :
  sublist l l' -> NoDup (map f l') -> NoDup (map f l).
Proof.
  intros Hsub Hnd. apply (sublist_NoDup (map f l) (map f l') Hnd).
  apply (fmap_sublist f), Hsub.
Qed.

Lemma merged_fields_lookup db k field :
  field ∉ IGNORE_FIELDS -> field_members db k field <> [] ->
  merged_fields (group_fields (select_values db k)) !! field
  = Some (merged_field
            (field, map (fun r => (Row.value r, Row.filename r, Row.bibkey r))
                        (field_members db k field))).
Proof.
  intros Hign Hne. unfold merged_fields.
  apply (foldl_insert_lookup merged_field).
  - apply (sublist_map_NoDup fst _ (group_fields (select_values db k))).
    + apply sublist_filter.
    + rewrite group_fields_keys. apply select_values_fields_NoDup.
  - apply list_elem_of_filter. split; [exact Hign|].
    apply group_fields_elem. exists (field_members db k field).
    split; [apply field_members_group, Hne|reflexivity].
Qed.

Lemma merged_entrygrp_lookup db k fields field :
  _merged_entrygrp db k = Ok fields ->
  field <> "src" -> field <> "srctrickle" ->
  fields !! field = merged_fields (group_fields (select_values db k)) !! field.
Proof.
  unfold _merged_entrygrp. intros E Hsrc Htrickle.
  destruct (group_fields (select_values db k)) as [|fv grp]; [discriminate|].
  injection E as <-. unfold _merged_entry_raw.
  rewrite !lookup_insert_ne by congruence. reflexivity.
Qed.

(** C5, amended. In the merge view of a group, a field that is neither
    ignored nor one of the two provenance fields and that some member
    carries has, if it is a union field, the values of the members in
    member order (priority descending, then file name, then bibkey),
    de-duplicated keeping first occurrences and joined with [", "]; and
    otherwise the value of the member that comes first in that order. *)
Theorem merged_view_field (db : Store) (k : key) (fields : gmap string string)
    (field : string) :
  _merged_entrygrp db k = Ok fields ->
  field ∉ IGNORE_FIELDS -> field <> "src" -> field <> "srctrickle" ->
  field_members db k field <> [] ->
  (field ∈ UNION_FIELDS ->
   fields !! field
   = Some (String.concat ", " (unique (map Row.value (field_members db k field))))) /\
  (field ∉ UNION_FIELDS ->
   exists r, r ∈ entry_file_value db /\
             Row.field r = field /\ key_matches k (Row.entry r) = true /\
             fields !! field = Some (Row.value r) /\
             forall r', r' ∈ entry_file_value db -> Row.field r' = field ->
                        key_matches k (Row.entry r') = true -> outranks r r').
Proof.
  intros E Hign Hsrc Htrickle Hne.
  rewrite (merged_entrygrp_lookup db k fields field E Hsrc Htrickle).
  rewrite (merged_fields_lookup db k field Hign Hne).
  unfold merged_field. split; intros Hu.
  - destruct (decide (field ∈ UNION_FIELDS)); [|contradiction].
    rewrite map_map. reflexivity.
  - destruct (decide (field ∈ UNION_FIELDS)); [contradiction|].
    destruct (field_members db k field) as [|r rs] eqn:Em; [congruence|].
    assert (Hsorted : sorted_by cmp_member (r :: rs)).
    { rewrite <- Em. apply (order_by_sorted cmp_member). }
    assert (Hmem : forall r', r' ∈ r :: rs <->
              (Row.field r' = field /\ key_matches k (Row.entry r') = true) /\
              r' ∈ entry_file_value db).
    { intros r'. rewrite <- Em. unfold field_members.
      rewrite order_by_elem, list_elem_of_filter. reflexivity. }
    destruct (proj1 (Hmem r) ltac:(left)) as [[Hf Hk] Hr].
    exists r. repeat split; try assumption.
    intros r' Hr' Hf' Hk'. apply cmp_member_outranks.
    apply (sorted_head_least cmp_member r rs r' Hsorted). apply Hmem. auto.
Qed.

Example import_union :
  (db ← import_bibfiles (H:=sample) empty_store union_bibfiles;
   generate_hashes (H:=sample) db) = Ok union_store.
Proof. vm_compute. reflexivity. Qed.

Ltac not_member :=
  let Hin := fresh in
  intros Hin; repeat (apply elem_of_cons in Hin as [Hin|Hin]; [discriminate|]);
  inversion Hin.

Lemma merged_entrygrp_union :
  _merged_entrygrp union_store (StrKey "Smith_Grammar1999") = Ok union_view.
Proof. vm_compute. reflexivity. Qed.

(** The union field comes out as "b, a": in member order, not sorted. *)
Lemma union_field_not_sorted :
  _merged_entrygrp union_store (StrKey "Smith_Grammar1999") = Ok union_view /\
  union_view !! "fn" = Some "b, a" /\
  String.concat ", " (sorted_set ["b"; "a"]) = "a, b".
Proof.
  split; [apply merged_entrygrp_union|]. split; vm_compute; reflexivity.
Qed.

Lemma merged_view_field_witness :
  _merged_entrygrp union_store (StrKey "Smith_Grammar1999") = Ok union_view /\
  ("fn" ∈ UNION_FIELDS ->
   union_view !! "fn"
   = Some (String.concat ", "
             (unique (map Row.value
                        (field_members union_store (StrKey "Smith_Grammar1999") "fn"))))).
Proof.
  split; [apply merged_entrygrp_union|].
  apply (merged_view_field union_store (StrKey "Smith_Grammar1999") union_view "fn"
           merged_entrygrp_union).
  - not_member.
  - discriminate.
  - discriminate.
  - vm_compute. discriminate.
Defined.

(** ** min with a key *)

Lemma Qltb_true (x y : Q) : Qltb x y = true <-> (x < y)%Q.
Proof.
  unfold Qltb. rewrite negb_true_iff. split.
  - intros E. apply Qnot_le_lt. intros Hle. apply Qle_bool_iff in Hle. congruence.
  - intros Hlt. apply not_true_iff_false. intros E. apply Qle_bool_iff in E.
    apply (Qlt_not_le _ _ Hlt E).
Qed.

(** [min] returns the first item whose key is minimal: the keys before
    it are greater, those after it not smaller. *)
Lemma py_min_first {A} (f : A -> Q) (l : list A) (best : A) :
  py_min f l = Ok best ->
  exists l1 l2, l = (l1 ++ best :: l2)%list /\
                (forall p, p ∈ l1 -> (f best < f p)%Q) /\
                (forall p, p ∈ l2 -> (f best <= f p)%Q).
Proof.
  destruct l as [|x l]; [discriminate|]. simpl. intros [= <-].
  induction l as [|y l IH] using rev_ind.
  - exists [], []. simpl. split; [reflexivity|]. split; intros p Hp; inversion Hp.
  - rewrite foldl_app. simpl.
    destruct IH as (l1 & l2 & E & H1 & H2).
    set (b := foldl (fun best it => if Qltb (f it) (f best) then it else best) x l) in *.
    destruct (Qltb (f y) (f b)) eqn:Elt.
    + apply Qltb_true in Elt. exists (l1 ++ b :: l2)%list, [].
      split; [rewrite app_comm_cons, E; reflexivity|].
      split; [|intros p Hp; inversion Hp].
      intros p Hp. apply elem_of_app in Hp as [Hp|Hp].
      * eapply Qlt_trans; [exact Elt|apply H1, Hp].
      * apply elem_of_cons in Hp as [->|Hp]; [exact Elt|].
        eapply Qlt_le_trans; [exact Elt|apply H2, Hp].
    + exists l1, (l2 ++ [y])%list.
      split; [rewrite app_comm_cons, E, <- app_assoc; reflexivity|].
      split; [exact H1|]. intros p Hp. apply elem_of_app in Hp as [Hp|Hp].
      * apply H2, Hp.
      * apply list_elem_of_singleton in Hp as ->.
        apply Qnot_lt_le. intros Hlt. apply Qltb_true in Hlt. congruence.
Qed.

Lemma mapM_Ok {A B} (f : A -> result B) (l : list A) (l' : list B) :
  mapM f l = Ok l' -> Forall2 (fun x y => f x = Ok y) l l'.
Proof.
  revert l'. induction l as [|x l IH]; simpl; intros l' E.
  - injection E as <-. constructor.
  - apply bind_Ok in E as (y & Ey & E). apply bind_Ok in E as (ys & Eys & E).
    injection E as <-. constructor; [exact Ey|apply IH, Eys].
Qed.

Lemma candidates_keys {K} db (to_key : option K -> key) ks cand :
  candidates db to_key ks = Ok cand ->
  map fst cand = ks /\
  forall k view, (k, view) ∈ cand -> _merged_entrygrp db (to_key k) = Ok view.
Proof.
  unfold candidates. intros E. apply mapM_Ok in E.
  induction E as [|k [k' view] ks cand Hk _ IH]; simpl.
  - split; [reflexivity|]. intros k view Hin. inversion Hin.
  - apply bind_Ok in Hk as (v & Hv & [= <- <-]). destruct IH as [IH1 IH2].
    split; [rewrite IH1; reflexivity|].
    intros k0 view0 Hin. apply elem_of_cons in Hin as [[= -> ->]|Hin]; [exact Hv|].
    apply IH2, Hin.
Qed.

(** ** Stage 2: which split id a merging hash gets *)

Lemma StronglySorted_weaken {A} (R R' : A -> A -> Prop) (l : list A) :
  (forall x y, x ∈ l -> y ∈ l -> R x y -> R' x y) ->
  StronglySorted R l -> StronglySorted R' l.
Proof.
  intros Himp Hs. induction Hs as [|x l Hs IH Hx]; constructor.
  - apply IH. intros y z Hy Hz. apply Himp; right; assumption.
  - rewrite Forall_forall in *. intros y Hy. apply Himp; [left|right|]; auto.
Qed.

Lemma StronglySorted_sublist {A} (R : A -> A -> Prop) (l l' : list A) :
  sublist l l' -> StronglySorted R l' -> StronglySorted R l.
Proof.
  intros Hsub Hs. revert l Hsub. induction Hs as [|x l' Hs IH Hx]; intros l Hsub.
  - apply sublist_nil_r in Hsub. subst. constructor.
  - inversion Hsub as [|y l1 l2 Hsub'|y l1 l2 Hsub']; subst.
    + constructor; [apply IH, Hsub'|].
      rewrite Forall_forall in *. intros z Hz. apply Hx.
      eapply elem_of_sublist; [exact Hz|exact Hsub'].
    + apply IH, Hsub'.
Qed.

#[global] Instance cmp_source_lawful {K V} : LawfulCmp (@cmp_source K V).
Proof.
  unfold cmp_source.
  apply (then_lawful (fun r r' => String.compare (GroupRow.filename r) (GroupRow.filename r'))
           (fun r r' => String.compare (GroupRow.bibkey r) (GroupRow.bibkey r'))).
  - apply (on_lawful GroupRow.filename String.compare), string_compare_lawful.
  - apply (on_lawful GroupRow.bibkey String.compare), string_compare_lawful.
Qed.

#[global] Instance cmp_merge_lawful : LawfulCmp cmp_merge.
Proof.
  unfold cmp_merge.
  apply (then_lawful (fun r r' => cmp_text (GroupRow.first r) (GroupRow.first r'))
           (fun r r' => then_cmp (desc (cmp_int (GroupRow.second r) (GroupRow.second r')))
                                 (cmp_source r r'))).
  - apply (on_lawful GroupRow.first cmp_text), cmp_opt_lawful, string_compare_lawful.
  - apply (then_lawful
             (fun r r' => desc (cmp_int (GroupRow.second r) (GroupRow.second r')))
             cmp_source).
    + apply (on_lawful GroupRow.second (fun x y => desc (cmp_int x y))).
      apply desc_lawful, cmp_opt_lawful, Z_compare_lawful.
    + apply cmp_source_lawful.
Qed.

Lemma entry_file_elem {K V} db cond (first : Entry.t -> option K)
    (second : Entry.t -> option V) r :
  r ∈ entry_file db cond first second ->
  exists e, e ∈ entries db /\ cond e = true /\
            GroupRow.first r = first e /\ GroupRow.second r = second e.
Proof.
  unfold entry_file. intros Hr.
  apply list_elem_of_bind in Hr as (e & Hr & He).
  apply list_elem_of_bind in Hr as (f & Hr & Hf).
  apply list_elem_of_singleton in Hr as ->.
  apply list_elem_of_filter in He as [Hc He]. exists e. auto.
Qed.

(** The split ids of a merging hash, as the loop lists them: each once,
    from the highest down. *)
Lemma merge_group_split_ids db hash_ group :
  (hash_, group) ∈ groupby_first (select_merge db) ->
  StronglySorted (fun x y => cmp_int x y = Gt) (unique (map GroupRow.second group)) /\
  forall s, s ∈ unique (map GroupRow.second group) -> exists z, s = Some z.
Proof.
  intros Hin. unfold groupby_first in Hin.
  destruct (groupby_sorted GroupRow.first cmp_text (select_merge db)) as [_ Hg].
  { apply (sorted_by_then_fst _ (fun r r' =>
             then_cmp (desc (cmp_int (GroupRow.second r) (GroupRow.second r')))
                      (cmp_source r r'))).
    apply (order_by_sorted cmp_merge). }
  { intros x y _ _. apply cmp_text_eq. }
  pose proof (Hg _ _ Hin) as Eg.
  assert (Hsorted : sorted_by cmp_merge group).
  { rewrite Eg. unfold select_merge. rewrite (order_by_filter cmp_merge).
    apply (order_by_sorted cmp_merge). }
  assert (Hfirst : forall r, r ∈ group -> GroupRow.first r = hash_).
  { intros r Hr. destruct (groupby_group _ _ _ _ Hin) as [_ Hk]. apply Hk, Hr. }
  split.
  - assert (Hs : StronglySorted (fun x y => desc (cmp_int x y) = Lt)
                   (unique (map GroupRow.second group))).
    { apply sorted_NoDup_strict.
      - intros x y E. unfold desc in E.
        destruct x as [a|], y as [b|]; simpl in E; try discriminate; [|reflexivity].
        destruct (a ?= b) eqn:Ec; try discriminate. apply Z.compare_eq in Ec. congruence.
      - apply (StronglySorted_sublist _ _ (map GroupRow.second group)
                 (unique_sublist _)).
        unfold sorted_by in *. clear -Hsorted Hfirst.
        induction Hsorted as [|r g Hs IH Hr]; simpl; constructor.
        + apply IH. intros r' Hr'. apply Hfirst. right. exact Hr'.
        + apply Forall_forall. intros s Hs'. rewrite Forall_forall in Hr.
          apply list_elem_of_fmap in Hs' as (r' & -> & Hr').
          specialize (Hr r' Hr'). unfold cmp_merge in Hr.
          rewrite (Hfirst r ltac:(left)), (Hfirst r' ltac:(right; exact Hr')) in Hr.
          rewrite (cmp_refl cmp_text) in Hr. simpl in Hr. unfold then_cmp in Hr.
          destruct (desc (cmp_int (GroupRow.second r) (GroupRow.second r')));
            congruence.
      - apply unique_NoDup. }
    eapply StronglySorted_weaken; [|exact Hs]. intros x y _ _. unfold desc.
    destruct (cmp_int x y); simpl; congruence.
  - intros s Hs. apply unique_elem, list_elem_of_fmap in Hs as (r & -> & Hr).
    assert (Hsel : r ∈ select_merge db).
    { destruct (groupby_group _ _ _ _ Hin) as [_ Hk]. apply Hk, Hr. }
    unfold select_merge in Hsel. apply order_by_elem, entry_file_elem in Hsel
      as (e & He & Hc & _ & ->).
    unfold is_merge, exists_other in Hc. apply existsb_elem in Hc as (other & _ & Hc).
    apply holds_and in Hc as [_ Hc]. apply holds_ne in Hc as (a & b & _ & -> & _).
    eauto.
Qed.

(** C2, amended. For a merging hash, the split id the loop picks is
    that of a subgroup at minimum distance from the hash-based view, and
    among the subgroups at that minimum distance it is the highest split
    id (the candidates are listed by split id descending and [min] keeps
    the first minimum). *)
Theorem merge_tie_prefers_higher_split_id `{Collaborators} (db : Store)
    (hash_ : option string) (group : list (GroupRow.t string Z)) (old : option Z) :
  (hash_, group) ∈ groupby_first (select_merge db) ->
  merge_target db hash_ group = Ok old ->
  exists new cand view_old winner,
    _merged_entrygrp db (str_key hash_) = Ok new /\
    candidates db int_key (unique (map GroupRow.second group)) = Ok cand /\
    old = Some winner /\ (old, view_old) ∈ cand /\
    forall s view, (s, view) ∈ cand ->
      (distance new view_old <= distance new view)%Q /\
      exists z, s = Some z /\
                ((distance new view == distance new view_old)%Q -> z <= winner).
Proof.
  intros Hin E. unfold merge_target in E.
  apply bind_Ok in E as (new & Enew & E). apply bind_Ok in E as (cand & Ecand & E).
  apply bind_Ok in E as ([best view_old] & Emin & E). injection E as <-. simpl.
  destruct (merge_group_split_ids db hash_ group Hin) as [Hdesc Hsome].
  destruct (candidates_keys db int_key _ cand Ecand) as [Hkeys _].
  apply py_min_first in Emin as (l1 & l2 & El & H1 & H2). simpl in H1, H2.
  assert (Hbest : exists winner, best = Some winner).
  { apply Hsome. rewrite <- Hkeys, El, map_app. apply elem_of_app. right. left. }
  destruct Hbest as (winner & ->).
  exists new, cand, view_old, winner.
  split; [exact Enew|]. split; [exact Ecand|]. split; [reflexivity|].
  split; [rewrite El; apply elem_of_app; right; left|].
  intros s view Hs.
  assert (Hz : exists z, s = Some z).
  { apply Hsome. rewrite <- Hkeys. apply (list_elem_of_fmap_2 fst _ (s, view)), Hs. }
  destruct Hz as (z & ->).
  rewrite <- Hkeys, El, map_app in Hdesc. simpl in Hdesc.
  apply StronglySorted_app in Hdesc as (_ & _ & Hdesc).
  apply StronglySorted_cons in Hdesc as [Hafter _]. rewrite Forall_forall in Hafter.
  rewrite El in Hs. apply elem_of_app in Hs as [Hs|Hs].
  - pose proof (H1 _ Hs) as Hlt. simpl in Hlt. split; [apply Qlt_le_weak, Hlt|].
    exists z. split; [reflexivity|]. intros Etie. rewrite Etie in Hlt.
    destruct (Qlt_irrefl _ Hlt).
  - apply elem_of_cons in Hs as [[= -> ->]|Hs].
    + split; [apply Qle_refl|]. exists winner. split; [reflexivity|]. lia.
    + pose proof (H2 _ Hs) as Hle. simpl in Hle. split; [exact Hle|].
      exists z. split; [reflexivity|]. intros _.
      specialize (Hafter (Some z) (list_elem_of_fmap_2 fst _ (Some z, view) Hs)).
      simpl in Hafter. rewrite Z.compare_gt_iff in Hafter. lia.
Qed.

Example import_tie :
  (db ← import_bibfiles (H:=sample) empty_store tie_bibfiles;
   generate_hashes (H:=sample) db) = Ok tie_store.
Proof. vm_compute. reflexivity. Qed.

Lemma assign_ids_tie : assign_ids (H:=sample) tie_store = Ok tie_resolved.
Proof. vm_compute. reflexivity. Qed.

(** The views of split ids 1 and 2 are equally far from the view of the
    hash, and the whole group is resolved to 2. *)
Lemma merge_tie_goes_to_higher_split_id :
  (new ← _merged_entrygrp tie_store (StrKey "Smith_Grammar1999");
   view1 ← _merged_entrygrp tie_store (IntKey 1);
   view2 ← _merged_entrygrp tie_store (IntKey 2);
   Ok (Qeq_bool (distance (H:=sample) new view1) (distance (H:=sample) new view2)))
  = Ok true /\
  assign_ids (H:=sample) tie_store = Ok tie_resolved /\
  map Entry.srefid (entries tie_resolved) = [None; Some 1; Some 2] /\
  map Entry.id (entries tie_resolved) = [Some 2; Some 2; Some 2].
Proof.
  split; [vm_compute; reflexivity|]. split; [apply assign_ids_tie|].
  split; reflexivity.
Qed.

Lemma merge_tie_prefers_higher_split_id_witness :
  (Some "Smith_Grammar1999", tie_group)
    ∈ groupby_first (select_merge (reset_entries tie_store)) /\
  merge_target (H:=sample) (reset_entries tie_store) (Some "Smith_Grammar1999") tie_group
  = Ok (Some 2) /\
  exists new cand view_old winner,
    _merged_entrygrp (reset_entries tie_store) (str_key (Some "Smith_Grammar1999"))
    = Ok new /\
    candidates (reset_entries tie_store) int_key (unique (map GroupRow.second tie_group))
    = Ok cand /\
    Some 2 = Some winner /\ (Some 2, view_old) ∈ cand /\
    forall s view, (s, view) ∈ cand ->
      (distance (H:=sample) new view_old <= distance (H:=sample) new view)%Q /\
      exists z, s = Some z /\
                ((distance (H:=sample) new view == distance (H:=sample) new view_old)%Q ->
                 z <= winner).
Proof.
  assert (Hin : (Some "Smith_Grammar1999", tie_group)
                  ∈ groupby_first (select_merge (reset_entries tie_store))).
  { vm_compute. left. }
  assert (Hold : merge_target (H:=sample) (reset_entries tie_store)
                   (Some "Smith_Grammar1999") tie_group = Ok (Some 2)).
  { vm_compute. reflexivity. }
  split; [exact Hin|]. split; [exact Hold|].
  apply (merge_tie_prefers_higher_split_id (H:=sample) (reset_entries tie_store)
           (Some "Smith_Grammar1999") tie_group (Some 2) Hin Hold).
Defined.

(** ** assign_ids: the stages *)

Lemma update_where_elem cond set db e' :
  e' ∈ entries (update_where cond set db) <->
  exists e, e ∈ entries db /\ e' = if cond e then set e else e.
Proof.
  unfold update_where. simpl. rewrite list_elem_of_fmap. split.
  - intros (e & -> & He). eauto.
  - intros (e & He & ->). eauto.
Qed.

Lemma update_where_keeps {C} (cols : Entry.t -> C) cond set db :
  (forall e, cols (set e) = cols e) ->
  map cols (entries (update_where cond set db)) = map cols (entries db).
Proof.
  intros Hset. unfold update_where. simpl. rewrite map_map. apply map_ext.
  intros e. destruct (cond e); [apply Hset|reflexivity].
Qed.

Lemma same_cols_elem {C} (cols : Entry.t -> C) db db' e :
  map cols (entries db) = map cols (entries db') -> e ∈ entries db ->
  exists e', e' ∈ entries db' /\ cols e' = cols e.
Proof.
  intros E He. apply (list_elem_of_fmap_2 cols) in He.
  change (cols e ∈ map cols (entries db)) in He.
  rewrite E in He. apply list_elem_of_fmap in He as (e' & Hc & He'). eauto.
Qed.

(** *** Stages 0 and 1 *)

Lemma reset_entries_state db : split_state (reset_entries db).
Proof.
  intros e He. unfold reset_entries in He. apply update_where_elem in He as (e0 & _ & ->).
  simpl. auto.
Qed.

Lemma resolve_splits_state `{Collaborators} db db' :
  split_state db -> resolve_splits db = Ok db' ->
  split_state db' /\ map old_grouping (entries db') = map old_grouping (entries db).
Proof.
  intros Hs E. unfold resolve_splits in E.
  apply (foldM_invariant
           (fun s => split_state s /\
                     map old_grouping (entries s) = map old_grouping (entries db))
           _ _ _ _ (conj Hs eq_refl)) in E; [exact E|].
  intros s [refid group] s' _ [Hst Hcols] Hstep.
  apply bind_Ok in Hstep as (new & _ & [= <-]). split.
  - intros e He. unfold update_split in He.
    apply update_where_elem in He as (e0 & He0 & ->).
    destruct (Hst e0 He0) as [Hid Hsr].
    destruct (holds _); [|auto]. simpl. split; [exact Hid|discriminate].
  - rewrite <- Hcols. apply update_where_keeps. reflexivity.
Qed.

(** What the [nosplits] assertion says once every record has a hash. *)
Lemma nosplits_true db :
  allhash db = true -> nosplits db = true ->
  forall e1 e2 x, e1 ∈ entries db -> e2 ∈ entries db ->
    Entry.srefid e1 = Some x -> Entry.srefid e2 = Some x ->
    Entry.hash e1 = Entry.hash e2.
Proof.
  intros Hall Hno e1 e2 x H1 H2 Hx1 Hx2.
  rewrite allhash_true in Hall.
  destruct (Hall e1 H1) as (h1 & Hh1), (Hall e2 H2) as (h2 & Hh2).
  destruct (decide (h1 = h2)) as [->|Hne]; [congruence|]. exfalso.
  unfold nosplits, exists_other in Hno. rewrite not_existsb_elem in Hno.
  specialize (Hno e2 H2). simpl in Hno. rewrite existsb_false in Hno.
  specialize (Hno e1 H1). apply not_true_iff_false in Hno. apply Hno.
  apply holds_and. split; [apply holds_eq; eauto|apply holds_ne; eauto 10].
Qed.

Lemma nomerges_true db :
  nomerges db = true ->
  forall e1 e2 h i1 i2, e1 ∈ entries db -> e2 ∈ entries db ->
    Entry.hash e1 = Some h -> Entry.hash e2 = Some h ->
    Entry.id e1 = Some i1 -> Entry.id e2 = Some i2 -> i1 = i2.
Proof.
  intros Hno e1 e2 h i1 i2 H1 H2 Hh1 Hh2 Hi1 Hi2.
  destruct (decide (i1 = i2)) as [|Hne]; [assumption|]. exfalso.
  unfold nomerges, exists_other in Hno. rewrite not_existsb_elem in Hno.
  specialize (Hno e2 H2). simpl in Hno. rewrite existsb_false in Hno.
  specialize (Hno e1 H1). apply not_true_iff_false in Hno. apply Hno.
  apply holds_and. split; [apply holds_eq; eauto|apply holds_ne; eauto 10].
Qed.

(** *** Stages 2 to 4 *)

Lemma merge_target_elem `{Collaborators} db1 db hash_ group old :
  (hash_, group) ∈ groupby_first (select_merge db1) ->
  merge_target db hash_ group = Ok old ->
  exists e0, e0 ∈ entries db1 /\ Entry.srefid e0 = old /\ Entry.hash e0 = hash_.
Proof.
  intros Hin E. unfold merge_target in E.
  apply bind_Ok in E as (new & _ & E). apply bind_Ok in E as (cand & Ecand & E).
  apply bind_Ok in E as ([best view] & Emin & [= <-]). simpl.
  destruct (candidates_keys db int_key _ cand Ecand) as [Hkeys _].
  apply py_min_first in Emin as (l1 & l2 & El & _).
  assert (Hb : best ∈ unique (map GroupRow.second group)).
  { rewrite <- Hkeys, El, map_app. apply elem_of_app. right. left. }
  apply unique_elem, list_elem_of_fmap in Hb as (r & -> & Hr).
  destruct (groupby_group _ _ _ _ Hin) as [_ Hk]. destruct (Hk r Hr) as [Hsel Hfirst].
  unfold select_merge in Hsel.
  apply order_by_elem, entry_file_elem in Hsel as (e0 & He0 & _ & Hf & Hs).
  exists e0. split; [exact He0|]. split; congruence.
Qed.

Lemma resolve_merges_state `{Collaborators} db1 db2 :
  split_state db1 -> resolve_merges db1 = Ok db2 ->
  ids_from_split_ids db1 db2 /\
  map split_grouping (entries db2) = map split_grouping (entries db1).
Proof.
  intros Hs E. unfold resolve_merges in E.
  apply (foldM_invariant
           (fun s => ids_from_split_ids db1 s /\
                     map split_grouping (entries s) = map split_grouping (entries db1))
           _ _ db1 db2) in E; [exact E| |].
  - split; [|reflexivity]. intros e i He Hi. destruct (Hs e He) as [Hid _]. congruence.
  - intros s [hash_ group] s' Hin [Hids Hcols] Hstep.
    apply bind_Ok in Hstep as (old & Hold & [= <-]). split.
    + intros e i He Hi. unfold update_merge in He.
      apply update_where_elem in He as (e1 & He1 & ->).
      destruct (holds _) eqn:Hc; [|apply (Hids e1 i He1 Hi)].
      simpl in Hi. subst old. simpl.
      apply holds_and in Hc as [Hc _]. apply holds_eq in Hc as (h & Hh & ->).
      destruct (merge_target_elem db1 s _ _ _ Hin Hold) as (e0 & He0 & Hsr & Hh0).
      exists e0. split; [exact He0|]. split; congruence.
    + rewrite <- Hcols. apply update_where_keeps. reflexivity.
Qed.

Lemma update_unchanged_state db1 db2 :
  ids_from_split_ids db1 db2 ->
  map split_grouping (entries db2) = map split_grouping (entries db1) ->
  ids_from_split_ids db1 (update_unchanged db2) /\
  map split_grouping (entries (update_unchanged db2)) = map split_grouping (entries db1).
Proof.
  intros Hids Hcols. split.
  - intros e i He Hi. unfold update_unchanged in He.
    apply update_where_elem in He as (e1 & He1 & ->).
    destruct (_ && _) eqn:Hc; [|apply (Hids e1 i He1 Hi)].
    simpl in Hi |- *.
    destruct (same_cols_elem split_grouping db2 db1 e1 Hcols He1) as (e0 & He0 & E0).
    unfold split_grouping in E0. injection E0 as _ Hh Hs.
    exists e0. split; [exact He0|]. split; congruence.
  - rewrite <- Hcols. apply update_where_keeps. reflexivity.
Qed.

(** Stage 4 copies ids that records with the same hash already have. *)
Lemma update_identified_elem db e' :
  e' ∈ entries (update_identified db) ->
  exists e, e ∈ entries db /\ split_grouping e' = split_grouping e /\
    (Entry.id e' = Entry.id e \/
     exists other, other ∈ entries db /\ Entry.hash other = Entry.hash e /\
                   Entry.id other = Entry.id e' /\ Entry.id e' <> None).
Proof.
  intros He'. unfold update_identified in He'.
  apply update_where_elem in He' as (e & He & ->). exists e. split; [exact He|].
  destruct (_ && _) eqn:Hc; [|auto]. simpl. split; [reflexivity|]. right.
  unfold identified_id.
  destruct (filter _ (entries db)) as [|other rest] eqn:Ef.
  - exfalso. apply andb_true_iff in Hc as [_ Hc]. unfold exists_other in Hc.
    apply existsb_elem in Hc as (other & Ho & Hc).
    assert (Hin : other ∈ filter (fun other =>
                    holds (sql_eq (Entry.hash other) (Entry.hash e))
                    && not_null (Entry.id other) = true) (entries db))
      by (apply list_elem_of_filter; auto).
    rewrite Ef in Hin. inversion Hin.
  - assert (Hin : other ∈ filter (fun other =>
                    holds (sql_eq (Entry.hash other) (Entry.hash e))
                    && not_null (Entry.id other) = true) (entries db))
      by (rewrite Ef; left).
    apply list_elem_of_filter in Hin as [Hcond Ho].
    apply andb_true_iff in Hcond as [Hh Hn].
    apply holds_eq in Hh as (h & Hh1 & Hh2). apply not_null_true in Hn as (i & Hi).
    exists other. repeat split; [exact Ho|congruence|congruence].
Qed.

Lemma allhash_same_cols db db' :
  map old_grouping (entries db') = map old_grouping (entries db) ->
  allhash db = true -> allhash db' = true.
Proof.
  intros Hcols Hall. rewrite allhash_true in *. intros e He.
  destruct (same_cols_elem old_grouping db' db e Hcols He) as (e0 & He0 & E0).
  unfold old_grouping in E0. injection E0 as _ Hh.
  destruct (Hall e0 He0) as (h & Hh0). exists h. congruence.
Qed.

Lemma split_to_old_grouping db db' :
  map split_grouping (entries db') = map split_grouping (entries db) ->
  map old_grouping (entries db') = map old_grouping (entries db).
Proof.
  intros E. apply (f_equal (map (fun c : option Z * option string * option Z => c.1))) in E.
  rewrite !map_map in E. exact E.
Qed.

(** *** Stage 5 *)

Lemma enumerate_elem {A} (l : list A) (start : Z) i x :
  (i, x) ∈ enumerate l start ->
  exists k, l !! k = Some x /\ i = start + Z.of_nat k.
Proof.
  intros Hin. apply list_elem_of_lookup_1 in Hin as [k Hk].
  rewrite enumerate_lookup in Hk. destruct (l !! k) as [y|] eqn:E; [|discriminate].
  injection Hk as <- <-. eauto.
Qed.

Lemma new_params_hash db i h :
  (i, h) ∈ new_params db -> h ∈ select_new db /\ select_nextid db <= i.
Proof.
  intros Hin. apply enumerate_elem in Hin as (k & Hk & ->).
  split; [eapply list_elem_of_lookup_2, Hk|lia].
Qed.

Lemma new_params_id_once db i h1 h2 :
  (i, h1) ∈ new_params db -> (i, h2) ∈ new_params db -> h1 = h2.
Proof.
  intros H1 H2. apply enumerate_elem in H1 as (k1 & Hk1 & E1), H2 as (k2 & Hk2 & E2).
  assert (k1 = k2) by lia. congruence.
Qed.

Lemma new_params_hash_once db i1 i2 h :
  (i1, h) ∈ new_params db -> (i2, h) ∈ new_params db -> i1 = i2.
Proof.
  intros H1 H2. apply enumerate_elem in H1 as (k1 & Hk1 & E1), H2 as (k2 & Hk2 & E2).
  pose proof (NoDup_lookup _ k1 k2 h (select_new_NoDup db) Hk1 Hk2). subst. reflexivity.
Qed.

Lemma new_params_covers db h :
  h ∈ select_new db -> exists i, (i, h) ∈ new_params db.
Proof.
  intros Hin. apply list_elem_of_lookup_1 in Hin as [k Hk].
  exists (select_nextid db + Z.of_nat k). unfold new_params.
  apply (list_elem_of_lookup_2 _ k). rewrite enumerate_lookup, Hk. reflexivity.
Qed.

(** A record after stage 5: its hash got a new id, or it keeps the id
    it had. *)
Lemma assign_new_elem db e' :
  (forall e, e ∈ entries db -> exists h, Entry.hash e = Some h) ->
  e' ∈ entries (assign_new db) ->
  exists e, e ∈ entries db /\ Entry.hash e' = Entry.hash e /\
    ((exists i, (i, Entry.hash e) ∈ new_params db /\ Entry.id e' = Some i) \/
     ((Entry.hash e ∉ select_new db) /\ e' = e /\ exists i, Entry.id e = Some i)).
Proof.
  intros Hall He'. unfold assign_new in He'. rewrite update_new_entries in He'.
  apply list_elem_of_fmap in He' as (e & -> & He).
  exists e. split; [exact He|]. split; [apply update_new_row_hash|].
  destruct (Hall e He) as (h & Hh).
  destruct (decide (Entry.hash e ∈ select_new db)) as [Hin|Hnotin].
  - left. destruct (new_params_covers db _ Hin) as (i & Hi). exists i.
    split; [exact Hi|]. rewrite Hh in Hi.
    apply (update_new_row_id _ e i h); [|exact Hi|exact Hh].
    unfold new_params. rewrite enumerate_snd. apply select_new_NoDup.
  - right. split; [exact Hnotin|]. split.
    + apply update_new_row_other. intros i Hi.
      apply Hnotin. apply (new_params_hash db i), Hi.
    + destruct (Entry.id e) as [i|] eqn:Hid; [eauto|].
      exfalso. apply Hnotin. apply select_new_elem. eauto.
Qed.

(** * Further properties *)

(** ** import_bibfiles: what it accepts and what it builds *)

Lemma next_pk_gt pks pk : pk ∈ pks -> pk < next_pk pks.
Proof.
  unfold next_pk. induction pks as [|x pks IH]; simpl; intros Hin.
  - inversion Hin.
  - apply elem_of_cons in Hin as [->|Hin]; [lia|]. specialize (IH Hin). lia.
Qed.

Lemma next_pk_fresh pks : next_pk pks ∉ pks.
Proof. intros Hin. apply next_pk_gt in Hin. lia. Qed.

Lemma next_pk_pos pks : 0 < next_pk pks.
Proof.
  unfold next_pk. assert (0 <= foldr Z.max 0 pks); [|lia].
  induction pks; simpl; lia.
Qed.

Lemma insert_value_Ok db v db' :
  insert_value db v = Ok db' <->
  Value.field v <> "" /\ (value_key v ∉ map value_key (values db)) /\
  db' = mkStore (files db) (entries db) (values db ++ [v]).
Proof.
  unfold insert_value.
  change (map (fun v0 => (Value.entry_pk v0, Value.field v0)) (values db))
    with (map value_key (values db)).
  change (Value.entry_pk v, Value.field v) with (value_key v).
  split.
  - intros E. destruct (_ || _) eqn:C in E; [discriminate|].
    apply orb_false_iff in C as [C1 C2].
    apply bool_decide_eq_false in C1, C2. injection E as <-. auto.
  - intros (H1 & H2 & ->). rewrite (bool_decide_eq_false_2 _ H1).
    rewrite (bool_decide_eq_false_2 _ H2). reflexivity.
Qed.

Lemma insert_values_spec db vs db' :
  NoDup (map value_key (values db)) ->
  foldM insert_value db vs = Ok db' <->
  Forall (fun v => Value.field v <> "") vs /\
  NoDup (map value_key (values db ++ vs)) /\
  db' = mkStore (files db) (entries db) (values db ++ vs).
Proof.
  revert db. induction vs as [|v vs IH]; simpl; intros db Hnd.
  - rewrite app_nil_r. destruct db; simpl. split.
    + intros [= <-]. auto.
    + intros (_ & _ & ->). reflexivity.
  - rewrite bind_Ok. split.
    + intros (db1 & E1 & E2). apply insert_value_Ok in E1 as (Hf & Hk & ->).
      apply IH in E2 as (Hfs & Hnd' & ->); simpl in *.
      * rewrite <- app_assoc in *. auto.
      * rewrite map_app. simpl. apply NoDup_app. split; [exact Hnd|].
        split; [|apply NoDup_singleton].
        intros x Hx Hx'. apply list_elem_of_singleton in Hx' as ->. auto.
    + intros (Hfs & Hnd' & ->). apply Forall_cons in Hfs as [Hf Hfs].
      assert (Hnd1 : NoDup (map value_key (values db ++ [v]))).
      { rewrite (assoc_L app _ [v] vs) in Hnd'. rewrite map_app in Hnd'.
        apply NoDup_app in Hnd' as [H1 _]. exact H1. }
      eexists. split.
      * apply insert_value_Ok. split; [exact Hf|]. split; [|reflexivity].
        rewrite map_app in Hnd1. apply NoDup_app in Hnd1 as (_ & Hd & _).
        intros Hin. apply (Hd _ Hin). left.
      * apply IH; simpl; [exact Hnd1|].
        rewrite <- app_assoc. simpl. auto.
Qed.

Lemma value_rows_keys entry_pk e :
  map value_key (value_rows entry_pk e)
  = map (pair entry_pk) (ENTRYTYPE :: map fst (BibEntry.fields e)).
Proof.
  unfold value_rows. simpl. f_equal. rewrite !map_map. apply map_ext.
  intros [f v]. reflexivity.
Qed.

Lemma value_rows_entry_pk entry_pk e v :
  v ∈ value_rows entry_pk e -> Value.entry_pk v = entry_pk.
Proof.
  unfold value_rows. intros Hv. apply elem_of_cons in Hv as [->|Hv]; [reflexivity|].
  apply list_elem_of_fmap in Hv as ([f x] & -> & _). reflexivity.
Qed.

Lemma value_rows_fields entry_pk e :
  map Value.field (value_rows entry_pk e) = ENTRYTYPE :: map fst (BibEntry.fields e).
Proof.
  unfold value_rows. simpl. f_equal. rewrite !map_map. apply map_ext.
  intros [f v]. reflexivity.
Qed.

Lemma import_entry_spec `{Collaborators} file_pk db e db' :
  wellformed db ->
  import_entry file_pk db e = Ok db' <->
  valid_entry e /\ ((file_pk, BibEntry.key e) ∉ map entry_key (entries db)) /\
  db' = with_record db file_pk e.
Proof.
  intros Hwf. unfold import_entry, insert_entry.
  change (map (fun e0 => (Entry.file_pk e0, Entry.bibkey e0)) (entries db))
    with (map entry_key (entries db)).
  set (entry_pk := next_pk (map Entry.pk (entries db))).
  set (refid := int_of_text <$> od_get (BibEntry.fields e) REF_ID_FIELD).
  assert (Hfresh : forall v, v ∈ values db -> Value.entry_pk v <> entry_pk).
  { intros v Hv E. apply (wf_value_entry _ Hwf) in Hv. rewrite E in Hv.
    apply next_pk_fresh in Hv. exact Hv. }
  assert (Hvals : forall db0, values db0 = values db ->
            (Forall (fun v => Value.field v <> "") (value_rows entry_pk e) /\
             NoDup (map value_key (values db0 ++ value_rows entry_pk e)))
            <-> ("" ∉ map fst (BibEntry.fields e)) /\
                NoDup (ENTRYTYPE :: map fst (BibEntry.fields e))).
  { intros db0 ->. rewrite map_app, value_rows_keys. split.
    - intros [Hf Hnd]. apply NoDup_app in Hnd as (_ & _ & Hnd).
      apply NoDup_fmap in Hnd; [|intros x y [=]; assumption].
      split; [|exact Hnd]. intros Hin.
      apply list_elem_of_fmap in Hin as ([f x] & Hf0 & Hin). simpl in Hf0. subst f.
      rewrite Forall_forall in Hf.
      apply (Hf (Value.mk entry_pk "" x)); [|reflexivity].
      unfold value_rows. right.
      apply (list_elem_of_fmap_2 (fun '(field, value) => Value.mk entry_pk field value)
               _ ("", x)), Hin.
    - intros [Hne Hnd]. split.
      + rewrite Forall_forall. intros v Hv Hf.
        apply (list_elem_of_fmap_2 Value.field) in Hv.
        change (Value.field v ∈ map Value.field (value_rows entry_pk e)) in Hv.
        rewrite value_rows_fields, Hf in Hv.
        apply elem_of_cons in Hv as [Hv|Hv]; [discriminate|auto].
      + apply NoDup_app. split; [apply (wf_value_key _ Hwf)|]. split.
        * intros k Hk Hk'. apply list_elem_of_fmap in Hk as (v & -> & Hv).
          apply list_elem_of_fmap in Hk' as (f & Hk' & _).
          unfold value_key in Hk'. injection Hk' as Hpk _.
          apply (Hfresh v Hv Hpk).
        * apply NoDup_fmap; [intros x y [=]; assumption|exact Hnd]. }
  split.
  - intros E. apply bind_Ok in E as ([pk db1] & E1 & E2).
    destruct (_ || _) eqn:C in E1; [discriminate|]. injection E1 as <- <-.
    apply orb_false_iff in C as [C C3]. apply orb_false_iff in C as [C1 C2].
    apply bool_decide_eq_false in C1, C3.
    change (map _ ((ENTRYTYPE, BibEntry.type e) :: BibEntry.fields e))
      with (value_rows entry_pk e) in E2.
    apply insert_values_spec in E2 as (Hf & Hnd & ->); [|apply (wf_value_key _ Hwf)].
    simpl in *. destruct (proj1 (Hvals db eq_refl) (conj Hf Hnd)) as [Hne Hnd'].
    split; [|split; [exact C3|reflexivity]].
    split; [exact C1|]. split; [|split; assumption].
    intros x Hx. fold refid in C2. unfold refid in C2. rewrite Hx in C2. simpl in C2.
    apply negb_false_iff, Z.ltb_lt in C2. exact C2.
  - intros ((Hk & Hr & Hne & Hnd) & Hkey & ->).
    rewrite (bool_decide_eq_false_2 _ Hk), (bool_decide_eq_false_2 _ Hkey).
    assert (C2 : match refid with Some r => negb (0 <? r) | None => false end = false).
    { unfold refid. destruct (od_get _ _) as [x|] eqn:Hx; simpl; [|reflexivity].
      apply negb_false_iff, Z.ltb_lt, Hr. reflexivity. }
    rewrite C2. change (false || false || false) with false.
    unfold mbind, result_bind. cbv beta iota.
    change (map _ ((ENTRYTYPE, BibEntry.type e) :: BibEntry.fields e))
      with (value_rows entry_pk e).
    destruct (proj2 (Hvals db eq_refl) (conj Hne Hnd)) as [H1 H2].
    match goal with |- foldM _ ?d _ = _ =>
      apply (proj2 (insert_values_spec d _ _ (wf_value_key _ Hwf))) end.
    split; [exact H1|]. split; [exact H2|reflexivity].
Qed.

Lemma foldM_spec {A S} (f : S -> A -> result S) (g : S -> A -> S)
    (ok : S -> A -> Prop) (Inv : S -> Prop) :
  (forall s x s', Inv s -> (f s x = Ok s' <-> ok s x /\ s' = g s x)) ->
  (forall s x, Inv s -> ok s x -> Inv (g s x)) ->
  forall l s s', Inv s ->
    (foldM f s l = Ok s' <-> all_ok ok g s l /\ s' = foldl g s l).
Proof.
  intros Hf Hg. induction l as [|x l IH]; simpl; intros s s' Hs.
  - split; [intros [= <-]; auto|intros [_ ->]; reflexivity].
  - rewrite bind_Ok. split.
    + intros (s1 & E1 & E2). apply Hf in E1 as [Hok ->]; [|exact Hs].
      apply IH in E2 as [Hall ->]; [auto|apply Hg; assumption].
    + intros [[Hok Hall] ->]. exists (g s x). split; [apply Hf; auto|].
      apply IH; [apply Hg; assumption|auto].
Qed.

Lemma foldl_invariant {A S} (P : S -> Prop) (g : S -> A -> S) (ok : S -> A -> Prop) :
  (forall s x, P s -> ok s x -> P (g s x)) ->
  forall l s, P s -> all_ok ok g s l -> P (foldl g s l).
Proof.
  intros Hg. induction l as [|x l IH]; simpl; intros s Hs Hall; [exact Hs|].
  destruct Hall as [Hok Hall]. apply IH; [apply Hg; assumption|exact Hall].
Qed.

Lemma with_record_wf `{Collaborators} db file_pk e :
  wellformed db -> file_pk ∈ map File.pk (files db) ->
  valid_entry e -> (file_pk, BibEntry.key e) ∉ map entry_key (entries db) ->
  wellformed (with_record db file_pk e).
Proof.
  intros Hwf Hfile (Hk & Hr & Hne & Hnd) Hkey. unfold with_record.
  set (entry_pk := next_pk (map Entry.pk (entries db))).
  assert (Hfresh : entry_pk ∉ map Entry.pk (entries db)) by apply next_pk_fresh.
  constructor; simpl.
  - apply (wf_file_pk _ Hwf).
  - apply (wf_file_name _ Hwf).
  - rewrite map_app. simpl. apply NoDup_app. split; [apply (wf_entry_pk _ Hwf)|].
    split; [|apply NoDup_singleton].
    intros x Hx Hx'. apply list_elem_of_singleton in Hx' as ->. auto.
  - rewrite map_app. simpl. apply NoDup_app. split; [apply (wf_entry_key _ Hwf)|].
    split; [|apply NoDup_singleton].
    intros x Hx Hx'. apply list_elem_of_singleton in Hx' as ->. auto.
  - rewrite map_app, value_rows_keys. apply NoDup_app.
    split; [apply (wf_value_key _ Hwf)|]. split.
    + intros k Hk0 Hk'. apply list_elem_of_fmap in Hk0 as (v & -> & Hv).
      apply list_elem_of_fmap in Hk' as (f & Hk' & _).
      unfold value_key in Hk'. injection Hk' as Hpk _.
      apply (wf_value_entry _ Hwf) in Hv. rewrite Hpk in Hv. auto.
    + apply NoDup_fmap; [intros x y [=]; assumption|exact Hnd].
  - intros e0 He0. apply elem_of_app in He0 as [He0|He0].
    + apply (wf_entry_file _ Hwf), He0.
    + apply list_elem_of_singleton in He0 as ->. exact Hfile.
  - intros v Hv. rewrite map_app. apply elem_of_app.
    apply elem_of_app in Hv as [Hv|Hv].
    + left. apply (wf_value_entry _ Hwf), Hv.
    + right. apply value_rows_entry_pk in Hv as ->. simpl. left.
  - intros e0 He0. rewrite map_app. apply elem_of_app.
    apply elem_of_app in He0 as [He0|He0].
    + left. apply (wf_entry_type _ Hwf), He0.
    + right. apply list_elem_of_singleton in He0 as ->.
      rewrite value_rows_keys. simpl. left.
  - apply (wf_file_check _ Hwf).
  - intros e0 He0. apply elem_of_app in He0 as [He0|He0].
    + apply (wf_entry_check _ Hwf), He0.
    + apply list_elem_of_singleton in He0 as ->. simpl. split; [exact Hk|].
      intros r Hr0. destruct (od_get _ _) as [x|] eqn:Hx; [|discriminate].
      injection Hr0 as <-. apply Hr. reflexivity.
  - intros v Hv. apply elem_of_app in Hv as [Hv|Hv].
    + apply (wf_value_check _ Hwf), Hv.
    + apply (list_elem_of_fmap_2 Value.field) in Hv.
      change (Value.field v ∈ map Value.field (value_rows entry_pk e)) in Hv.
      rewrite value_rows_fields in Hv. intros E. rewrite E in Hv.
      apply elem_of_cons in Hv as [Hv|Hv]; [discriminate|auto].
Qed.

Lemma with_record_files `{Collaborators} db file_pk e :
  files (with_record db file_pk e) = files db.
Proof. reflexivity. Qed.

Lemma import_entries_spec `{Collaborators} file_pk db es db' :
  wellformed db -> file_pk ∈ map File.pk (files db) ->
  foldM (import_entry file_pk) db es = Ok db' <->
  all_ok (record_ok file_pk) (fun db e => with_record db file_pk e) db es /\
  db' = with_records file_pk db es.
Proof.
  intros Hwf Hfile.
  apply (foldM_spec _ _ _ (fun s => wellformed s /\ file_pk ∈ map File.pk (files s))).
  - intros s x s' [Hs _]. unfold record_ok. rewrite import_entry_spec by exact Hs.
    tauto.
  - intros s x [Hs Hf] [Hv Hk]. split; [apply with_record_wf; assumption|exact Hf].
  - auto.
Qed.

Lemma record_ok_all `{Collaborators} file_pk db es :
  all_ok (record_ok file_pk) (fun db e => with_record db file_pk e) db es <->
  Forall valid_entry es /\
  NoDup (map BibEntry.key es) /\
  forall e, e ∈ es -> (file_pk, BibEntry.key e) ∉ map entry_key (entries db).
Proof.
  revert db. induction es as [|e es IH]; simpl; intros db.
  - split; [|auto]. intros _. split; [constructor|]. split; [constructor|].
    intros e He. inversion He.
  - rewrite IH. unfold record_ok. simpl. rewrite map_app. simpl.
    rewrite Forall_cons, NoDup_cons. split.
    + intros ((Hv & Hk) & Hvs & Hnd & Hks).
      split; [split; assumption|]. split; [split; [|assumption]|].
      * intros Hin. apply list_elem_of_fmap in Hin as (e' & E & He').
        apply (Hks e' He'). apply elem_of_app. right. rewrite <- E. left.
      * intros e' He'. apply elem_of_cons in He' as [->|He']; [exact Hk|].
        intros Hin. apply (Hks e' He'). apply elem_of_app. left. exact Hin.
    + intros ((Hv & Hvs) & (Hk & Hnd) & Hks).
      split; [split; [assumption|apply Hks; left]|].
      split; [assumption|]. split; [assumption|].
      * intros e' He' Hin. apply elem_of_app in Hin as [Hin|Hin].
        -- apply (Hks e'); [right; exact He'|exact Hin].
        -- apply list_elem_of_singleton in Hin. injection Hin as Hin.
           apply Hk. rewrite <- Hin. apply list_elem_of_fmap_2, He'.
Qed.

Lemma with_records_wf `{Collaborators} file_pk db es :
  wellformed db -> file_pk ∈ map File.pk (files db) ->
  all_ok (record_ok file_pk) (fun db e => with_record db file_pk e) db es ->
  wellformed (with_records file_pk db es) /\
  files (with_records file_pk db es) = files db.
Proof.
  intros Hwf Hfile Hall.
  apply (foldl_invariant
           (fun s => wellformed s /\ files s = files db) _ (record_ok file_pk));
    [|auto|exact Hall].
  intros s x [Hs Hf] [Hv Hk]. split; [|exact Hf].
  apply with_record_wf; try assumption. rewrite Hf. exact Hfile.
Qed.

Lemma insert_file_Ok db b file_pk db' :
  insert_file db b = Ok (file_pk, db') <->
  file_ok db b /\ file_pk = next_pk (map File.pk (files db)) /\ db' = with_file db b.
Proof.
  unfold insert_file, file_ok. split.
  - intros E. destruct (_ || _) eqn:C in E; [discriminate|]. injection E as <- <-.
    apply orb_false_iff in C as [C C3]. apply orb_false_iff in C as [C1 C2].
    apply bool_decide_eq_false in C1, C3. apply negb_false_iff, Z.ltb_lt in C2. auto.
  - intros ((H1 & H2 & H3) & -> & ->).
    rewrite (bool_decide_eq_false_2 _ H1), (bool_decide_eq_false_2 _ H3).
    apply Z.ltb_lt in H2. rewrite H2. reflexivity.
Qed.

Lemma with_file_wf db b :
  wellformed db -> file_ok db b -> wellformed (with_file db b).
Proof.
  intros Hwf (Hn & Hs & Hfresh). unfold with_file. constructor; simpl.
  - rewrite map_app. simpl. apply NoDup_app. split; [apply (wf_file_pk _ Hwf)|].
    split; [|apply NoDup_singleton].
    intros x Hx Hx'. apply list_elem_of_singleton in Hx' as ->.
    apply next_pk_fresh in Hx. exact Hx.
  - rewrite map_app. simpl. apply NoDup_app. split; [apply (wf_file_name _ Hwf)|].
    split; [|apply NoDup_singleton].
    intros x Hx Hx'. apply list_elem_of_singleton in Hx' as ->. auto.
  - apply (wf_entry_pk _ Hwf).
  - apply (wf_entry_key _ Hwf).
  - apply (wf_value_key _ Hwf).
  - intros e He. rewrite map_app. apply elem_of_app. left.
    apply (wf_entry_file _ Hwf), He.
  - apply (wf_value_entry _ Hwf).
  - apply (wf_entry_type _ Hwf).
  - intros f Hf. apply elem_of_app in Hf as [Hf|Hf].
    + apply (wf_file_check _ Hwf), Hf.
    + apply list_elem_of_singleton in Hf as ->. simpl. auto.
  - apply (wf_entry_check _ Hwf).
  - apply (wf_value_check _ Hwf).
Qed.

Lemma import_bibfile_spec `{Collaborators} db b db' :
  wellformed db ->
  import_bibfile db b = Ok db' <-> bibfile_ok db b /\ db' = with_bibfile db b.
Proof.
  intros Hwf. unfold import_bibfile, bibfile_ok, valid_bibfile, with_bibfile.
  set (file_pk := next_pk (map File.pk (files db))).
  assert (Hin : file_pk ∈ map File.pk (files (with_file db b))).
  { unfold with_file. simpl. rewrite map_app. apply elem_of_app. right. left. }
  assert (Hkeys : forall e : BibEntry.t,
            (file_pk, BibEntry.key e) ∉ map entry_key (entries (with_file db b))).
  { intros e Hk. apply list_elem_of_fmap in Hk as (r & E & Hr).
    apply (wf_entry_file _ Hwf) in Hr. injection E as E _. rewrite <- E in Hr.
    apply next_pk_fresh in Hr. exact Hr. }
  rewrite bind_Ok. split.
  - intros ([pk db1] & E1 & E2). apply insert_file_Ok in E1 as (Hok & -> & ->).
    fold file_pk in E2.
    apply import_entries_spec in E2 as [Hall ->];
      [|apply with_file_wf; assumption|exact Hin].
    apply record_ok_all in Hall as (Hv & Hnd & _).
    destruct Hok as (? & ? & ?). auto 10.
  - intros (((Hn & Hs & Hnd & Hv) & Hfresh) & ->).
    exists (file_pk, with_file db b). split.
    + apply insert_file_Ok. unfold file_ok. auto.
    + apply import_entries_spec; [apply with_file_wf; unfold file_ok; auto|exact Hin|].
      split; [|reflexivity]. apply record_ok_all. auto.
Qed.

Lemma with_bibfile_wf `{Collaborators} db b :
  wellformed db -> bibfile_ok db b ->
  wellformed (with_bibfile db b) /\ files (with_bibfile db b) = files (with_file db b).
Proof.
  intros Hwf ((Hn & Hs & Hnd & Hv) & Hfresh). unfold with_bibfile.
  apply with_records_wf.
  - apply with_file_wf; unfold file_ok; auto.
  - unfold with_file. simpl. rewrite map_app. apply elem_of_app. right. left.
  - apply record_ok_all. split; [exact Hv|]. split; [exact Hnd|].
    intros e _ Hk. apply list_elem_of_fmap in Hk as (r & E & Hr).
    apply (wf_entry_file _ Hwf) in Hr. injection E as E _. rewrite <- E in Hr.
    apply next_pk_fresh in Hr. exact Hr.
Qed.

Lemma import_bibfiles_spec `{Collaborators} db bibfiles db' :
  wellformed db ->
  import_bibfiles db bibfiles = Ok db' <->
  all_ok bibfile_ok with_bibfile db bibfiles /\ db' = imported_store db bibfiles.
Proof.
  intros Hwf. unfold import_bibfiles, imported_store.
  apply (foldM_spec _ _ _ wellformed); [| |exact Hwf].
  - intros s x s' Hs. apply import_bibfile_spec, Hs.
  - intros s x Hs Hok. apply with_bibfile_wf; assumption.
Qed.

Lemma bibfile_ok_all `{Collaborators} db bibfiles :
  wellformed db ->
  all_ok bibfile_ok with_bibfile db bibfiles <->
  Forall valid_bibfile bibfiles /\
  NoDup (map BibFile.name bibfiles) /\
  forall b, b ∈ bibfiles -> BibFile.name b ∉ map File.name (files db).
Proof.
  revert db. induction bibfiles as [|b bs IH]; simpl; intros db Hwf.
  - split; [|auto]. intros _. split; [constructor|]. split; [constructor|].
    intros b Hb. inversion Hb.
  - rewrite Forall_cons, NoDup_cons. split.
    + intros (Hok & Hall). destruct (with_bibfile_wf db b Hwf Hok) as [Hwf1 Hf1].
      apply IH in Hall as (Hvs & Hnd & Hfresh); [|exact Hwf1].
      rewrite Hf1 in Hfresh. unfold with_file in Hfresh. simpl in Hfresh.
      destruct Hok as [Hv Hn].
      split; [split; assumption|]. split; [split; [|assumption]|].
      * intros Hin. apply list_elem_of_fmap in Hin as (b' & E & Hb').
        apply (Hfresh b' Hb'). rewrite map_app. apply elem_of_app. right.
        simpl. rewrite <- E. left.
      * intros b' Hb'. apply elem_of_cons in Hb' as [->|Hb']; [exact Hn|].
        intros Hin. apply (Hfresh b' Hb'). rewrite map_app. apply elem_of_app.
        left. exact Hin.
    + intros ((Hv & Hvs) & (Hn & Hnd) & Hfresh).
      assert (Hok : bibfile_ok db b) by (split; [exact Hv|apply Hfresh; left]).
      split; [exact Hok|].
      destruct (with_bibfile_wf db b Hwf Hok) as [Hwf1 Hf1].
      apply IH; [exact Hwf1|]. split; [assumption|]. split; [assumption|].
      intros b' Hb'. rewrite Hf1. unfold with_file. simpl. rewrite map_app.
      intros Hin. apply elem_of_app in Hin as [Hin|Hin].
      * apply (Hfresh b'); [right; exact Hb'|exact Hin].
      * apply list_elem_of_singleton in Hin. simpl in Hin. apply Hn.
        rewrite <- Hin. apply list_elem_of_fmap_2, Hb'.
Qed.

Lemma empty_store_wf : wellformed empty_store.
Proof.
  constructor; simpl; try apply NoDup_nil_2; intros x Hx; inversion Hx.
Qed.

Lemma imported_store_wf `{Collaborators} db bibfiles :
  wellformed db -> all_ok bibfile_ok with_bibfile db bibfiles ->
  wellformed (imported_store db bibfiles).
Proof.
  intros Hwf Hall. unfold imported_store.
  apply (foldl_invariant wellformed _ bibfile_ok); [|exact Hwf|exact Hall].
  intros s x Hs Hok. apply with_bibfile_wf; assumption.
Qed.

Lemma foldM_raises {A S} (P : exn -> Prop) (f : S -> A -> result S) :
  (forall s x e, f s x = Raise e -> P e) ->
  forall l s e, foldM f s l = Raise e -> P e.
Proof.
  intros Hf. induction l as [|x l IH]; simpl; intros s e E; [discriminate|].
  destruct (f s x) as [s1|e1] eqn:E1; simpl in E.
  - eapply IH, E.
  - injection E as ->. eapply Hf, E1.
Qed.

Lemma import_raises `{Collaborators} db bibfiles e :
  import_bibfiles db bibfiles = Raise e -> e = IntegrityError.
Proof.
  unfold import_bibfiles. intros E.
  eapply (foldM_raises (fun e => e = IntegrityError)); [|exact E].
  intros s1 b e1.
  unfold import_bibfile, insert_file. destruct (_ || _); simpl; [congruence|].
  intros E1. eapply (foldM_raises (fun e => e = IntegrityError)); [|exact E1].
  intros s2 x e2.
  unfold import_entry, insert_entry.
  destruct (_ || _); unfold mbind, result_bind; cbv beta iota; [congruence|].
  intros E2. eapply (foldM_raises (fun e => e = IntegrityError)); [|exact E2].
  intros s3 v e3.
  unfold insert_value. destruct (_ || _); congruence.
Qed.

Lemma import_accepts `{Collaborators} (bibfiles : list BibFile.t) :
  (exists db, import_bibfiles empty_store bibfiles = Ok db) <-> valid_bibfiles bibfiles.
Proof.
  unfold valid_bibfiles. split.
  - intros [db E]. apply import_bibfiles_spec in E as [Hall _]; [|apply empty_store_wf].
    apply bibfile_ok_all in Hall as (Hv & Hnd & _); [auto|apply empty_store_wf].
  - intros [Hnd Hv]. eexists. apply import_bibfiles_spec; [apply empty_store_wf|].
    split; [|reflexivity]. apply bibfile_ok_all; [apply empty_store_wf|].
    split; [assumption|]. split; [assumption|]. intros b _ Hin. inversion Hin.
Qed.

Lemma import_bibfiles_wf `{Collaborators} bibfiles db :
  import_bibfiles empty_store bibfiles = Ok db -> wellformed db.
Proof.
  intros E. apply import_bibfiles_spec in E as [Hall ->]; [|apply empty_store_wf].
  apply imported_store_wf; [apply empty_store_wf|exact Hall].
Qed.

(** X2. The store [import_bibfiles] builds from nothing satisfies the
    key constraints of the schema, every entry points to a file, every
    value to an entry, and every entry has a type tag row. *)
Theorem import_wellformed `{Collaborators} (bibfiles : list BibFile.t) (db : Store) :
  import_bibfiles empty_store bibfiles = Ok db -> wellformed db.
Proof. apply import_bibfiles_wf. Qed.

(** ** Round trips of the import *)

Lemma imported_store_files `{Collaborators} db bibfiles :
  wellformed db -> all_ok bibfile_ok with_bibfile db bibfiles ->
  map file_stat (files (imported_store db bibfiles))
  = (map file_stat (files db) ++ map bibfile_stat bibfiles)%list.
Proof.
  unfold imported_store. revert db.
  induction bibfiles as [|b bs IH]; simpl; intros db Hwf Hall.
  - rewrite app_nil_r. reflexivity.
  - destruct Hall as [Hok Hall]. destruct (with_bibfile_wf db b Hwf Hok) as [Hwf1 Hf1].
    rewrite (IH _ Hwf1 Hall), Hf1. unfold with_file. simpl.
    rewrite map_app, <- app_assoc. reflexivity.
Qed.

(** A dict filled item by item from pairs with distinct keys holds
    exactly those pairs. *)
Lemma foldl_insert_spec {V} (l : list (string * V)) (m : gmap string V) k v :
  NoDup (map fst l) -> (forall k', k' ∈ map fst l -> m !! k' = None) ->
  foldl (fun d kv => <[kv.1 := kv.2]> d) m l !! k = Some v <->
  (k, v) ∈ l \/ m !! k = Some v.
Proof.
  revert m. induction l as [|[k0 v0] l IH]; simpl; intros m Hnd Hm.
  - split; [auto|]. intros [Hin|Hk]; [inversion Hin|exact Hk].
  - apply NoDup_cons in Hnd as [Hk0 Hnd]. rewrite IH; [|exact Hnd|].
    + rewrite elem_of_cons. destruct (decide (k = k0)) as [->|Hne].
      * rewrite lookup_insert_eq. rewrite (Hm k0) by left. split.
        -- intros [Hin|[= <-]]; [|auto]. exfalso. apply Hk0.
           apply (list_elem_of_fmap_2 fst) in Hin. exact Hin.
        -- intros [[[= <-]|Hin]|Hk]; [auto|auto|discriminate].
      * rewrite lookup_insert_ne by congruence. split.
        -- intros [Hin|Hk]; auto.
        -- intros [[[= -> _]|Hin]|Hk]; [congruence|auto|auto].
    + intros k' Hk'. rewrite lookup_insert_ne; [apply Hm; right; exact Hk'|].
      intros <-. auto.
Qed.

Lemma stat_dict_lookup (l : list (string * (Z * Z))) k v :
  NoDup (map fst l) -> stat_dict l !! k = Some v <-> (k, v) ∈ l.
Proof.
  intros Hnd. unfold stat_dict. rewrite foldl_insert_spec; [|exact Hnd|].
  - rewrite lookup_empty. split; [intros [?|?]; [assumption|discriminate]|auto].
  - intros k' _. apply lookup_empty.
Qed.

Lemma stat_dict_perm (l l' : list (string * (Z * Z))) :
  NoDup (map fst l) -> l ≡ₚ l' -> stat_dict l = stat_dict l'.
Proof.
  intros Hnd Hp. apply map_eq. intros k. apply option_eq. intros v.
  rewrite !stat_dict_lookup; [rewrite Hp; reflexivity|rewrite <- Hp; exact Hnd|exact Hnd].
Qed.

Lemma import_bibfiles_uptodate `{Collaborators} bibfiles db :
  import_bibfiles empty_store bibfiles = Ok db -> is_uptodate db bibfiles = true.
Proof.
  intros E. apply import_bibfiles_spec in E as [Hall ->]; [|apply empty_store_wf].
  pose proof (imported_store_files _ _ empty_store_wf Hall) as Hf. simpl in Hf.
  pose proof (imported_store_wf _ _ empty_store_wf Hall) as Hwf.
  set (db := imported_store empty_store bibfiles) in *.
  unfold is_uptodate, same_as. apply bool_decide_eq_true.
  unfold ondisk, indb. change (map _ bibfiles) with (map bibfile_stat bibfiles).
  change (map (fun f => (File.name f, (File.size f, File.mtime f))))
    with (map file_stat).
  rewrite <- Hf. apply stat_dict_perm.
  - rewrite map_map. apply (wf_file_name _ Hwf).
  - apply fmap_Permutation. symmetry. apply order_by_perm.
Qed.

(** X3. A store that [import_bibfiles] built from the bibfiles is up to
    date with them: [is_uptodate] answers true. *)
Theorem import_is_uptodate `{Collaborators} (bibfiles : list BibFile.t) (db : Store) :
  import_bibfiles empty_store bibfiles = Ok db -> is_uptodate db bibfiles = true.
Proof. apply import_bibfiles_uptodate. Qed.

Lemma foldl_each {A S} (g : S -> A -> S) (ok : S -> A -> Prop) (Inv : S -> Prop)
    (Q : S -> A -> Prop) :
  (forall s x, Inv s -> ok s x -> Inv (g s x) /\ Q (g s x) x) ->
  (forall s x y, Inv s -> ok s y -> Q s x -> Q (g s y) x) ->
  forall l s, Inv s -> all_ok ok g s l -> forall x, x ∈ l -> Q (foldl g s l) x.
Proof.
  intros Hnew Hkeep. induction l as [|y l IH]; simpl; intros s Hs Hall x Hx.
  - inversion Hx.
  - destruct Hall as [Hok Hall]. destruct (Hnew s y Hs Hok) as [Hs1 Hq].
    apply elem_of_cons in Hx as [->|Hx]; [|apply IH; assumption].
    clear IH. revert Hs1 Hq Hall. generalize (g s y). clear Hs Hok.
    induction l as [|z l IH]; simpl; intros s1 Hs1 Hq Hall; [exact Hq|].
    destruct Hall as [Hok Hall]. apply IH; [apply (Hnew s1 z Hs1 Hok)| |exact Hall].
    apply Hkeep; assumption.
Qed.

Lemma filter_none {A} (P : A -> Prop) `{!forall x, Decision (P x)} (l : list A) :
  (forall x, x ∈ l -> ~ P x) -> filter P l = [].
Proof.
  induction l as [|x l IH]; intros Hl; [reflexivity|].
  rewrite filter_cons_False by (apply Hl; left). apply IH.
  intros y Hy. apply Hl. right. exact Hy.
Qed.

Lemma filter_all {A} (P : A -> Prop) `{!forall x, Decision (P x)} (l : list A) :
  (forall x, x ∈ l -> P x) -> filter P l = l.
Proof.
  induction l as [|x l IH]; intros Hl; [reflexivity|].
  rewrite filter_cons_True by (apply Hl; left). f_equal. apply IH.
  intros y Hy. apply Hl. right. exact Hy.
Qed.

(** A row found by a key that no two rows share. *)
Lemma filter_unique {A K} `{EqDecision K} (key : A -> K) (P : A -> Prop)
    `{!forall x, Decision (P x)} (l : list A) (x : A) :
  NoDup (map key l) -> x ∈ l -> P x -> (forall y, y ∈ l -> P y -> key y = key x) ->
  filter P l = [x].
Proof.
  induction l as [|y l IH]; simpl; intros Hnd Hx Hp Hkey; [inversion Hx|].
  apply NoDup_cons in Hnd as [Hy Hnd]. apply elem_of_cons in Hx as [->|Hx].
  - rewrite filter_cons_True by exact Hp. f_equal. apply filter_none.
    intros z Hz Hpz. apply Hy. rewrite <- (Hkey z); [|right; exact Hz|exact Hpz].
    apply list_elem_of_fmap_2, Hz.
  - rewrite filter_cons_False.
    + apply IH; try assumption. intros z Hz. apply Hkey. right. exact Hz.
    + intros Hpy. apply Hy. rewrite (Hkey y); [|left|exact Hpy].
      apply list_elem_of_fmap_2, Hx.
Qed.

Lemma with_record_record_of `{Collaborators} db b e f :
  wellformed db -> f ∈ files db -> File.name f = BibFile.name b ->
  exists r, record_of (with_record db (File.pk f) e) b e f r.
Proof.
  intros Hwf Hf Hn. unfold with_record.
  set (entry_pk := next_pk (map Entry.pk (entries db))).
  exists (entry_row entry_pk (File.pk f) e). unfold record_of. simpl.
  split; [exact Hf|]. split; [exact Hn|]. split; [apply elem_of_app; right; left|].
  split; [reflexivity|]. rewrite filter_app, filter_none, filter_all; [reflexivity| |].
  - intros v Hv. apply value_rows_entry_pk in Hv. exact Hv.
  - intros v Hv E. apply (wf_value_entry _ Hwf) in Hv. rewrite E in Hv.
    apply next_pk_fresh in Hv. exact Hv.
Qed.

Lemma with_record_keeps `{Collaborators} db file_pk e' b e f r :
  record_of db b e f r -> record_of (with_record db file_pk e') b e f r.
Proof.
  intros (Hf & Hn & Hr & Hrow & Hv). unfold with_record, record_of. simpl.
  split; [exact Hf|]. split; [exact Hn|]. split; [apply elem_of_app; left; exact Hr|].
  split; [exact Hrow|]. rewrite filter_app, Hv, filter_none; [apply app_nil_r|].
  intros v Hv' E. apply value_rows_entry_pk in Hv'. rewrite E in Hv'.
  apply (next_pk_fresh (map Entry.pk (entries db))). rewrite <- Hv'.
  apply list_elem_of_fmap_2, Hr.
Qed.

Lemma with_records_keeps `{Collaborators} db file_pk es b e f r :
  record_of db b e f r -> record_of (with_records file_pk db es) b e f r.
Proof.
  unfold with_records. revert db. induction es as [|e' es IH]; simpl; intros db Hr.
  - exact Hr.
  - apply IH, with_record_keeps, Hr.
Qed.

Lemma with_file_keeps `{Collaborators} db b' b e f r :
  record_of db b e f r -> record_of (with_file db b') b e f r.
Proof.
  intros (Hf & Hn & Hr & Hrow & Hv). unfold with_file, record_of. simpl.
  split; [apply elem_of_app; left; exact Hf|]. auto.
Qed.

Lemma with_bibfile_keeps `{Collaborators} db b' b e f r :
  record_of db b e f r -> record_of (with_bibfile db b') b e f r.
Proof. intros Hr. apply with_records_keeps, with_file_keeps, Hr. Qed.

Lemma with_bibfile_record_of `{Collaborators} db b e :
  wellformed db -> bibfile_ok db b -> e ∈ BibFile.iterentries b ->
  exists f r, record_of (with_bibfile db b) b e f r.
Proof.
  intros Hwf [(Hn & Hs & Hnd & Hv) Hfresh] He. unfold with_bibfile.
  set (file_pk := next_pk (map File.pk (files db))).
  set (f := File.mk file_pk (BibFile.name b) (BibFile.size b) (BibFile.mtime b)
                    (BibFile.priority b)).
  assert (Hwf1 : wellformed (with_file db b)) by (apply with_file_wf; unfold file_ok; auto).
  assert (Hin : file_pk ∈ map File.pk (files (with_file db b))).
  { unfold with_file. simpl. rewrite map_app. apply elem_of_app. right. left. }
  assert (Hall : all_ok (record_ok file_pk) (fun db e => with_record db file_pk e)
                   (with_file db b) (BibFile.iterentries b)).
  { apply record_ok_all. split; [exact Hv|]. split; [exact Hnd|].
    intros e0 _ Hk. apply list_elem_of_fmap in Hk as (r & E & Hr).
    apply (wf_entry_file _ Hwf) in Hr. injection E as E _. rewrite <- E in Hr.
    apply next_pk_fresh in Hr. exact Hr. }
  exists f.
  refine (foldl_each (fun db e => with_record db file_pk e) (record_ok file_pk)
            (fun s => wellformed s /\ files s = files (with_file db b))
            (fun s e => exists r, record_of s b e f r)
            _ _ (BibFile.iterentries b) (with_file db b) _ Hall e He); [| |auto].
  - intros s x [Hws Hfs] [Hvx Hkx]. split.
    + split; [|exact Hfs]. apply with_record_wf; try assumption. rewrite Hfs. exact Hin.
    + apply (with_record_record_of s b x f Hws); [|reflexivity].
      rewrite Hfs. unfold with_file. simpl. apply elem_of_app. right. left.
  - intros s x y _ _ [r Hr]. exists r. apply with_record_keeps, Hr.
Qed.

Lemma imported_store_record_of `{Collaborators} db bibfiles b e :
  wellformed db -> all_ok bibfile_ok with_bibfile db bibfiles ->
  b ∈ bibfiles -> e ∈ BibFile.iterentries b ->
  exists f r, record_of (imported_store db bibfiles) b e f r.
Proof.
  intros Hwf Hall Hb He. unfold imported_store.
  refine (foldl_each with_bibfile bibfile_ok wellformed
            (fun s b => forall e, e ∈ BibFile.iterentries b ->
                                  exists f r, record_of s b e f r)
            _ _ bibfiles db Hwf Hall b Hb e He).
  - intros s x Hs Hok. split; [apply with_bibfile_wf; assumption|].
    intros e0 He0. apply with_bibfile_record_of; assumption.
  - intros s x y _ _ Hq e0 He0. destruct (Hq e0 He0) as (f & r & Hr).
    exists f, r. apply with_bibfile_keeps, Hr.
Qed.

(** ** Indexable: lookups after the import *)

Lemma NoDup_map_inj {A B} (f : A -> B) (l : list A) x y :
  NoDup (map f l) -> x ∈ l -> y ∈ l -> f x = f y -> x = y.
Proof.
  induction l as [|z l IH]; simpl; intros Hnd Hx Hy E; [inversion Hx|].
  apply NoDup_cons in Hnd as [Hz Hnd].
  apply elem_of_cons in Hx as [->|Hx], Hy as [->|Hy]; auto.
  - exfalso. apply Hz. rewrite E. apply list_elem_of_fmap_2, Hy.
  - exfalso. apply Hz. rewrite <- E. apply list_elem_of_fmap_2, Hx.
Qed.

Lemma bind_nil {A B} (g : A -> list B) (l : list A) :
  (forall x, x ∈ l -> g x = []) -> l ≫= g = [].
Proof.
  induction l as [|x l IH]; intros Hl; [reflexivity|].
  change ((x :: l) ≫= g) with (g x ++ (l ≫= g))%list.
  rewrite (Hl x) by left. simpl. apply IH. intros y Hy. apply Hl. right. exact Hy.
Qed.

Lemma bind_filter_map {A B} (P : A -> Prop) `{!forall x, Decision (P x)}
    (g : A -> list B) (h : A -> B) (l : list A) :
  (forall x, x ∈ l -> g x = if decide (P x) then [h x] else []) ->
  l ≫= g = map h (filter P l).
Proof.
  induction l as [|x l IH]; intros Hl; [reflexivity|].
  change ((x :: l) ≫= g) with (g x ++ (l ≫= g))%list.
  rewrite (Hl x) by left. rewrite IH by (intros y Hy; apply Hl; right; exact Hy).
  rewrite filter_cons. destruct (decide (P x)); reflexivity.
Qed.

Lemma select_items_record `{Collaborators} db b e f r :
  wellformed db -> record_of db b e f r ->
  select_items db (BibFile.name b) (BibEntry.key e)
  = (ENTRYTYPE, BibEntry.type e) :: BibEntry.fields e.
Proof.
  intros Hwf (Hf & Hn & Hr & Hrow & Hv). unfold select_items.
  assert (Hkey : Entry.bibkey r = BibEntry.key e) by (rewrite Hrow; reflexivity).
  assert (Hfile : Entry.file_pk r = File.pk f) by (rewrite Hrow; reflexivity).
  rewrite (bind_filter_map (fun v => Value.entry_pk v = Entry.pk r) _
             (fun v => (Value.field v, Value.value v))).
  - rewrite Hv. unfold value_rows. simpl. f_equal. rewrite map_map.
    rewrite <- (map_id (BibEntry.fields e)) at 2. apply map_ext. intros [k x]. reflexivity.
  - intros v _. destruct (decide (Value.entry_pk v = Entry.pk r)) as [E|Hne].
    + rewrite (filter_unique Entry.pk _ (entries db) r);
        [|apply (wf_entry_pk _ Hwf)|exact Hr|auto|intros y _ [Hy _]; congruence].
      simpl. rewrite (filter_unique File.pk _ (files db) f);
        [reflexivity|apply (wf_file_pk _ Hwf)|exact Hf|auto|intros y _ [Hy _]; congruence].
    + apply bind_nil. intros e0 He0. apply list_elem_of_filter in He0 as [[Hpk Hk] He0].
      apply bind_nil. intros f0 Hf0. apply list_elem_of_filter in Hf0 as [[Hfpk Hfn] Hf0].
      exfalso. apply Hne. rewrite <- Hpk. f_equal.
      assert (f0 = f) as ->.
      { apply (NoDup_map_inj File.name (files db)); try assumption.
        - apply (wf_file_name _ Hwf).
        - congruence. }
      apply (NoDup_map_inj entry_key (entries db)); try assumption.
      * apply (wf_entry_key _ Hwf).
      * unfold entry_key. congruence.
Qed.

Lemma py_dict_lookup {V} (l : list (string * V)) k v :
  NoDup (map fst l) -> py_dict l !! k = Some v <-> (k, v) ∈ l.
Proof.
  intros Hnd. unfold py_dict. rewrite foldl_insert_spec; [|exact Hnd|].
  - rewrite lookup_empty. split; [intros [?|?]; [assumption|discriminate]|auto].
  - intros k' _. apply lookup_empty.
Qed.

Lemma py_dict_cons {V} k v (l : list (string * V)) :
  k ∉ map fst l -> NoDup (map fst l) -> py_dict ((k, v) :: l) = <[k := v]> (py_dict l).
Proof.
  intros Hk Hnd. apply map_eq. intros k'. apply option_eq. intros v'.
  rewrite py_dict_lookup by (simpl; apply NoDup_cons; auto).
  rewrite elem_of_cons. destruct (decide (k' = k)) as [->|Hne].
  - rewrite lookup_insert_eq. split.
    + intros [[= ->]|Hin]; [reflexivity|]. exfalso. apply Hk.
      apply (list_elem_of_fmap_2 fst) in Hin. exact Hin.
    + intros [= ->]. auto.
  - rewrite lookup_insert_ne by congruence. rewrite py_dict_lookup by exact Hnd.
    split; [intros [[= ? _]|?]; [congruence|assumption]|auto].
Qed.

Lemma import_entry_round_trip `{Collaborators} (bibfiles : list BibFile.t) (db : Store)
    (b : BibFile.t) (e : BibEntry.t) :
  import_bibfiles empty_store bibfiles = Ok db ->
  b ∈ bibfiles -> e ∈ BibFile.iterentries b ->
  _entry db (BibFile.name b) (BibEntry.key e)
  = Ok (BibEntry.type e, py_dict (BibEntry.fields e)).
Proof.
  intros E Hb He.
  apply import_bibfiles_spec in E as [Hall ->]; [|apply empty_store_wf].
  pose proof (imported_store_wf _ _ empty_store_wf Hall) as Hwf.
  destruct (imported_store_record_of _ _ b e empty_store_wf Hall Hb He) as (f & r & Hr).
  apply bibfile_ok_all in Hall as (Hvalid & _); [|apply empty_store_wf].
  rewrite Forall_forall in Hvalid. destruct (Hvalid b Hb) as (_ & _ & _ & Hes).
  rewrite Forall_forall in Hes. destruct (Hes e He) as (_ & _ & _ & Hnd).
  apply NoDup_cons in Hnd as [Htype Hnd].
  unfold _entry. rewrite (select_items_record _ b e f r Hwf Hr).
  rewrite py_dict_cons by assumption.
  rewrite bool_decide_eq_false_2 by apply insert_non_empty.
  rewrite lookup_insert_eq. rewrite delete_insert_eq.
  rewrite delete_id; [reflexivity|].
  apply eq_None_not_Some. intros [v Hv]. apply py_dict_lookup in Hv; [|exact Hnd].
  apply Htype. apply (list_elem_of_fmap_2 fst) in Hv. exact Hv.
Qed.

Lemma foldl_invariant_elem {A S} (P : S -> Prop) (g : S -> A -> S) (ok : S -> A -> Prop)
    (l : list A) s :
  (forall s x, x ∈ l -> P s -> ok s x -> P (g s x)) ->
  P s -> all_ok ok g s l -> P (foldl g s l).
Proof.
  revert s. induction l as [|x l IH]; simpl; intros s Hg Hs Hall; [exact Hs|].
  destruct Hall as [Hok Hall]. apply IH.
  - intros s' y Hy. apply Hg. right. exact Hy.
  - apply Hg; [left|assumption..].
  - exact Hall.
Qed.

Lemma with_records_entries `{Collaborators} file_pk db es r :
  r ∈ entries (with_records file_pk db es) ->
  r ∈ entries db \/
  exists e, e ∈ es /\ Entry.file_pk r = file_pk /\ Entry.bibkey r = BibEntry.key e.
Proof.
  unfold with_records. revert db. induction es as [|e es IH]; simpl; intros db Hr.
  - auto.
  - apply IH in Hr as [Hr|(e' & He' & Hr)].
    + unfold with_record in Hr. simpl in Hr. apply elem_of_app in Hr as [Hr|Hr]; [auto|].
      apply list_elem_of_singleton in Hr as ->. right. exists e.
      split; [left|]. auto.
    + right. exists e'. split; [right; exact He'|exact Hr].
Qed.

Lemma imported_store_provenance `{Collaborators} bibfiles :
  all_ok bibfile_ok with_bibfile empty_store bibfiles ->
  from_bibfiles_only bibfiles (imported_store empty_store bibfiles).
Proof.
  intros Hall. unfold imported_store.
  refine (proj2 (foldl_invariant_elem
            (fun s => wellformed s /\ from_bibfiles_only bibfiles s)
            with_bibfile bibfile_ok bibfiles empty_store _ _ Hall)).
  - intros s b Hb [Hwf Hprov] Hok.
    destruct (with_bibfile_wf s b Hwf Hok) as [Hwf1 Hf1]. split; [exact Hwf1|].
    intros r f Hr Hf Hpk. rewrite Hf1 in Hf. unfold with_file in Hf. simpl in Hf.
    unfold with_bibfile in Hr. apply with_records_entries in Hr.
    apply elem_of_app in Hf as [Hf|Hf].
    + destruct Hr as [Hr|(e & He & Hfp & _)].
      * apply (Hprov r f Hr Hf Hpk).
      * exfalso. apply (list_elem_of_fmap_2 File.pk) in Hf.
        rewrite Hpk, Hfp in Hf. apply next_pk_fresh in Hf. exact Hf.
    + apply list_elem_of_singleton in Hf as ->. simpl in *.
      destruct Hr as [Hr|(e & He & _ & Hk)].
      * exfalso. apply (wf_entry_file _ Hwf) in Hr. rewrite <- Hpk in Hr.
        apply next_pk_fresh in Hr. exact Hr.
      * exists b, e. auto.
  - split; [apply empty_store_wf|]. intros r f Hr. inversion Hr.
Qed.

Lemma select_items_nil db filename bibkey :
  (forall r f, r ∈ entries db -> f ∈ files db -> File.pk f = Entry.file_pk r ->
     ~ (File.name f = filename /\ Entry.bibkey r = bibkey)) ->
  select_items db filename bibkey = [].
Proof.
  intros Hno. unfold select_items. apply bind_nil. intros v _.
  apply bind_nil. intros r Hr. apply list_elem_of_filter in Hr as [[_ Hk] Hr].
  apply bind_nil. intros f Hf. apply list_elem_of_filter in Hf as [[Hpk Hn] Hf].
  exfalso. apply (Hno r f); auto.
Qed.

(** The prior identifier of a stored entry is what the engine made of
    the field of a record of the bibfiles. *)
Lemma imported_refid `{Collaborators} bibfiles db r :
  import_bibfiles empty_store bibfiles = Ok db -> r ∈ entries db ->
  exists b e, b ∈ bibfiles /\ e ∈ BibFile.iterentries b /\
    Entry.refid r = int_of_text <$> od_get (BibEntry.fields e) REF_ID_FIELD.
Proof.
  intros E Hr. pose proof (import_bibfiles_wf _ _ E) as Hwf.
  apply import_bibfiles_spec in E as [Hall ->]; [|apply empty_store_wf].
  set (db := imported_store empty_store bibfiles) in *.
  apply (bibfile_ok_all _ _ empty_store_wf) in Hall as Hvalid.
  destruct Hvalid as (_ & Hnames & _).
  pose proof (wf_entry_file _ Hwf r Hr) as Hf.
  apply list_elem_of_fmap in Hf as (f & Hpk & Hf).
  destruct (imported_store_provenance bibfiles Hall r f Hr Hf (eq_sym Hpk))
    as (b & e & Hb & He & Hn & Hk).
  destruct (imported_store_record_of _ _ b e empty_store_wf Hall Hb He)
    as (f' & r' & Hf' & Hn' & Hr' & Er' & _). fold db in Hf', Hr'.
  assert (f' = f)
    by (apply (NoDup_map_inj File.name (files db)); [apply Hwf|..]; congruence).
  subst f'.
  assert (r' = r).
  { apply (NoDup_map_inj entry_key (entries db)); [apply Hwf|assumption..|].
    unfold entry_key. rewrite Er'. simpl. congruence. }
  subst r'. exists b, e. split; [exact Hb|]. split; [exact He|].
  rewrite Er'. reflexivity.
Qed.

(** X1. Into an empty store, and for bibfiles whose prior identifiers
    are decimal numerals of 64-bit integers, [import_bibfiles] runs
    through exactly on valid bibfiles: non-empty names and keys,
    positive sizes, positive prior identifiers, no file name twice, no
    bibkey twice in a file, no field name twice in a record, none empty
    or equal to ENTRYTYPE. On all others it raises, and what it raises
    is an integrity error of the engine. The prior identifiers of the
    store it builds are positive 64-bit integers. *)
Theorem import_accepts_valid_bibfiles `{Collaborators} (bibfiles : list BibFile.t) :
  numeral_ids bibfiles ->
  ((exists db, import_bibfiles empty_store bibfiles = Ok db) <-> valid_bibfiles bibfiles) /\
  (forall e, import_bibfiles empty_store bibfiles = Raise e -> e = IntegrityError) /\
  (forall db r z, import_bibfiles empty_store bibfiles = Ok db ->
     r ∈ entries db -> Entry.refid r = Some z -> 0 < z < 2 ^ 63).
Proof.
  intros Hnum. split; [apply import_accepts|]. split; [intros e; apply import_raises|].
  intros db r z E Hr Hz. split.
  - apply (wf_entry_check _ (import_bibfiles_wf _ _ E) r Hr), Hz.
  - destruct (imported_refid bibfiles db r E Hr) as (b & e & Hb & He & Hrefid).
    rewrite Hz in Hrefid.
    destruct (od_get (BibEntry.fields e) REF_ID_FIELD) as [x|] eqn:Ex; [|discriminate].
    injection Hrefid as ->. apply (Hnum b e x Hb He Ex).
Qed.

(** X4. After the import, [__getitem__] with a file name and bibkey that
    no record of the bibfiles carries raises [KeyError]. *)
Theorem getitem_missing_location `{Collaborators} (bibfiles : list BibFile.t) (db : Store)
    (filename bibkey : string) :
  import_bibfiles empty_store bibfiles = Ok db ->
  (forall b e, b ∈ bibfiles -> e ∈ BibFile.iterentries b ->
     ~ (BibFile.name b = filename /\ BibEntry.key e = bibkey)) ->
  getitem db (ByLocation filename bibkey) = Raise KeyError.
Proof.
  intros E Hno. apply import_bibfiles_spec in E as [Hall ->]; [|apply empty_store_wf].
  pose proof (imported_store_provenance bibfiles Hall) as Hprov.
  unfold getitem, _entry. rewrite select_items_nil; [reflexivity|].
  intros r f Hr Hf Hpk [Hn Hk].
  destruct (Hprov r f Hr Hf Hpk) as (b & e & Hb & He & Hbn & Hek).
  apply (Hno b e Hb He). split; congruence.
Qed.

(** X5. After the import, [__getitem__] with the file name and bibkey of
    a record of the bibfiles gives back the key with the record's type
    tag and its fields. *)
Theorem getitem_location_round_trip `{Collaborators} (bibfiles : list BibFile.t)
    (db : Store) (b : BibFile.t) (e : BibEntry.t) :
  import_bibfiles empty_store bibfiles = Ok db ->
  b ∈ bibfiles -> e ∈ BibFile.iterentries b ->
  getitem db (ByLocation (BibFile.name b) (BibEntry.key e))
  = Ok (ByLocation (BibFile.name b) (BibEntry.key e),
        (BibEntry.type e, py_dict (BibEntry.fields e))).
Proof.
  intros E Hb He. unfold getitem.
  rewrite (import_entry_round_trip bibfiles db b e E Hb He). reflexivity.
Qed.

(** ** The import on one bibfile *)

Lemma import_accepts_valid_bibfiles_witness :
  numeral_ids (H:=sample) [grammar_bibfile] /\
  ((exists db, import_bibfiles (H:=sample) empty_store [grammar_bibfile] = Ok db) <->
   valid_bibfiles (H:=sample) [grammar_bibfile]) /\
  (forall e, import_bibfiles (H:=sample) empty_store [grammar_bibfile] = Raise e ->
             e = IntegrityError) /\
  (forall db r z, import_bibfiles (H:=sample) empty_store [grammar_bibfile] = Ok db ->
     r ∈ entries db -> Entry.refid r = Some z -> 0 < z < 2 ^ 63).
Proof.
  assert (Hnum : numeral_ids (H:=sample) [grammar_bibfile]).
  { intros b e x Hb He Ex. simpl in Hb. members Hb. simpl in He. members He.
    vm_compute in Ex. injection Ex as <-. split; [vm_compute; reflexivity|].
    change (int_of_text "3") with 3. lia. }
  split; [exact Hnum|].
  apply (import_accepts_valid_bibfiles (H:=sample) [grammar_bibfile] Hnum).
Defined.

Lemma import_wellformed_witness :
  import_bibfiles (H:=sample) empty_store [grammar_bibfile] = Ok grammar_store /\
  wellformed grammar_store.
Proof.
  split; [apply import_grammar|].
  apply (import_wellformed (H:=sample) [grammar_bibfile] grammar_store), import_grammar.
Defined.

Lemma import_is_uptodate_witness :
  import_bibfiles (H:=sample) empty_store [grammar_bibfile] = Ok grammar_store /\
  is_uptodate grammar_store [grammar_bibfile] = true.
Proof.
  split; [apply import_grammar|].
  apply (import_is_uptodate (H:=sample) [grammar_bibfile] grammar_store), import_grammar.
Defined.

Lemma getitem_missing_location_witness :
  import_bibfiles (H:=sample) empty_store [grammar_bibfile] = Ok grammar_store /\
  getitem grammar_store (ByLocation "a.bib" "k2") = Raise KeyError.
Proof.
  split; [apply import_grammar|].
  apply (getitem_missing_location (H:=sample) [grammar_bibfile] grammar_store "a.bib" "k2");
    [apply import_grammar|].
  intros b e Hb He [_ Hk]. simpl in Hb. members Hb. simpl in He. members He.
  discriminate.
Defined.

Lemma getitem_location_round_trip_witness :
  import_bibfiles (H:=sample) empty_store [grammar_bibfile] = Ok grammar_store /\
  getitem grammar_store (ByLocation "a.bib" "k1")
  = Ok (ByLocation "a.bib" "k1",
        ("book", py_dict [("title", "Grammar"); (REF_ID_FIELD, "3")])).
Proof.
  split; [apply import_grammar|].
  apply (getitem_location_round_trip (H:=sample) [grammar_bibfile] grammar_store
           grammar_bibfile grammar_entry); [apply import_grammar|left|left].
Defined.

(** ** generate_hashes: what it writes *)

(** A batch of UPDATEs, read row by row. *)
Lemma foldl_update_where {X} (cond : X -> Entry.t -> bool) (set : X -> Entry.t -> Entry.t)
    (xs : list X) db :
  foldl (fun db x => update_where (cond x) (set x) db) db xs
  = with_entries db
      (map (fun e => foldl (fun e x => if cond x e then set x e else e) e xs)
           (entries db)).
Proof.
  revert db. induction xs as [|x xs IH]; intros db; simpl.
  - rewrite map_id. destruct db; reflexivity.
  - rewrite IH. unfold update_where, with_entries. simpl. rewrite map_map. reflexivity.
Qed.

Lemma all_ok_Forall {A S} (ok : S -> A -> Prop) (g : S -> A -> S) (Inv : S -> Prop)
    (Q : A -> Prop) (l : list A) s :
  (forall s x, Inv s -> x ∈ l -> (ok s x <-> Q x)) ->
  (forall s x, Inv s -> Inv (g s x)) ->
  Inv s -> (all_ok ok g s l <-> Forall Q l).
Proof.
  revert s. induction l as [|x l IH]; simpl; intros s Hok Hg Hs.
  - split; [constructor|auto].
  - rewrite Forall_cons, (Hok s x Hs) by left.
    rewrite IH; [reflexivity| |exact Hg|apply Hg, Hs].
    intros s' y Hs' Hy. apply Hok; [exact Hs'|right; exact Hy].
Qed.

Lemma update_entry_spec db hash entry_pk db' :
  update_entry db hash entry_pk = Ok db' <->
  ~ (hash = "" /\ entry_pk ∈ map Entry.pk (entries db)) /\
  db' = update_where (fun e => bool_decide (Entry.pk e = entry_pk))
                     (Entry.set_hash (Some hash)) db.
Proof.
  unfold update_entry.
  assert (Hex : existsb (fun e => bool_decide (Entry.pk e = entry_pk)) (entries db) = true
                <-> entry_pk ∈ map Entry.pk (entries db)).
  { rewrite existsb_elem. split.
    - intros (e & He & Hpk). apply bool_decide_eq_true in Hpk. subst.
      apply list_elem_of_fmap_2, He.
    - intros Hin. apply list_elem_of_fmap in Hin as (e & -> & He).
      exists e. split; [exact He|apply bool_decide_eq_true; reflexivity]. }
  destruct (_ && _) eqn:C.
  - apply andb_true_iff in C as [C1 C2]. apply bool_decide_eq_true in C1.
    apply Hex in C2. split; [discriminate|]. intros [Hno _]. exfalso. auto.
  - split.
    + intros [= <-]. split; [|reflexivity]. intros [-> Hin].
      apply Hex in Hin. rewrite Hin in C. simpl in C. discriminate.
    + intros [_ ->]. reflexivity.
Qed.

Lemma filter_bind {A B} (P : B -> Prop) `{!forall x, Decision (P x)}
    (g : A -> list B) (l : list A) :
  filter P (l ≫= g) = l ≫= (fun x => filter P (g x)).
Proof.
  induction l as [|x l IH]; [reflexivity|].
  change ((x :: l) ≫= g) with (g x ++ (l ≫= g))%list.
  rewrite filter_app, IH. reflexivity.
Qed.

Lemma bind_ext_elem {A B} (g g' : A -> list B) (l : list A) :
  (forall x, x ∈ l -> g x = g' x) -> l ≫= g = l ≫= g'.
Proof.
  induction l as [|x l IH]; intros Hl; [reflexivity|].
  change ((x :: l) ≫= g) with (g x ++ (l ≫= g))%list.
  change ((x :: l) ≫= g') with (g' x ++ (l ≫= g'))%list.
  rewrite (Hl x) by left. rewrite IH; [reflexivity|].
  intros y Hy. apply Hl. right. exact Hy.
Qed.

(** Rows that tie on the sort key stay as they are. *)
Lemma order_by_ties {A} (cmp : A -> A -> comparison) (l : list A) :
  (forall x y, x ∈ l -> y ∈ l -> cmp x y = Eq) -> order_by cmp l = l.
Proof.
  induction l as [|x l IH]; intros Hl; simpl; [reflexivity|].
  rewrite IH by (intros y z Hy Hz; apply Hl; right; assumption).
  destruct l as [|y l]; [reflexivity|]. simpl.
  rewrite (Hl x y) by (repeat constructor). reflexivity.
Qed.

Lemma select_bfv_filter db first last k :
  NoDup (map Entry.pk (entries db)) ->
  filter (fun r : Z * string * string => r.1.1 = k) (select_bfv db first last)
  = if decide (k ∈ map Entry.pk (entries db) /\ first <= k <= last)
    then hash_rows db k else [].
Proof.
  intros Hnd. unfold select_bfv.
  rewrite (order_by_filter _ (fun r : Z * string * string => r.1.1 = k)).
  rewrite order_by_ties.
  2:{ intros x y Hx Hy. apply list_elem_of_filter in Hx as [Hx _], Hy as [Hy _].
      rewrite Hx, Hy. apply Z.compare_refl. }
  rewrite filter_bind.
  destruct (decide (k ∈ map Entry.pk (entries db) /\ first <= k <= last)) as [[Hk Hr]|Hno].
  - apply list_elem_of_fmap in Hk as (e0 & Hpk & He0).
    unfold hash_rows.
    apply (bind_filter_map
             (fun v => Value.entry_pk v = k /\ Value.field v <> ENTRYTYPE)).
    intros v _.
    destruct (decide (Value.entry_pk v = k)) as [Hv|Hv].
    + rewrite (filter_unique Entry.pk _ (entries db) e0);
        [|exact Hnd|exact He0|congruence|intros y _ Hy; congruence].
      change ([e0] ≫= _) with
        ((if ((first <=? Entry.pk e0) && (Entry.pk e0 <=? last))%Z
             && negb (bool_decide (Value.field v = ENTRYTYPE))
          then [(Entry.pk e0, Value.field v, Value.value v)] else []) ++ [])%list.
      rewrite app_nil_r, <- Hpk.
      assert (Hin : ((first <=? k) && (k <=? last))%Z = true).
      { apply andb_true_iff. split; apply Z.leb_le; lia. }
      rewrite Hin. simpl.
      destruct (decide (Value.field v = ENTRYTYPE)) as [Hf|Hf].
      * rewrite (bool_decide_eq_true_2 _ Hf). simpl.
        rewrite decide_False by tauto. reflexivity.
      * rewrite (bool_decide_eq_false_2 _ Hf). simpl.
        rewrite filter_cons_True by reflexivity.
        rewrite decide_True by tauto. reflexivity.
    + rewrite decide_False by tauto. apply filter_none.
      intros r Hr0 Hrk. apply list_elem_of_bind in Hr0 as (e & Hr0 & He).
      apply list_elem_of_filter in He as [He _].
      destruct (_ && _) in Hr0; [|inversion Hr0].
      apply list_elem_of_singleton in Hr0 as ->. simpl in Hrk. congruence.
  - apply bind_nil. intros v _. apply filter_none.
    intros r Hr0 Hrk. apply list_elem_of_bind in Hr0 as (e & Hr0 & He).
    apply list_elem_of_filter in He as [He Hin].
    destruct (_ && _) eqn:C in Hr0; [|inversion Hr0].
    apply list_elem_of_singleton in Hr0 as ->. simpl in Hrk.
    apply andb_true_iff in C as [C _]. apply andb_true_iff in C as [C1 C2].
    apply Z.leb_le in C1, C2. apply Hno. split; [|lia].
    rewrite <- Hrk. apply list_elem_of_fmap_2, Hin.
Qed.

Lemma cmp_bfv_lawful :
  LawfulCmp (fun r r' : Z * string * string => Z.compare r.1.1 r'.1.1).
Proof. apply (on_lawful (fun r : Z * string * string => r.1.1) Z.compare _). Qed.

(** The groups of the hashing query over one window. *)
Lemma select_bfv_groups db first last k grp :
  NoDup (map Entry.pk (entries db)) ->
  (k, grp) ∈ groupby (fun r : Z * string * string => r.1.1) (select_bfv db first last) <->
  k ∈ map Entry.pk (entries db) /\ first <= k <= last /\
  hash_rows db k <> [] /\ grp = hash_rows db k.
Proof.
  intros Hnd.
  assert (Hs : sorted_by (fun x y : Z * string * string => Z.compare x.1.1 y.1.1)
                 (select_bfv db first last)).
  { unfold select_bfv. apply order_by_sorted, cmp_bfv_lawful. }
  assert (Heq : forall x y : Z * string * string,
            x ∈ select_bfv db first last -> y ∈ select_bfv db first last ->
            Z.compare x.1.1 y.1.1 = Eq -> x.1.1 = y.1.1).
  { intros x y _ _ E. apply Z.compare_eq, E. }
  destruct (groupby_sorted (fun r : Z * string * string => r.1.1) Z.compare
              (select_bfv db first last) Hs Heq) as [_ Hg].
  split.
  - intros Hin. pose proof (Hg k grp Hin) as E.
    rewrite (select_bfv_filter db first last k Hnd) in E.
    destruct (groupby_group _ _ _ _ Hin) as [Hne _].
    destruct (decide _) as [[Hk Hr]|_] in E; [|congruence].
    subst grp. auto.
  - intros (Hk & Hr & Hne & ->).
    destruct (hash_rows db k) as [|r rows] eqn:Erows; [congruence|].
    assert (Hrin : r ∈ select_bfv db first last).
    { assert (Hr' : r ∈ filter (fun r : Z * string * string => r.1.1 = k)
                          (select_bfv db first last)).
      { rewrite (select_bfv_filter db first last k Hnd), decide_True by auto.
        rewrite Erows. left. }
      apply list_elem_of_filter in Hr' as [_ Hr']. exact Hr'. }
    assert (Hrk : r.1.1 = k).
    { assert (Hr' : r ∈ hash_rows db k) by (rewrite Erows; left).
      unfold hash_rows in Hr'. apply list_elem_of_fmap in Hr' as (v & -> & _).
      reflexivity. }
    destruct (groupby_key_elem (fun r : Z * string * string => r.1.1) _ r Hrin)
      as (g & Hgin & _).
    rewrite Hrk in Hgin. pose proof (Hg k g Hgin) as E.
    rewrite (select_bfv_filter db first last k Hnd), decide_True in E by auto.
    rewrite Erows in E. subst g. exact Hgin.
Qed.

Lemma select_bfv_groups_NoDup db first last :
  NoDup (map fst (groupby (fun r : Z * string * string => r.1.1)
                          (select_bfv db first last))).
Proof.
  apply (groupby_sorted_NoDup _ Z.compare).
  - unfold select_bfv. apply order_by_sorted, cmp_bfv_lawful.
  - intros x y _ _ E. apply Z.compare_eq, E.
Qed.

Lemma hash_steps_other `{Collaborators} words groups e :
  Entry.pk e ∉ map fst groups -> foldl (hash_step words) e groups = e.
Proof.
  induction groups as [|[k grp] groups IH]; simpl; intros Hno; [reflexivity|].
  apply not_elem_of_cons in Hno as [Hne Hno]. unfold hash_step at 2. simpl.
  rewrite bool_decide_eq_false_2 by exact Hne. apply IH, Hno.
Qed.

Lemma hash_steps_group `{Collaborators} words groups e grp :
  NoDup (map fst groups) -> (Entry.pk e, grp) ∈ groups ->
  foldl (hash_step words) e groups
  = Entry.set_hash (Some (keyid (fields_dict grp) words)) e.
Proof.
  revert e. induction groups as [|[k g] groups IH]; simpl; intros e Hnd Hin.
  - inversion Hin.
  - apply NoDup_cons in Hnd as [Hk Hnd]. apply elem_of_cons in Hin as [[= <- <-]|Hin].
    + unfold hash_step at 2. simpl. rewrite bool_decide_eq_true_2 by reflexivity.
      apply hash_steps_other. exact Hk.
    + unfold hash_step at 2. simpl. rewrite bool_decide_eq_false_2; [apply IH; assumption|].
      intros E. apply Hk. rewrite <- E. apply (list_elem_of_fmap_2 fst) in Hin. exact Hin.
Qed.

Lemma hash_window_spec `{Collaborators} words db w db' :
  NoDup (map Entry.pk (entries db)) ->
  hash_window words db w = Ok db' <->
  (forall e, e ∈ entries db -> w.1 <= Entry.pk e <= w.2 ->
     hash_rows db (Entry.pk e) <> [] ->
     keyid (fields_dict (hash_rows db (Entry.pk e))) words <> "") /\
  db' = update_where
          (fun e => bool_decide (w.1 <= Entry.pk e <= w.2
                                 /\ hash_rows db (Entry.pk e) <> []))
          (fun e => Entry.set_hash
                      (Some (keyid (fields_dict (hash_rows db (Entry.pk e))) words)) e)
          db.
Proof.
  intros Hnd. unfold hash_window.
  set (groups := groupby (fun r : Z * string * string => r.1.1) (select_bfv db w.1 w.2)).
  assert (Hgroups : forall k grp, (k, grp) ∈ groups <->
            k ∈ map Entry.pk (entries db) /\ w.1 <= k <= w.2 /\
            hash_rows db k <> [] /\ grp = hash_rows db k).
  { intros k grp. apply select_bfv_groups, Hnd. }
  pose proof (select_bfv_groups_NoDup db w.1 w.2) as Hkeys. fold groups in Hkeys.
  rewrite (foldM_spec _
             (fun s (g : Z * list (Z * string * string)) =>
                update_where (fun e => bool_decide (Entry.pk e = g.1))
                             (Entry.set_hash (Some (keyid (fields_dict g.2) words))) s)
             (fun s (g : Z * list (Z * string * string)) =>
                ~ (keyid (fields_dict g.2) words = ""
                   /\ g.1 ∈ map Entry.pk (entries s)))
             (fun s => map Entry.pk (entries s) = map Entry.pk (entries db)));
    [| |intros s x Hs _; rewrite <- Hs; apply update_where_keeps; reflexivity|reflexivity].
  2:{ intros s [k grp] s' _. apply update_entry_spec. }
  rewrite (all_ok_Forall _ _
             (fun s => map Entry.pk (entries s) = map Entry.pk (entries db))
             (fun g : Z * list (Z * string * string) =>
                keyid (fields_dict g.2) words <> ""));
    [| |intros s x Hs; rewrite <- Hs; apply update_where_keeps; reflexivity|reflexivity].
  2:{ intros s [k grp] Hs Hin. simpl. rewrite Hs. apply Hgroups in Hin as (Hk & _).
      tauto. }
  rewrite Forall_forall.
  rewrite (foldl_update_where
             (fun (g : Z * list (Z * string * string)) e => bool_decide (Entry.pk e = g.1))
             (fun (g : Z * list (Z * string * string)) =>
                Entry.set_hash (Some (keyid (fields_dict g.2) words)))).
  assert (Hrows : forall e, e ∈ entries db ->
            foldl (fun e (x : Z * list (Z * string * string)) =>
                     if bool_decide (Entry.pk e = x.1)
                     then Entry.set_hash (Some (keyid (fields_dict x.2) words)) e else e)
                  e groups
            = if bool_decide (w.1 <= Entry.pk e <= w.2 /\ hash_rows db (Entry.pk e) <> [])
              then Entry.set_hash
                     (Some (keyid (fields_dict (hash_rows db (Entry.pk e))) words)) e
              else e).
  { intros e He. change (foldl _ e groups) with (foldl (hash_step words) e groups).
    destruct (bool_decide _) eqn:C.
    - apply bool_decide_eq_true in C as [Hr Hne].
      apply hash_steps_group; [exact Hkeys|]. apply Hgroups.
      split; [apply list_elem_of_fmap_2, He|]. auto.
    - apply bool_decide_eq_false in C. apply hash_steps_other.
      intros Hin. apply list_elem_of_fmap in Hin as ([k grp] & Hk & Hin).
      simpl in Hk. subst k. apply Hgroups in Hin as (_ & Hr & Hne & _). tauto. }
  assert (Hupd : with_entries db
            (map (fun e => foldl
                    (fun e (x : Z * list (Z * string * string)) =>
                       if bool_decide (Entry.pk e = x.1)
                       then Entry.set_hash (Some (keyid (fields_dict x.2) words)) e else e)
                    e groups) (entries db))
          = update_where
              (fun e => bool_decide (w.1 <= Entry.pk e <= w.2
                                     /\ hash_rows db (Entry.pk e) <> []))
              (fun e => Entry.set_hash
                          (Some (keyid (fields_dict (hash_rows db (Entry.pk e))) words)) e)
              db).
  { unfold update_where. f_equal. apply map_ext_in. intros e He.
    apply Hrows. apply list_elem_of_In, He. }
  rewrite Hupd. split; intros [Hok ->]; (split; [|reflexivity]).
  - intros e He Hr Hne. apply (Hok (Entry.pk e, hash_rows db (Entry.pk e))).
    apply Hgroups. split; [apply list_elem_of_fmap_2, He|]. auto.
  - intros [k grp] Hin. apply Hgroups in Hin as (Hk & Hr & Hne & ->). simpl.
    apply list_elem_of_fmap in Hk as (e & -> & He). apply Hok; assumption.
Qed.

(** ** generate_hashes: the windows cover every entry *)

Lemma first_last_bounds (c : list Z) x :
  StronglySorted (fun a b => Z.compare a b <> Gt) c -> x ∈ c ->
  exists a b, first_last c = Some (a, b) /\ a <= x <= b.
Proof.
  intros Hs Hx. unfold first_last. destruct c as [|a c]; [inversion Hx|].
  destruct (last (a :: c)) as [b|] eqn:El.
  - exists a, b. split; [reflexivity|].
    destruct (sorted_last _ _ b Hs El) as [_ Hb].
    pose proof (sorted_head_least Z.compare a c x Hs Hx) as Ha.
    rewrite Z.compare_le_iff in Ha.
    destruct (Hb x Hx) as [->|Hle]; [lia|]. rewrite Z.compare_le_iff in Hle. lia.
  - apply last_None in El. discriminate.
Qed.

Lemma windowed_entries_cover db chunksize e :
  (0 < chunksize)%nat ->
  e ∈ entries db -> Entry.file_pk e ∈ map File.pk (files db) ->
  exists w, w ∈ windowed_entries db chunksize /\ w.1 <= Entry.pk e <= w.2.
Proof.
  intros Hsize He Hfile. apply list_elem_of_fmap in Hfile as (f & Hpk & Hf).
  unfold windowed_entries.
  set (pks := order_by Z.compare
                (map Entry.pk (filter (fun e => Entry.file_pk e = File.pk f) (entries db)))).
  assert (Hin : Entry.pk e ∈ pks).
  { unfold pks. apply order_by_elem, list_elem_of_fmap_2, list_elem_of_filter. auto. }
  destruct (partitions_spec chunksize pks Hsize) as [Hjoin _].
  rewrite <- Hjoin in Hin. apply list_elem_of_join in Hin as (c & Hxc & Hc).
  assert (Hs : StronglySorted (fun a b => Z.compare a b <> Gt) c).
  { apply (chunk_sorted _ (partitions chunksize pks)); [|exact Hc].
    rewrite Hjoin. apply (order_by_sorted Z.compare). }
  destruct (first_last_bounds c _ Hs Hxc) as (a & b & Hfl & Hab).
  exists (a, b). split; [|exact Hab].
  apply list_elem_of_bind. exists f. split.
  - apply list_elem_of_omap. exists c. auto.
  - apply order_by_elem, Hf.
Qed.

(** ** generate_hashes: the store it leaves *)

Lemma window_steps_bare `{Collaborators} db ws e :
  hash_rows db (Entry.pk e) = [] -> foldl (window_step db) e ws = e.
Proof.
  intros Hrows. induction ws as [|w ws IH]; simpl; [reflexivity|].
  unfold window_step at 2. rewrite bool_decide_eq_false_2 by tauto. exact IH.
Qed.

Lemma window_steps_done `{Collaborators} db ws e :
  foldl (window_step db) (Entry.set_hash (Some (hash_of db (Entry.pk e))) e) ws
  = Entry.set_hash (Some (hash_of db (Entry.pk e))) e.
Proof.
  induction ws as [|w ws IH]; simpl; [reflexivity|].
  unfold window_step at 2. simpl. destruct (bool_decide _); exact IH.
Qed.

Lemma window_steps_covered `{Collaborators} db ws e w :
  w ∈ ws -> w.1 <= Entry.pk e <= w.2 -> hash_rows db (Entry.pk e) <> [] ->
  foldl (window_step db) e ws = Entry.set_hash (Some (hash_of db (Entry.pk e))) e.
Proof.
  intros Hw Hr Hne. induction ws as [|w0 ws IH]; simpl; [inversion Hw|].
  unfold window_step at 2. destruct (bool_decide _) eqn:C.
  - apply window_steps_done.
  - apply elem_of_cons in Hw as [->|Hw]; [|apply IH, Hw].
    apply bool_decide_eq_false in C. tauto.
Qed.

Lemma generate_hashes_result `{Collaborators} db db' :
  wellformed db ->
  generate_hashes db = Ok db' <->
  (forall e, e ∈ entries db -> hash_rows db (Entry.pk e) <> [] ->
             hash_of db (Entry.pk e) <> "") /\
  db' = with_entries db (map (hashed db) (entries db)).
Proof.
  intros Hwf. unfold generate_hashes.
  set (windows := windowed_entries db 500).
  set (Inv := fun s : Store => values s = values db /\
                               map Entry.pk (entries s) = map Entry.pk (entries db)).
  set (g := fun (s : Store) (w : Z * Z) =>
              update_where
                (fun e => bool_decide (w.1 <= Entry.pk e <= w.2
                                       /\ hash_rows db (Entry.pk e) <> []))
                (fun e => Entry.set_hash (Some (hash_of db (Entry.pk e))) e) s).
  set (ok := fun (s : Store) (w : Z * Z) =>
               forall k, k ∈ map Entry.pk (entries s) -> w.1 <= k <= w.2 ->
                 hash_rows db k <> [] -> hash_of db k <> "").
  assert (Hg : forall s w, Inv s -> Inv (g s w)).
  { intros s w [Hv Hp]. split; [exact Hv|]. rewrite <- Hp. unfold g.
    apply update_where_keeps. reflexivity. }
  rewrite (foldM_spec (hash_window (title_words db)) g ok Inv);
    [| |intros s w Hs _; apply Hg, Hs|split; reflexivity].
  2:{ intros s w s' [Hv Hp].
      assert (Hrows : forall k, hash_rows s k = hash_rows db k)
        by (intros k; unfold hash_rows; rewrite Hv; reflexivity).
      rewrite hash_window_spec by (rewrite Hp; apply (wf_entry_pk _ Hwf)).
      assert (Hupd : update_where
                (fun e => bool_decide (w.1 <= Entry.pk e <= w.2
                                       /\ hash_rows s (Entry.pk e) <> []))
                (fun e => Entry.set_hash
                   (Some (keyid (fields_dict (hash_rows s (Entry.pk e)))
                                (title_words db))) e) s = g s w).
      { unfold g, update_where. f_equal. apply map_ext. intros e.
        rewrite Hrows. reflexivity. }
      rewrite Hupd. unfold ok. split; intros [Hok ->]; (split; [|reflexivity]).
      - intros k Hk Hr Hne. apply list_elem_of_fmap in Hk as (e & -> & He).
        rewrite <- Hrows in Hne. specialize (Hok e He Hr Hne).
        rewrite Hrows in Hok. exact Hok.
      - intros e He Hr Hne. rewrite Hrows in *.
        apply (Hok (Entry.pk e)); [apply list_elem_of_fmap_2, He|assumption..]. }
  rewrite (all_ok_Forall ok g Inv
             (fun w : Z * Z => forall k, k ∈ map Entry.pk (entries db) ->
                w.1 <= k <= w.2 -> hash_rows db k <> [] -> hash_of db k <> ""));
    [|intros s w [_ Hp] _; unfold ok; rewrite Hp; reflexivity|exact Hg|split; reflexivity].
  rewrite Forall_forall.
  assert (Hres : foldl g db windows = with_entries db (map (hashed db) (entries db))).
  { unfold g.
    rewrite (foldl_update_where
               (fun (w : Z * Z) e => bool_decide (w.1 <= Entry.pk e <= w.2
                                                  /\ hash_rows db (Entry.pk e) <> []))
               (fun (w : Z * Z) e => Entry.set_hash (Some (hash_of db (Entry.pk e))) e)).
    f_equal. apply map_ext_in. intros e He. apply list_elem_of_In in He.
    change (foldl (window_step db) e windows = hashed db e). unfold hashed.
    destruct (hash_rows db (Entry.pk e)) as [|r rows] eqn:Erows.
    - apply window_steps_bare, Erows.
    - destruct (windowed_entries_cover db 500 e ltac:(lia) He
                  (wf_entry_file _ Hwf e He)) as (w & Hw & Hr).
      apply (window_steps_covered db _ e w Hw Hr). rewrite Erows. discriminate. }
  rewrite Hres. split; intros [Hok ->]; (split; [|reflexivity]).
  - intros e He Hne.
    destruct (windowed_entries_cover db 500 e ltac:(lia) He
                (wf_entry_file _ Hwf e He)) as (w & Hw & Hr).
    apply (Hok w Hw (Entry.pk e)); [apply list_elem_of_fmap_2, He|assumption..].
  - intros w _ k Hk _ Hne. apply list_elem_of_fmap in Hk as (e & -> & He).
    apply Hok; assumption.
Qed.

Lemma generate_hashes_raises `{Collaborators} db x :
  generate_hashes db = Raise x -> x = IntegrityError.
Proof.
  unfold generate_hashes. intros E.
  eapply (foldM_raises (fun x => x = IntegrityError)); [|exact E].
  intros s w x1. unfold hash_window. intros E1.
  eapply (foldM_raises (fun x => x = IntegrityError)); [|exact E1].
  intros s2 [k grp] x2. unfold update_entry. destruct (_ && _); congruence.
Qed.

(** X6. On a store that satisfies the schema, a run of [generate_hashes]
    that ends normally leaves the files and the field values as they
    were, gives every entry that has a field value besides its type tag
    the fingerprint [keyid] computes from those values and the title
    words of the store, and leaves every other entry as it was. *)
Theorem generate_hashes_hashes `{Collaborators} (db db' : Store) :
  wellformed db -> generate_hashes db = Ok db' ->
  files db' = files db /\ values db' = values db /\
  entries db' = map (hashed db) (entries db).
Proof.
  intros Hwf E. apply (generate_hashes_result db db' Hwf) in E as [_ ->]. auto.
Qed.

(** X7. On a store that satisfies the schema, [generate_hashes] ends
    normally exactly when no entry with a field value besides its type
    tag gets the empty text as fingerprint; when it raises, it raises
    the integrity error of the CHECK on the hash column. *)
Theorem generate_hashes_refuses_empty_hash `{Collaborators} (db : Store) :
  wellformed db ->
  ((exists db', generate_hashes db = Ok db') <->
   (forall e, e ∈ entries db -> hash_rows db (Entry.pk e) <> [] ->
              hash_of db (Entry.pk e) <> "")) /\
  (forall x, generate_hashes db = Raise x -> x = IntegrityError).
Proof.
  intros Hwf. split; [|intros x; apply generate_hashes_raises]. split.
  - intros [db' E]. apply (generate_hashes_result db db' Hwf) in E as [Hok _]. exact Hok.
  - intros Hok. eexists. apply (generate_hashes_result db _ Hwf). auto.
Qed.

Lemma bare_store_wf : wellformed bare_store.
Proof. apply (import_bibfiles_wf (H:=sample) _ _ import_bare). Qed.

Lemma generate_hashes_hashes_witness :
  wellformed bare_store /\
  generate_hashes (H:=sample) bare_store = Ok half_hashed_store /\
  files half_hashed_store = files bare_store /\
  values half_hashed_store = values bare_store /\
  entries half_hashed_store = map (hashed (H:=sample) bare_store) (entries bare_store).
Proof.
  split; [apply bare_store_wf|]. split; [apply generate_hashes_bare|].
  apply (generate_hashes_hashes (H:=sample) bare_store half_hashed_store bare_store_wf
           generate_hashes_bare).
Defined.

Lemma generate_hashes_refuses_empty_hash_witness :
  wellformed bare_store /\
  ((exists db', generate_hashes (H:=sample) bare_store = Ok db') <->
   (forall e, e ∈ entries bare_store -> hash_rows bare_store (Entry.pk e) <> [] ->
              hash_of (H:=sample) bare_store (Entry.pk e) <> "")) /\
  (forall x, generate_hashes (H:=sample) bare_store = Raise x -> x = IntegrityError).
Proof.
  split; [apply bare_store_wf|].
  apply (generate_hashes_refuses_empty_hash (H:=sample) bare_store bare_store_wf).
Defined.

(** ** assign_ids: what it leaves alone *)

Lemma same_source_refl db : same_source db db.
Proof. repeat split. Qed.

Lemma same_source_trans db1 db2 db3 :
  same_source db1 db2 -> same_source db2 db3 -> same_source db1 db3.
Proof. intros (? & ? & ?) (? & ? & ?). repeat split; congruence. Qed.

Lemma update_where_same_source cond set db :
  (forall e, imported_columns (set e) = imported_columns e) ->
  same_source db (update_where cond set db).
Proof.
  intros Hset. split; [reflexivity|]. split; [reflexivity|].
  apply update_where_keeps, Hset.
Qed.

Lemma foldM_same_source {A} (f : Store -> A -> result Store) (l : list A) db db' :
  (forall s x s', f s x = Ok s' -> same_source s s') ->
  foldM f db l = Ok db' -> same_source db db'.
Proof.
  intros Hf E.
  apply (foldM_invariant (same_source db) f l db db' (same_source_refl db)); [|exact E].
  intros s x s' _ Hs Hx. apply (same_source_trans _ s); [exact Hs|apply (Hf _ _ _ Hx)].
Qed.

Lemma resolve_splits_same_source `{Collaborators} db db' :
  resolve_splits db = Ok db' -> same_source db db'.
Proof.
  apply foldM_same_source. intros s [refid group] s' E.
  apply bind_Ok in E as (new & _ & [= <-]).
  apply update_where_same_source. reflexivity.
Qed.

Lemma resolve_merges_same_source `{Collaborators} db db' :
  resolve_merges db = Ok db' -> same_source db db'.
Proof.
  apply foldM_same_source. intros s [hash_ group] s' E.
  apply bind_Ok in E as (old & _ & [= <-]).
  apply update_where_same_source. reflexivity.
Qed.

Lemma update_new_same_source params db : same_source db (update_new params db).
Proof.
  unfold update_new. revert db. induction params as [|[i h] params IH]; intros db; simpl.
  - apply same_source_refl.
  - eapply same_source_trans; [|apply IH].
    apply update_where_same_source. reflexivity.
Qed.

(** The run of [assign_ids], stage by stage. *)
Lemma assign_ids_stages `{Collaborators} db db' :
  assign_ids db = Ok db' <->
  exists db1 db2,
    allhash db = true /\
    resolve_splits (reset_entries db) = Ok db1 /\ nosplits db1 = true /\
    resolve_merges db1 = Ok db2 /\ nomerges (update_unchanged db2) = true /\
    db' = assign_new (update_identified (update_unchanged db2)) /\
    allid db' = true /\ onetoone db' = true.
Proof.
  unfold assign_ids. split.
  - intros E.
    apply bind_Ok in E as ([] & H1 & E). apply assert_Ok in H1.
    apply bind_Ok in E as (db1 & H2 & E).
    apply bind_Ok in E as ([] & H3 & E). apply assert_Ok in H3.
    apply bind_Ok in E as (db2 & H4 & E).
    apply bind_Ok in E as ([] & H5 & E). apply assert_Ok in H5.
    apply bind_Ok in E as ([] & H6 & E). apply assert_Ok in H6.
    apply bind_Ok in E as ([] & H7 & E). apply assert_Ok in H7.
    injection E as <-. exists db1, db2. auto 10.
  - intros (db1 & db2 & H1 & H2 & H3 & H4 & H5 & -> & H6 & H7).
    rewrite H1. simpl. rewrite H2. simpl. rewrite H3. simpl. rewrite H4. simpl.
    rewrite H5. simpl. rewrite H6. simpl. rewrite H7. reflexivity.
Qed.

Lemma assign_ids_same_source `{Collaborators} db db' :
  assign_ids db = Ok db' -> same_source db db'.
Proof.
  intros E. apply assign_ids_stages in E
    as (db1 & db2 & _ & H2 & _ & H4 & _ & -> & _).
  apply (same_source_trans _ (reset_entries db));
    [apply update_where_same_source; reflexivity|].
  apply (same_source_trans _ db1); [apply resolve_splits_same_source, H2|].
  apply (same_source_trans _ db2); [apply resolve_merges_same_source, H4|].
  apply (same_source_trans _ (update_unchanged db2));
    [apply update_where_same_source; reflexivity|].
  apply (same_source_trans _ (update_identified (update_unchanged db2)));
    [apply update_where_same_source; reflexivity|].
  apply update_new_same_source.
Qed.

(** X8. A run of [assign_ids] that ends normally writes nothing but the
    split ids and ids of the entries: the files and the field values
    are as before, and every entry keeps its place, its key, its file,
    its bibkey, its prior identifier and its hash. *)
Theorem assign_ids_frame `{Collaborators} (db db' : Store) :
  assign_ids db = Ok db' ->
  files db' = files db /\ values db' = values db /\
  map imported_columns (entries db') = map imported_columns (entries db).
Proof. apply assign_ids_same_source. Qed.

Lemma existsb_fmap {A B} (f : B -> bool) (g : A -> B) (l : list A) :
  existsb f (map g l) = existsb (fun x => f (g x)) l.
Proof. induction l as [|x l IH]; simpl; [reflexivity|]. rewrite IH. reflexivity. Qed.

Lemma assign_ids_source `{Collaborators} db1 db2 :
  same_source db1 db2 -> assign_ids db2 = assign_ids db1.
Proof.
  intros (Hf & Hv & He).
  assert (Hreset : reset_entries db2 = reset_entries db1).
  { unfold reset_entries, update_where, with_entries. rewrite Hf, Hv. f_equal.
    transitivity (map reset_row (map imported_columns (entries db2))).
    - rewrite map_map. apply map_ext. intros []. reflexivity.
    - rewrite He, map_map. apply map_ext. intros []. reflexivity. }
  assert (Hall : allhash db2 = allhash db1).
  { unfold allhash. f_equal.
    transitivity (existsb (fun c : Z * Z * string * option Z * option string =>
                             is_null c.2) (map imported_columns (entries db2))).
    - rewrite existsb_fmap. reflexivity.
    - rewrite He, existsb_fmap. reflexivity. }
  unfold assign_ids. rewrite Hall, Hreset. reflexivity.
Qed.

(** X9. [assign_ids] is idempotent: run again on the store it returned,
    it returns that store. *)
Theorem assign_ids_idempotent `{Collaborators} (db db' : Store) :
  assign_ids db = Ok db' -> assign_ids db' = Ok db'.
Proof.
  intros E. rewrite (assign_ids_source db db'); [exact E|].
  apply assign_ids_same_source, E.
Qed.

Lemma assign_ids_frame_witness :
  assign_ids (H:=sample) tie_store = Ok tie_resolved /\
  files tie_resolved = files tie_store /\ values tie_resolved = values tie_store /\
  map imported_columns (entries tie_resolved) = map imported_columns (entries tie_store).
Proof.
  split; [apply assign_ids_tie|].
  apply (assign_ids_frame (H:=sample) tie_store tie_resolved assign_ids_tie).
Defined.

Lemma assign_ids_idempotent_witness :
  assign_ids (H:=sample) tie_store = Ok tie_resolved /\
  assign_ids (H:=sample) tie_resolved = Ok tie_resolved.
Proof.
  split; [apply assign_ids_tie|].
  apply (assign_ids_idempotent (H:=sample) tie_store tie_resolved assign_ids_tie).
Defined.

(** ** assign_ids: where the ids come from *)

Lemma select_nextid_source db db' :
  same_source db db' -> select_nextid db' = select_nextid db.
Proof.
  intros (_ & _ & He). unfold select_nextid. do 3 f_equal.
  transitivity (map (fun c : Z * Z * string * option Z * option string => c.1.2)
                    (map imported_columns (entries db'))).
  - rewrite map_map. reflexivity.
  - rewrite He, map_map. reflexivity.
Qed.

Lemma same_source_elem db db' e' :
  same_source db db' -> e' ∈ entries db' ->
  exists e, e ∈ entries db /\ imported_columns e = imported_columns e'.
Proof.
  intros (_ & _ & He) Hin. apply (same_cols_elem imported_columns db' db e' He Hin).
Qed.

Lemma update_new_row_split params e :
  split_grouping (update_new_row params e) = split_grouping e.
Proof.
  unfold update_new_row. revert e.
  induction params as [|[i h] params IH]; intros e; simpl; [reflexivity|].
  rewrite IH. destruct (holds _); reflexivity.
Qed.

Lemma assign_ids_origin `{Collaborators} db db' e' :
  assign_ids db = Ok db' -> e' ∈ entries db' ->
  (forall s, Entry.srefid e' = Some s -> Entry.refid e' = Some s) /\
  (forall i, Entry.id e' = Some i ->
     (exists e0, e0 ∈ entries db /\ Entry.refid e0 = Some i /\
                 Entry.hash e0 = Entry.hash e') \/
     select_nextid db <= i).
Proof.
  intros E He'. pose proof (assign_ids_same_source db db' E) as Hsrc.
  apply assign_ids_stages in E
    as (db1 & db2 & Hallhash & Esplit & _ & Emerge & _ & -> & _).
  set (db3 := update_unchanged db2) in *.
  set (db4 := update_identified db3) in *.
  destruct (resolve_splits_state _ _ (reset_entries_state db) Esplit) as [Hst1 Hcols1].
  assert (Hcols0 : map old_grouping (entries (reset_entries db))
                   = map old_grouping (entries db))
    by (apply update_where_keeps; reflexivity).
  destruct (resolve_merges_state db1 db2 Hst1 Emerge) as [Hids2 Hcols2].
  destruct (update_unchanged_state db1 db2 Hids2 Hcols2) as [Hids3 Hcols3].
  fold db3 in Hids3, Hcols3.
  assert (Hcols4 : map split_grouping (entries db4) = map split_grouping (entries db1)).
  { rewrite <- Hcols3. apply update_where_keeps. reflexivity. }
  assert (Hhash4 : forall e, e ∈ entries db4 -> exists h, Entry.hash e = Some h).
  { apply allhash_true. apply (allhash_same_cols db1).
    - apply split_to_old_grouping, Hcols4.
    - apply (allhash_same_cols db); [congruence|exact Hallhash]. }
  assert (Hids4 : ids_from_split_ids db1 db4).
  { intros e i He Hi. apply update_identified_elem in He as (e0 & He0 & Hc & Hid).
    unfold split_grouping in Hc. injection Hc as _ Hh _.
    destruct Hid as [Hid|(other & Ho & Hho & Hio & _)].
    - destruct (Hids3 e0 i He0) as (e1 & He1 & Hs1 & Hh1); [congruence|].
      exists e1. split; [exact He1|]. split; congruence.
    - destruct (Hids3 other i Ho) as (e1 & He1 & Hs1 & Hh1); [congruence|].
      exists e1. split; [exact He1|]. split; congruence. }
  assert (Hold : forall e0, e0 ∈ entries db1 ->
            exists e, e ∈ entries db /\ old_grouping e = old_grouping e0).
  { intros e0 He0. apply (same_cols_elem old_grouping db1 db e0); [congruence|exact He0]. }
  split.
  - intros s Hs. unfold assign_new in He'. rewrite update_new_entries in He'.
    apply list_elem_of_fmap in He' as (e4 & -> & He4).
    pose proof (update_new_row_split (new_params db4) e4) as Hsp.
    destruct (same_cols_elem split_grouping db4 db1 e4 Hcols4 He4) as (e1 & He1 & Hc).
    rewrite <- Hsp in Hc. unfold split_grouping in Hc. injection Hc as Hr _ Hs1.
    destruct (Hst1 e1 He1) as [_ Hrs]. rewrite <- Hr. apply Hrs. congruence.
  - intros i Hi.
    apply (assign_new_elem db4 e' Hhash4) in He' as (e4 & He4 & Hh & Hcase).
    destruct Hcase as [(j & Hp & Hj)|(_ & -> & _)].
    + right. assert (j = i) as -> by congruence.
      apply new_params_hash in Hp as [_ Hge].
      assert (Hn : select_nextid db4 = select_nextid db); [|lia].
      unfold select_nextid. do 3 f_equal.
      transitivity (map (fun c : option Z * option string * option Z => c.1.1)
                        (map split_grouping (entries db4))).
      { rewrite map_map. reflexivity. }
      rewrite Hcols4.
      transitivity (map (fun c : option Z * option string => c.1)
                        (map old_grouping (entries db1))).
      { rewrite !map_map. reflexivity. }
      rewrite Hcols1, Hcols0, map_map. reflexivity.
    + left. destruct (Hids4 e4 i He4 Hi) as (e1 & He1 & Hs1 & Hh1).
      destruct (Hst1 e1 He1) as [_ Hrs]. specialize (Hrs i Hs1).
      destruct (Hold e1 He1) as (e0 & He0 & Hc). unfold old_grouping in Hc.
      injection Hc as Hr0 Hh0. exists e0. split; [exact He0|]. split; congruence.
Qed.

Lemma select_nextid_pos db :
  (forall e r, e ∈ entries db -> Entry.refid e = Some r -> 0 < r) ->
  0 < select_nextid db.
Proof.
  intros Hpos. unfold select_nextid, sql_max.
  destruct (omap (fun x => x) (map Entry.refid (entries db))) as [|x xs] eqn:E.
  - simpl. lia.
  - simpl. pose proof (foldl_max_ge x xs) as [Hx _].
    assert (Hin : x ∈ omap (fun x => x) (map Entry.refid (entries db)))
      by (rewrite E; left).
    apply list_elem_of_omap in Hin as (o & Ho & Hx').
    apply list_elem_of_fmap in Ho as (e & -> & He).
    pose proof (Hpos e x He Hx'). lia.
Qed.

(** X10. When the prior identifiers of the store are positive integers,
    as the CHECK on that column demands: after [assign_ids], the id of
    a record is positive, and it is the prior identifier of a record
    with the same hash, or a new number above every prior identifier of
    the store; no id moves from one hash to another. *)
Theorem assign_ids_id_origin `{Collaborators} (db db' : Store) (e' : Entry.t) (i : Z) :
  (forall e r, e ∈ entries db -> Entry.refid e = Some r -> 0 < r) ->
  assign_ids db = Ok db' -> e' ∈ entries db' -> Entry.id e' = Some i ->
  0 < i /\
  ((exists e0, e0 ∈ entries db /\ Entry.refid e0 = Some i /\
               Entry.hash e0 = Entry.hash e') \/
   (forall e0 r, e0 ∈ entries db -> Entry.refid e0 = Some r -> r < i)).
Proof.
  intros Hpos E He' Hi. destruct (assign_ids_origin db db' e' E He') as [_ Hid].
  destruct (Hid i Hi) as [Hold|Hnew].
  - split; [|left; exact Hold]. destruct Hold as (e0 & He0 & Hr & _).
    apply (Hpos e0 i He0 Hr).
  - split; [pose proof (select_nextid_pos db Hpos); lia|right].
    intros e0 r He0 Hr. pose proof (select_nextid_gt db e0 r He0 Hr). lia.
Qed.

(** X11. When the prior identifiers of the store are positive, as the
    CHECK on that column demands, every split id and every id that
    [assign_ids] writes is positive: the CHECKs on those two columns
    cannot fail. *)
Theorem assign_ids_positive `{Collaborators} (db db' : Store) :
  (forall e r, e ∈ entries db -> Entry.refid e = Some r -> 0 < r) ->
  assign_ids db = Ok db' ->
  forall e', e' ∈ entries db' ->
    (forall s, Entry.srefid e' = Some s -> 0 < s) /\
    (forall i, Entry.id e' = Some i -> 0 < i).
Proof.
  intros Hpos E e' He'. destruct (assign_ids_origin db db' e' E He') as [Hs Hid].
  pose proof (assign_ids_same_source db db' E) as Hsrc.
  split.
  - intros s Hsr. apply Hs in Hsr.
    destruct (same_source_elem db db' e' Hsrc He') as (e & He & Hc).
    unfold imported_columns in Hc. injection Hc as _ _ _ Hr _.
    apply (Hpos e s He). congruence.
  - intros i Hi. destruct (Hid i Hi) as [(e0 & He0 & Hr & _)|Hnew].
    + apply (Hpos e0 i He0 Hr).
    + pose proof (select_nextid_pos db Hpos). lia.
Qed.

(** ** assign_ids: groups that did not change keep their id *)

(** The hash the split loop keeps a prior identifier on is the hash of
    one of its records. *)
Lemma split_target_elem `{Collaborators} db0 db refid group new :
  (refid, group) ∈ groupby_first (select_split db0) ->
  split_target db refid group = Ok new ->
  exists e0, e0 ∈ entries db0 /\ Entry.refid e0 = refid /\ Entry.hash e0 = new.
Proof.
  intros Hin E. unfold split_target in E.
  apply bind_Ok in E as (old & _ & E). apply bind_Ok in E as (cand & Ecand & E).
  apply bind_Ok in E as ([best view] & Emin & [= <-]). simpl.
  destruct (candidates_keys db str_key _ cand Ecand) as [Hkeys _].
  apply py_min_first in Emin as (l1 & l2 & El & _).
  assert (Hb : best ∈ unique (map GroupRow.second group)).
  { rewrite <- Hkeys, El, map_app. apply elem_of_app. right. left. }
  apply unique_elem, list_elem_of_fmap in Hb as (r & -> & Hr).
  destruct (groupby_group _ _ _ _ Hin) as [_ Hk]. destruct (Hk r Hr) as [Hsel Hfirst].
  unfold select_split in Hsel.
  apply order_by_elem, entry_file_elem in Hsel as (e0 & He0 & _ & Hf & Hs).
  exists e0. split; [exact He0|]. split; congruence.
Qed.

Lemma same_group_cols r h db db' :
  map old_grouping (entries db') = map old_grouping (entries db) ->
  (forall e, e ∈ entries db -> same_group r h e) ->
  forall e, e ∈ entries db' -> same_group r h e.
Proof.
  intros Hcols Hdb e He.
  destruct (same_cols_elem old_grouping db' db e Hcols He) as (e0 & He0 & Hc).
  unfold old_grouping in Hc. injection Hc as Hr Hh.
  destruct (Hdb e0 He0) as [H1 H2]. unfold same_group. rewrite <- Hr, <- Hh. auto.
Qed.

Lemma assign_ids_unchanged_group `{Collaborators} db db' r h :
  assign_ids db = Ok db' ->
  (exists o, o ∈ entries db /\ Entry.refid o = Some r /\ Entry.hash o = Some h) ->
  (forall e, e ∈ entries db -> same_group r h e) ->
  forall e', e' ∈ entries db' -> Entry.hash e' = Some h -> Entry.id e' = Some r.
Proof.
  intros E (o & Ho & Hor & Hoh) Hgroup.
  apply assign_ids_stages in E
    as (db1 & db2 & Hallhash & Esplit & _ & Emerge & _ & -> & _).
  set (db0 := reset_entries db) in *.
  set (db3 := update_unchanged db2) in *.
  set (db4 := update_identified db3) in *.
  assert (Hcols0 : map old_grouping (entries db0) = map old_grouping (entries db))
    by (apply update_where_keeps; reflexivity).
  pose proof (same_group_cols r h db db0 Hcols0 Hgroup) as Hgroup0.
  (* stage 1: the records of the hash keep their split id *)
  assert (H1 : (forall x, x ∈ entries db1 -> Entry.hash x = Some h ->
                  Entry.id x = None /\ Entry.srefid x = Entry.refid x) /\
               map old_grouping (entries db1) = map old_grouping (entries db0)).
  { unfold resolve_splits in Esplit.
    apply (foldM_invariant
             (fun s => (forall x, x ∈ entries s -> Entry.hash x = Some h ->
                          Entry.id x = None /\ Entry.srefid x = Entry.refid x) /\
                       map old_grouping (entries s) = map old_grouping (entries db0))
             _ _ db0 db1) in Esplit; [exact Esplit| |].
    - split; [|reflexivity]. intros x Hx _. unfold db0, reset_entries in Hx.
      apply update_where_elem in Hx as (x0 & _ & ->). simpl. auto.
    - intros s [refid group] s' Hin [Hs Hcols] Hstep.
      apply bind_Ok in Hstep as (new & Hnew & [= <-]).
      split; [|rewrite <- Hcols; apply update_where_keeps; reflexivity].
      intros x' Hx' Hh. unfold update_split in Hx'.
      apply update_where_elem in Hx' as (x & Hx & ->).
      destruct (holds _) eqn:C; [|apply Hs; assumption]. exfalso.
      simpl in Hh. apply holds_and in C as [C1 C2].
      apply holds_eq in C1 as (a & Hxa & ->).
      apply holds_ne in C2 as (hx & hn & Hhx & -> & Hne).
      destruct (split_target_elem db0 s _ _ _ Hin Hnew) as (e0 & He0 & Hr0 & Hh0).
      destruct (same_group_cols r h db0 s Hcols Hgroup0 x Hx) as [_ Hx2].
      assert (a = r) as -> by (apply Hx2; assumption).
      destruct (Hgroup0 e0 He0) as [He1 _]. specialize (He1 Hr0). congruence. }
  destruct H1 as [H1 Hcols1].
  pose proof (same_group_cols r h db0 db1 Hcols1 Hgroup0) as Hgroup1.
  (* stage 2: the hash is not among the merging ones *)
  assert (H2 : (forall x, x ∈ entries db2 -> Entry.hash x = Some h ->
                  Entry.id x = None /\ Entry.srefid x = Entry.refid x) /\
               map old_grouping (entries db2) = map old_grouping (entries db1)).
  { unfold resolve_merges in Emerge.
    apply (foldM_invariant
             (fun s => (forall x, x ∈ entries s -> Entry.hash x = Some h ->
                          Entry.id x = None /\ Entry.srefid x = Entry.refid x) /\
                       map old_grouping (entries s) = map old_grouping (entries db1))
             _ _ db1 db2) in Emerge; [exact Emerge|split; [exact H1|reflexivity]|].
    intros s [hash_ group] s' Hin [Hs Hcols] Hstep.
    apply bind_Ok in Hstep as (old & _ & [= <-]).
    split; [|rewrite <- Hcols; apply update_where_keeps; reflexivity].
    intros x' Hx' Hh. unfold update_merge in Hx'.
    apply update_where_elem in Hx' as (x & Hx & ->).
    destruct (holds _) eqn:C; [|apply Hs; assumption]. exfalso.
    simpl in Hh. apply holds_and in C as [C1 _].
    apply holds_eq in C1 as (a & Hxa & ->). assert (a = h) as -> by congruence.
    destruct (groupby_group _ _ _ _ Hin) as [Hne Hk].
    destruct group as [|g group]; [congruence|].
    destruct (Hk g ltac:(left)) as [Hsel Hfirst]. unfold select_merge in Hsel.
    apply order_by_elem, entry_file_elem in Hsel as (e1 & He1 & Hm & Hf & _).
    unfold is_merge, exists_other in Hm. apply existsb_elem in Hm as (e2 & He2 & Hm).
    apply holds_and in Hm as [Hm1 Hm2]. apply holds_eq in Hm1 as (b & Hb2 & Hb1).
    apply holds_ne in Hm2 as (s2 & s1 & Hs2 & Hs1 & Hdiff).
    assert (b = h) as -> by congruence.
    destruct (H1 e1 He1 Hb1) as [_ Hr1]. destruct (H1 e2 He2 Hb2) as [_ Hr2].
    destruct (Hgroup1 e1 He1) as [_ Hg1]. destruct (Hgroup1 e2 He2) as [_ Hg2].
    apply Hdiff. rewrite (Hg1 s1), (Hg2 s2); [reflexivity|congruence..]. }
  destruct H2 as [H2 Hcols2].
  assert (Hcols3 : map old_grouping (entries db3) = map old_grouping (entries db2))
    by (apply update_where_keeps; reflexivity).
  assert (Hcols4 : map old_grouping (entries db4) = map old_grouping (entries db3))
    by (apply update_where_keeps; reflexivity).
  assert (Hgroup2 : forall e, e ∈ entries db2 -> same_group r h e)
    by (apply (same_group_cols r h db1 db2 Hcols2 Hgroup1)).
  (* stage 3: those with a prior identifier get it as id *)
  assert (H3 : forall x, x ∈ entries db3 -> Entry.hash x = Some h ->
                 (Entry.refid x = Some r /\ Entry.id x = Some r) \/
                 (Entry.refid x = None /\ Entry.id x = None)).
  { intros x' Hx' Hh. unfold db3, update_unchanged in Hx'.
    apply update_where_elem in Hx' as (x & Hx & ->).
    assert (Hhx : Entry.hash x = Some h) by (destruct (_ && _) in Hh; exact Hh).
    destruct (H2 x Hx Hhx) as [Hid Hsr]. destruct (Hgroup2 x Hx) as [_ Hg].
    rewrite Hid, Hsr. simpl. destruct (Entry.refid x) as [a|] eqn:Hr; simpl.
    - left. rewrite Hr, (Hg a Hhx eq_refl). auto.
    - right. auto. }
  assert (Ho3 : exists o3, o3 ∈ entries db3 /\ Entry.hash o3 = Some h /\
                           Entry.id o3 = Some r).
  { assert (Hc : map old_grouping (entries db) = map old_grouping (entries db3))
      by congruence.
    destruct (same_cols_elem old_grouping db db3 o Hc Ho) as (o3 & Ho3 & Hco).
    unfold old_grouping in Hco. injection Hco as Hr3 Hh3.
    exists o3. split; [exact Ho3|]. split; [congruence|].
    destruct (H3 o3 Ho3) as [[_ Hid]|[Hr _]]; [congruence|exact Hid|congruence]. }
  (* stage 4: the new records of the hash get that id *)
  assert (H4 : forall x, x ∈ entries db4 -> Entry.hash x = Some h ->
                 Entry.id x = Some r).
  { intros x' Hx' Hh. unfold db4, update_identified in Hx'.
    apply update_where_elem in Hx' as (x & Hx & ->).
    assert (Hhx : Entry.hash x = Some h) by (destruct (_ && _) in Hh; exact Hh).
    destruct (H3 x Hx Hhx) as [[Hr Hid]|[Hr Hid]].
    - rewrite Hr. simpl. exact Hid.
    - rewrite Hr. simpl.
      destruct Ho3 as (o3 & Ho3 & Hoh3 & Hoi3).
      assert (Hex : exists_other db3 (fun other =>
                holds (sql_eq (Entry.hash other) (Entry.hash x))
                && not_null (Entry.id other)) = true).
      { apply existsb_elem. exists o3. split; [exact Ho3|].
        apply andb_true_iff. split; [apply holds_eq; eauto|].
        apply not_null_true. eauto. }
      rewrite Hex. simpl. unfold identified_id.
      destruct (filter _ (entries db3)) as [|y ys] eqn:Ef.
      + exfalso.
        assert (Hin : o3 ∈ filter (fun other =>
                        holds (sql_eq (Entry.hash other) (Entry.hash x))
                        && not_null (Entry.id other) = true) (entries db3)).
        { apply list_elem_of_filter. split; [|exact Ho3].
          apply andb_true_iff. split; [apply holds_eq; eauto|].
          apply not_null_true. eauto. }
        rewrite Ef in Hin. inversion Hin.
      + assert (Hin : y ∈ filter (fun other =>
                        holds (sql_eq (Entry.hash other) (Entry.hash x))
                        && not_null (Entry.id other) = true) (entries db3))
          by (rewrite Ef; left).
        apply list_elem_of_filter in Hin as [Hc Hy].
        apply andb_true_iff in Hc as [Hc1 Hc2].
        apply holds_eq in Hc1 as (b & Hyb & Hxb). apply not_null_true in Hc2 as (i & Hi).
        destruct (H3 y Hy) as [[_ Hyid]|[_ Hyid]]; [congruence|exact Hyid|congruence]. }
  (* stage 5: no record of the hash is left without id *)
  assert (Hhash4 : forall e, e ∈ entries db4 -> exists a, Entry.hash e = Some a).
  { apply allhash_true. apply (allhash_same_cols db); [congruence|exact Hallhash]. }
  intros e' He' Hh'.
  apply (assign_new_elem db4 e' Hhash4) in He' as (e4 & He4 & Hh & Hcase).
  destruct Hcase as [(i & Hp & _)|(_ & -> & _)]; [exfalso|apply H4; assumption].
  apply new_params_hash in Hp as [Hp _].
  apply select_new_elem in Hp as (y & Hy & Hyid & Hyh).
  rewrite (H4 y Hy) in Hyid; [discriminate|congruence].
Qed.

(** X12. A group that did not change keeps its id: when the records with
    prior identifier [r] are all in the hash group [h], and no record of
    that hash group carries another prior identifier, then after
    [assign_ids] every record of the hash group, those new to the store
    included, has the id [r]. *)
Theorem assign_ids_keeps_unchanged `{Collaborators} (db db' : Store) (r : Z) (h : string) :
  assign_ids db = Ok db' ->
  (exists o, o ∈ entries db /\ Entry.refid o = Some r /\ Entry.hash o = Some h) ->
  (forall e, e ∈ entries db -> Entry.refid e = Some r -> Entry.hash e = Some h) ->
  (forall e r', e ∈ entries db -> Entry.hash e = Some h -> Entry.refid e = Some r' ->
                r' = r) ->
  forall e', e' ∈ entries db' -> Entry.hash e' = Some h -> Entry.id e' = Some r.
Proof.
  intros E Ho H1 H2. apply (assign_ids_unchanged_group db db' r h E Ho).
  intros e He. split; [apply H1, He|]. intros r' Hh Hr. apply (H2 e r' He Hh Hr).
Qed.

Lemma assign_ids_steady : assign_ids (H:=sample) steady_store = Ok steady_resolved.
Proof. vm_compute. reflexivity. Qed.

Lemma assign_ids_keeps_unchanged_witness :
  assign_ids (H:=sample) steady_store = Ok steady_resolved /\
  forall e', e' ∈ entries steady_resolved ->
             Entry.hash e' = Some "smith_grammar1999" -> Entry.id e' = Some 4.
Proof.
  split; [apply assign_ids_steady|].
  apply (assign_ids_keeps_unchanged (H:=sample) steady_store steady_resolved 4
           "smith_grammar1999" assign_ids_steady).
  - eexists. split; [left|]. split; reflexivity.
  - intros e He Hr. simpl in He. members He; simpl in *; congruence.
  - intros e r' He Hh Hr. simpl in He. members He; simpl in *; congruence.
Defined.

Lemma assign_ids_id_origin_witness :
  (forall e r, e ∈ entries tie_store -> Entry.refid e = Some r -> 0 < r) /\
  assign_ids (H:=sample) tie_store = Ok tie_resolved /\
  0 < 2 /\
  ((exists e0, e0 ∈ entries tie_store /\ Entry.refid e0 = Some 2 /\
               Entry.hash e0 = Some "Smith_Grammar1999") \/
   (forall e0 r, e0 ∈ entries tie_store -> Entry.refid e0 = Some r -> r < 2)).
Proof.
  assert (Hpos : forall e r, e ∈ entries tie_store -> Entry.refid e = Some r -> 0 < r).
  { intros e r He Hr. simpl in He. members He; simpl in Hr; try discriminate;
      injection Hr as <-; lia. }
  split; [exact Hpos|]. split; [apply assign_ids_tie|].
  apply (assign_ids_id_origin (H:=sample) tie_store tie_resolved
           (Entry.mk 1 1 "k0" None (Some "Smith_Grammar1999") None (Some 2)) 2
           Hpos assign_ids_tie); [left|reflexivity].
Defined.

Lemma assign_ids_positive_witness :
  (forall e r, e ∈ entries tie_store -> Entry.refid e = Some r -> 0 < r) /\
  assign_ids (H:=sample) tie_store = Ok tie_resolved /\
  forall e', e' ∈ entries tie_resolved ->
    (forall s, Entry.srefid e' = Some s -> 0 < s) /\
    (forall i, Entry.id e' = Some i -> 0 < i).
Proof.
  assert (Hpos : forall e r, e ∈ entries tie_store -> Entry.refid e = Some r -> 0 < r).
  { intros e r He Hr. simpl in He. members He; simpl in Hr; try discriminate;
      injection Hr as <-; lia. }
  split; [exact Hpos|]. split; [apply assign_ids_tie|].
  apply (assign_ids_positive (H:=sample) tie_store tie_resolved Hpos assign_ids_tie).
Defined.

(** ** assign_ids: the postcondition *)

(** When [assign_ids] runs through, every record has an id, and two
    records have the same hash exactly when they have the same id. *)
Lemma assign_ids_one_to_one `{Collaborators} (db db' : Store) :
  assign_ids db = Ok db' ->
  (forall e, e ∈ entries db' -> exists i, Entry.id e = Some i) /\
  (forall e1 e2, e1 ∈ entries db' -> e2 ∈ entries db' ->
     Entry.hash e1 = Entry.hash e2 <-> Entry.id e1 = Entry.id e2).
Proof.
  unfold assign_ids. intros E.
  apply bind_Ok in E as ([] & Hallhash & E). apply assert_Ok in Hallhash.
  apply bind_Ok in E as (db1 & Esplit & E).
  apply bind_Ok in E as ([] & Hnosplits & E). apply assert_Ok in Hnosplits.
  apply bind_Ok in E as (db2 & Emerge & E).
  apply bind_Ok in E as ([] & Hnomerges & E). apply assert_Ok in Hnomerges.
  apply bind_Ok in E as ([] & _ & E). apply bind_Ok in E as ([] & _ & E).
  injection E as <-.
  set (db3 := update_unchanged db2) in *.
  set (db4 := update_identified db3) in *.
  (* stages 0 and 1 *)
  destruct (resolve_splits_state _ _ (reset_entries_state db) Esplit) as [Hst1 Hcols1].
  assert (Hcols0 : map old_grouping (entries (reset_entries db))
                   = map old_grouping (entries db))
    by (apply update_where_keeps; reflexivity).
  assert (Hhash1 : allhash db1 = true).
  { apply (allhash_same_cols db); [congruence|exact Hallhash]. }
  pose proof (nosplits_true db1 Hhash1 Hnosplits) as Hsplit.
  (* stages 2 and 3 *)
  destruct (resolve_merges_state db1 db2 Hst1 Emerge) as [Hids2 Hcols2].
  destruct (update_unchanged_state db1 db2 Hids2 Hcols2) as [Hids3 Hcols3].
  fold db3 in Hids3, Hcols3.
  pose proof (nomerges_true db3 Hnomerges) as Hmerge3.
  (* stage 4 *)
  assert (Hcols4 : map split_grouping (entries db4) = map split_grouping (entries db1)).
  { rewrite <- Hcols3. apply update_where_keeps. reflexivity. }
  assert (Hhash4 : forall e, e ∈ entries db4 -> exists h, Entry.hash e = Some h).
  { apply allhash_true. apply (allhash_same_cols db1); [|exact Hhash1].
    apply split_to_old_grouping, Hcols4. }
  assert (Hsrc : forall e i, e ∈ entries db4 -> Entry.id e = Some i ->
            exists e0, e0 ∈ entries db3 /\ Entry.hash e0 = Entry.hash e /\
                       Entry.id e0 = Some i).
  { intros e i He Hi. apply update_identified_elem in He as (e0 & He0 & Hc & Hid).
    unfold split_grouping in Hc. injection Hc as _ Hh _.
    destruct Hid as [Hid|(other & Ho & Hho & Hio & _)].
    - exists e0. split; [exact He0|]. split; congruence.
    - exists other. split; [exact Ho|]. split; congruence. }
  assert (Hids4 : ids_from_split_ids db1 db4).
  { intros e i He Hi. destruct (Hsrc e i He Hi) as (e0 & He0 & Hh & Hi0).
    destruct (Hids3 e0 i He0 Hi0) as (e1 & He1 & Hs1 & Hh1).
    exists e1. split; [exact He1|]. split; congruence. }
  assert (Hmerge4 : forall e1 e2 i1 i2, e1 ∈ entries db4 -> e2 ∈ entries db4 ->
            Entry.hash e1 = Entry.hash e2 ->
            Entry.id e1 = Some i1 -> Entry.id e2 = Some i2 -> i1 = i2).
  { intros e1 e2 i1 i2 H1 H2 Hh Hi1 Hi2.
    destruct (Hsrc e1 i1 H1 Hi1) as (a & Ha & Hha & Hia).
    destruct (Hsrc e2 i2 H2 Hi2) as (b & Hb & Hhb & Hib).
    destruct (Hhash4 e1 H1) as (h & Hh1).
    apply (Hmerge3 a b h i1 i2); congruence. }
  assert (Hold : forall e i, e ∈ entries db4 -> Entry.id e = Some i ->
            i < select_nextid db4).
  { intros e i He Hi. destruct (Hids4 e i He Hi) as (e0 & He0 & Hs0 & _).
    destruct (Hst1 e0 He0) as [_ Hr]. specialize (Hr i Hs0).
    destruct (same_cols_elem split_grouping db1 db4 e0 (eq_sym Hcols4) He0)
      as (e4 & He4 & Hc).
    unfold split_grouping in Hc. injection Hc as Hr4 _ _.
    apply (select_nextid_gt db4 e4); [exact He4|congruence]. }
  (* stage 5 *)
  split.
  - intros e He. apply (assign_new_elem db4 e Hhash4) in He
      as (e0 & He0 & _ & [(i & _ & Hi)|(_ & -> & Hi)]); eauto.
  - intros e1 e2 H1 H2.
    apply (assign_new_elem db4 e1 Hhash4) in H1 as (a & Ha & Hha & Hca).
    apply (assign_new_elem db4 e2 Hhash4) in H2 as (b & Hb & Hhb & Hcb).
    rewrite Hha, Hhb.
    destruct Hca as [(i1 & Hp1 & Hi1)|(Hn1 & -> & i1 & Hi1)],
             Hcb as [(i2 & Hp2 & Hi2)|(Hn2 & -> & i2 & Hi2)];
      rewrite ?Hi1, ?Hi2.
    + split.
      * intros Hh. rewrite Hh in Hp1. f_equal.
        apply (new_params_hash_once db4 i1 i2 _ Hp1 Hp2).
      * intros [= <-]. apply (new_params_id_once db4 i1 _ _ Hp1 Hp2).
    + split.
      * intros Hh. exfalso. apply Hn2. rewrite <- Hh.
        apply (new_params_hash db4 i1), Hp1.
      * intros [= <-]. exfalso.
        pose proof (Hold b i1 Hb Hi2).
        destruct (new_params_hash db4 i1 _ Hp1) as [_ Hge]. lia.
    + split.
      * intros Hh. exfalso. apply Hn1. rewrite Hh.
        apply (new_params_hash db4 i2), Hp2.
      * intros [= <-]. exfalso.
        pose proof (Hold a i1 Ha Hi1).
        destruct (new_params_hash db4 i1 _ Hp2) as [_ Hge]. lia.
    + split.
      * intros Hh. f_equal. apply (Hmerge4 a b i1 i2 Ha Hb Hh Hi1 Hi2).
      * intros [= <-].
        destruct (Hids4 a i1 Ha Hi1) as (a0 & Ha0 & Hsa & Hha0).
        destruct (Hids4 b i1 Hb Hi2) as (b0 & Hb0 & Hsb & Hhb0).
        rewrite <- Hha0, <- Hhb0. apply (Hsplit a0 b0 i1 Ha0 Hb0 Hsa Hsb).
Qed.

(** X17. On a store whose prior identifiers are positive integers, as
    the CHECK on that column demands: when [assign_ids] runs through,
    every record has an id, a positive one, and two records have the
    same hash exactly when they have the same id. *)
Theorem assign_ids_bijection `{Collaborators} (db db' : Store) :
  (forall e r, e ∈ entries db -> Entry.refid e = Some r -> 0 < r) ->
  assign_ids db = Ok db' ->
  (forall e, e ∈ entries db' -> exists i, Entry.id e = Some i /\ 0 < i) /\
  (forall e1 e2, e1 ∈ entries db' -> e2 ∈ entries db' ->
     Entry.hash e1 = Entry.hash e2 <-> Entry.id e1 = Entry.id e2).
Proof.
  intros Hpos E. destruct (assign_ids_one_to_one db db' E) as [Hall Hiff].
  split; [|exact Hiff]. intros e He. destruct (Hall e He) as (i & Hi).
  exists i. split; [exact Hi|].
  destruct (assign_ids_origin db db' e E He) as [_ Hid].
  destruct (Hid i Hi) as [(e0 & He0 & Hr & _)|Hnew].
  - apply (Hpos e0 i He0 Hr).
  - pose proof (select_nextid_pos db Hpos). lia.
Qed.

Lemma assign_ids_fresh : assign_ids (H:=sample) fresh_store = Ok fresh_resolved.
Proof. vm_compute. reflexivity. Qed.

Lemma assign_ids_bijection_witness :
  (forall e r, e ∈ entries fresh_store -> Entry.refid e = Some r -> 0 < r) /\
  assign_ids (H:=sample) fresh_store = Ok fresh_resolved /\
  (forall e, e ∈ entries fresh_resolved -> exists i, Entry.id e = Some i /\ 0 < i) /\
  (forall e1 e2, e1 ∈ entries fresh_resolved -> e2 ∈ entries fresh_resolved ->
     Entry.hash e1 = Entry.hash e2 <-> Entry.id e1 = Entry.id e2).
Proof.
  assert (Hpos : forall e r, e ∈ entries fresh_store -> Entry.refid e = Some r -> 0 < r).
  { intros e r He Hr. simpl in He. members He; simpl in Hr; try discriminate;
      injection Hr as <-; lia. }
  split; [exact Hpos|]. split; [apply assign_ids_fresh|].
  apply (assign_ids_bijection (H:=sample) fresh_store fresh_resolved Hpos assign_ids_fresh).
Defined.

(** ** The schema through the later stages *)

(** The constraints are about the files, the values and the imported
    columns of the entries; a stage that leaves those alone keeps them. *)
Lemma wellformed_source db db' :
  files db' = files db -> values db' = values db ->
  map entry_source (entries db') = map entry_source (entries db) ->
  wellformed db -> wellformed db'.
Proof.
  intros Hf Hv He Hwf.
  assert (Hpk : map Entry.pk (entries db') = map Entry.pk (entries db)).
  { apply (f_equal (map (fun c : Z * Z * string * option Z => c.1.1.1))) in He.
    rewrite !map_map in He. exact He. }
  assert (Hkey : map entry_key (entries db') = map entry_key (entries db)).
  { apply (f_equal (map (fun c : Z * Z * string * option Z => (c.1.1.2, c.1.2)))) in He.
    rewrite !map_map in He. exact He. }
  assert (Helem : forall e, e ∈ entries db' ->
            exists e0, e0 ∈ entries db /\ entry_source e0 = entry_source e).
  { intros e Hin. apply (same_cols_elem entry_source db' db e He Hin). }
  constructor; rewrite ?Hf, ?Hv, ?Hpk, ?Hkey; try apply Hwf.
  - intros e Hin. destruct (Helem e Hin) as (e0 & He0 & Hc). injection Hc as _ Hc _ _.
    rewrite <- Hc. apply (wf_entry_file _ Hwf), He0.
  - intros e Hin. destruct (Helem e Hin) as (e0 & He0 & Hc). injection Hc as Hc _ _ _.
    rewrite <- Hc. apply (wf_entry_type _ Hwf), He0.
  - intros e Hin. destruct (Helem e Hin) as (e0 & He0 & Hc). injection Hc as _ _ Hb Hr.
    rewrite <- Hb, <- Hr. apply (wf_entry_check _ Hwf), He0.
Qed.

Lemma hashed_source `{Collaborators} db e : entry_source (hashed db e) = entry_source e.
Proof. unfold hashed. destruct (hash_rows db (Entry.pk e)); reflexivity. Qed.

Lemma generate_hashes_wf `{Collaborators} db db' :
  wellformed db -> generate_hashes db = Ok db' -> wellformed db'.
Proof.
  intros Hwf E. apply (generate_hashes_result db db' Hwf) in E as [_ ->].
  apply (wellformed_source db); try reflexivity; [|exact Hwf].
  simpl. rewrite map_map. apply map_ext. intros e. apply hashed_source.
Qed.

Lemma assign_ids_wf `{Collaborators} db db' :
  wellformed db -> assign_ids db = Ok db' -> wellformed db'.
Proof.
  intros Hwf E. destruct (assign_ids_same_source db db' E) as (Hf & Hv & He).
  apply (wellformed_source db); try assumption.
  apply (f_equal (map (fun c : Z * Z * string * option Z * option string => c.1))) in He.
  rewrite !map_map in He. exact He.
Qed.

Lemma tie_store_wf : wellformed tie_store.
Proof.
  pose proof import_tie as E. apply bind_Ok in E as (db & E1 & E2).
  apply (generate_hashes_wf (H:=sample) db); [|exact E2].
  apply (import_bibfiles_wf (H:=sample) _ _ E1).
Qed.

Lemma tie_resolved_wf : wellformed tie_resolved.
Proof. apply (assign_ids_wf (H:=sample) tie_store _ tie_store_wf assign_ids_tie). Qed.

(** ** merged *)

Lemma yield_until_elem {A B} (f : A -> export_exn + B) (l : list A) out st :
  yield_until f l = (out, st) ->
  (forall y, y ∈ out -> exists x, x ∈ l /\ f x = inr y) /\
  (forall e, st = Some e -> exists x, x ∈ l /\ f x = inl e).
Proof.
  revert out st. induction l as [|x l IH]; simpl; intros out st E.
  - injection E as <- <-. split; [intros y Hy; inversion Hy|discriminate].
  - destruct (f x) as [e|y] eqn:Ex.
    + injection E as <- <-. split; [intros y Hy; inversion Hy|].
      intros e' [= <-]. exists x. split; [left|exact Ex].
    + destruct (yield_until f l) as [ys st'] eqn:El. injection E as <- <-.
      destruct (IH ys st' eq_refl) as [IH1 IH2]. split.
      * intros y' Hy'. apply elem_of_cons in Hy' as [->|Hy'].
        -- exists x. split; [left|exact Ex].
        -- destruct (IH1 y' Hy') as (x' & Hx' & E'). exists x'. split; [right|]; assumption.
      * intros e He. destruct (IH2 e He) as (x' & Hx' & E').
        exists x'. split; [right|]; assumption.
Qed.

Lemma yield_until_all {A B} (f : A -> export_exn + B) (l : list A) :
  (forall x, x ∈ l -> exists y, f x = inr y) ->
  exists out, yield_until f l = (out, None) /\ Forall2 (fun x y => f x = inr y) l out.
Proof.
  induction l as [|x l IH]; simpl; intros Hl.
  - exists []. split; [reflexivity|constructor].
  - destruct (Hl x ltac:(left)) as (y & Ey). rewrite Ey.
    destruct IH as (out & -> & Hall); [intros x' Hx'; apply Hl; right; exact Hx'|].
    exists (y :: out). split; [reflexivity|]. constructor; assumption.
Qed.

(** The items of [__iter__]: the groups of the windows. *)
Lemma iter_items `{Collaborators} db size items :
  iter db size = Ok items ->
  allid db = true /\ onetoone db = true /\
  forall k grp, (k, grp) ∈ items <->
    exists w rows, w ∈ windowed db Entry.id size /\
      (k, rows) ∈ groupby id_hash (select_values_between db w.1 w.2) /\
      grp = group_fields rows.
Proof.
  unfold iter. intros E.
  apply bind_Ok in E as ([] & E1 & E). apply assert_Ok in E1.
  apply bind_Ok in E as ([] & E2 & E). apply assert_Ok in E2. injection E as <-.
  split; [exact E1|]. split; [exact E2|]. intros k grp.
  rewrite list_elem_of_bind. split.
  - intros ([first last] & Hin & Hw). apply list_elem_of_bind in Hin as ([k' rows] & Hin & Hg).
    apply list_elem_of_singleton in Hin. injection Hin as -> ->.
    exists (first, last), rows. auto.
  - intros ([first last] & rows & Hw & Hg & ->). exists (first, last). split; [|exact Hw].
    apply list_elem_of_bind. exists (k, rows). split; [left|exact Hg].
Qed.

(** A group of [__iter__] has rows, and they are rows of one record id
    that is not NULL. *)
Lemma iter_group_rows db w k rows :
  (k, rows) ∈ groupby id_hash (select_values_between db w.1 w.2) ->
  rows <> [] /\
  forall r, r ∈ rows ->
    r ∈ entry_file_value db /\ id_hash r = k /\
    exists v, Entry.id (Row.entry r) = Some v.
Proof.
  intros Hg. destruct (groupby_group _ _ _ _ Hg) as [Hne Hrows]. split; [exact Hne|].
  intros r Hr. destruct (Hrows r Hr) as [Hsel Hk].
  apply select_values_between_elem in Hsel as [Hin Hb].
  apply holds_between in Hb as (v & Hv & _). eauto.
Qed.

(** X13. What [merged] yields comes with the id of its group as
    [glottolog_ref_id]: each yielded entry is filed under the hash of a
    record of the store and carries the decimal numeral of that
    record's id in that field, whatever the bibfiles had there; its
    type tag is not among its fields; and [merged] never fails on
    formatting an id that is NULL. *)
Theorem merged_ref_id `{Collaborators} (db : Store)
    (out : list (option string * (string * gmap string string)))
    (st : option export_exn) :
  merged db = (out, st) ->
  (forall h ty fields, (h, (ty, fields)) ∈ out ->
     exists e i, e ∈ entries db /\ Entry.hash e = h /\ Entry.id e = Some i /\
                 fields !! REF_ID_FIELD = Some (text_of_int i) /\
                 fields !! ENTRYTYPE = None) /\
  st <> Some TypeError.
Proof.
  unfold merged. destruct (iter db 100) as [items|e] eqn:Eiter.
  2:{ intros [= <- <-]. split; [|discriminate]. intros h ty fields Hin. inversion Hin. }
  intros E. apply yield_until_elem in E as [Hout Hst].
  apply iter_items in Eiter as (_ & _ & Hitems).
  assert (Hid : forall k grp, (k, grp) ∈ items ->
            exists e i, e ∈ entries db /\ Entry.hash e = k.2 /\ Entry.id e = Some i /\
                        k.1 = Some i).
  { intros k grp Hin. apply Hitems in Hin as (w & rows & _ & Hg & _).
    destruct (iter_group_rows db w k rows Hg) as [Hne Hrows].
    destruct rows as [|r rows]; [congruence|].
    destruct (Hrows r ltac:(left)) as (Hr & Hk & v & Hv).
    exists (Row.entry r), v. split; [apply entry_file_value_entry, Hr|].
    subst k. unfold id_hash. simpl. auto. }
  split.
  - intros h ty fields Hin. destruct (Hout _ Hin) as ([[id_ hash_] grp] & Hitem & Ey).
    destruct (Hid _ _ Hitem) as (e & i & He & Hh & Hi & Hk). simpl in Hh, Hk. subst id_.
    unfold merged_item in Ey. unfold _merged_entry in Ey.
    destruct (_merged_entry_raw grp !! ENTRYTYPE) as [ty0|]; [|discriminate].
    injection Ey as <- <- <-. exists e, i. split; [exact He|]. split; [exact Hh|].
    split; [exact Hi|]. split; [apply lookup_insert_eq|].
    rewrite lookup_insert_ne by discriminate. apply lookup_delete_eq.
  - intros Est. destruct (Hst _ Est) as ([[id_ hash_] grp] & Hitem & Ey).
    destruct (Hid _ _ Hitem) as (e & i & _ & _ & _ & Hk). simpl in Hk. subst id_.
    unfold merged_item in Ey. destruct (_merged_entry grp) as [[ty fields]|]; discriminate.
Qed.

Lemma entry_file_value_elem db r :
  r ∈ entry_file_value db <->
  exists e f v, e ∈ entries db /\ f ∈ files db /\ File.pk f = Entry.file_pk e /\
    v ∈ values db /\ Value.entry_pk v = Entry.pk e /\
    r = Row.mk e (Value.field v) (Value.value v) (File.name f) (Entry.bibkey e)
               (File.priority f).
Proof.
  unfold entry_file_value. rewrite list_elem_of_bind. split.
  - intros (e & Hr & He). apply list_elem_of_bind in Hr as (f & Hr & Hf).
    apply list_elem_of_bind in Hr as (v & Hr & Hv).
    apply list_elem_of_singleton in Hr.
    apply list_elem_of_filter in Hf as [Hfpk Hf], Hv as [Hvpk Hv].
    exists e, f, v. auto 10.
  - intros (e & f & v & He & Hf & Hfpk & Hv & Hvpk & ->). exists e. split; [|exact He].
    apply list_elem_of_bind. exists f. split; [|apply list_elem_of_filter; auto].
    apply list_elem_of_bind. exists v. split; [left|apply list_elem_of_filter; auto].
Qed.

(** In a store that satisfies the schema every entry has a row in the
    join with its file and its values, and next to each of its rows the
    row of its type tag. *)
Lemma wellformed_type_row db e :
  wellformed db -> e ∈ entries db ->
  exists r, r ∈ entry_file_value db /\ Row.entry r = e /\ Row.field r = ENTRYTYPE.
Proof.
  intros Hwf He.
  pose proof (wf_entry_file _ Hwf e He) as Hf.
  apply list_elem_of_fmap in Hf as (f & Hfpk & Hf).
  pose proof (wf_entry_type _ Hwf e He) as Hv.
  apply list_elem_of_fmap in Hv as (v & Hvk & Hv).
  unfold value_key in Hvk. injection Hvk as Hvpk Hvf.
  exists (Row.mk e ENTRYTYPE (Value.value v) (File.name f) (Entry.bibkey e)
                 (File.priority f)).
  split; [apply entry_file_value_elem|split; reflexivity].
  exists e, f, v. rewrite <- Hvf. auto 10.
Qed.

Lemma foldl_insert_is_Some {V W} (f : string * W -> V) (l : list (string * W))
    (m : gmap string V) k :
  k ∈ map fst l -> is_Some (foldl (fun fields fv => <[fv.1 := f fv]> fields) m l !! k).
Proof.
  revert m. induction l as [|[k0 w0] l IH]; simpl; intros m Hk; [inversion Hk|].
  destruct (decide (k ∈ map fst l)) as [Hin|Hnotin]; [apply IH, Hin|].
  apply elem_of_cons in Hk as [->|Hk]; [|contradiction].
  clear IH. revert m. induction l as [|[k1 w1] l IH]; intros m; simpl.
  - rewrite lookup_insert_eq. eauto.
  - simpl in Hnotin. apply not_elem_of_cons in Hnotin as [Hne Hnotin].
    rewrite insert_insert_ne by congruence. apply IH, Hnotin.
Qed.

(** A group with a type tag row merges into an entry. *)
Lemma merged_entry_typed rows :
  (exists r, r ∈ rows /\ Row.field r = ENTRYTYPE) ->
  exists ty fields, _merged_entry (group_fields rows) = Ok (ty, fields).
Proof.
  intros (r & Hr & Hf).
  destruct (groupby_key_elem Row.field rows r Hr) as (g & Hg & _). rewrite Hf in Hg.
  assert (Hk : ENTRYTYPE ∈ map fst (filter (fun fv : fieldgrp => fv.1 ∉ IGNORE_FIELDS)
                                           (group_fields rows))).
  { apply list_elem_of_fmap.
    exists (ENTRYTYPE, map (fun r => (Row.value r, Row.filename r, Row.bibkey r)) g).
    split; [reflexivity|]. apply list_elem_of_filter. split.
    - simpl. unfold IGNORE_FIELDS. not_member.
    - apply group_fields_elem. eauto. }
  destruct (foldl_insert_is_Some merged_field _ ∅ ENTRYTYPE Hk) as [ty Hty].
  assert (Hraw : _merged_entry_raw (group_fields rows) !! ENTRYTYPE = Some ty).
  { unfold _merged_entry_raw. rewrite !lookup_insert_ne by discriminate. exact Hty. }
  unfold _merged_entry. cbv zeta. rewrite Hraw. eauto.
Qed.

(** With one hash per id, a group of [__iter__] holds all the rows of
    its id. *)
Lemma iter_group_filter db w k rows :
  one_hash_per_id db ->
  (k, rows) ∈ groupby id_hash (select_values_between db w.1 w.2) ->
  rows = filter (fun r => id_hash r = k) (select_values_between db w.1 w.2).
Proof.
  intros Hone Hg.
  destruct (groupby_sorted id_hash (fun p q => cmp_int p.1 q.1)
              (select_values_between db w.1 w.2)) as [_ Hrows].
  - apply (sorted_by_then_fst _ cmp_field_member).
    apply (order_by_sorted cmp_id_field_member).
  - intros x y Hx Hy E. simpl in E.
    assert (Hid : Entry.id (Row.entry x) = Entry.id (Row.entry y)).
    { destruct (Entry.id (Row.entry x)), (Entry.id (Row.entry y));
        simpl in E; try discriminate; [|reflexivity].
      apply Z.compare_eq in E. congruence. }
    unfold id_hash. rewrite Hid. f_equal.
    apply select_values_between_elem in Hx as [Hx _].
    apply select_values_between_elem in Hy as [Hy _].
    apply Hone; [apply entry_file_value_entry..|]; assumption.
  - apply Hrows, Hg.
Qed.

(** X14. On a store that satisfies the schema and in which every record
    has an id and every id stands for one hash, [merged] runs through:
    it ends without exception, yields as many entries as there are ids,
    and for every record an entry under its hash that carries its id
    as [glottolog_ref_id]. *)
Theorem merged_runs_through `{Collaborators} (db : Store) :
  wellformed db -> one_hash_per_id db -> allid db = true -> onetoone db = true ->
  exists out, merged db = (out, None) /\
    length out = length (unique (map Entry.id (entries db))) /\
    forall e, e ∈ entries db ->
      exists ty fields, (Entry.hash e, (ty, fields)) ∈ out /\
        fields !! REF_ID_FIELD = text_of_int <$> Entry.id e.
Proof.
  intros Hwf Hone Hallid Honeto. unfold merged.
  destruct (iter db 100) as [items|x] eqn:Eiter.
  2:{ unfold iter in Eiter. rewrite Hallid, Honeto in Eiter. discriminate. }
  destruct (iter_spec db 100 items ltac:(lia) Hone Eiter) as [Hnd Hkeys].
  apply iter_items in Eiter as (_ & _ & Hitems).
  assert (Hrow : forall e, e ∈ entries db ->
            exists r, r ∈ entry_file_value db /\ id_hash r = (Entry.id e, Entry.hash e)).
  { intros e He. destruct (wellformed_type_row db e Hwf He) as (r & Hr & <- & _). eauto. }
  assert (Hitem : forall k grp, (k, grp) ∈ items ->
            exists i ty fields, k.1 = Some i /\ _merged_entry grp = Ok (ty, fields)).
  { intros k grp Hin. apply Hitems in Hin as (w & rows & _ & Hg & ->).
    destruct (iter_group_rows db w k rows Hg) as [Hne Hrows].
    assert (Hex : exists r, r ∈ rows) by (destruct rows; [congruence|eexists; left]).
    destruct Hex as [r Hr].
    destruct (Hrows r Hr) as (Hrin & Hk & v & Hv).
    destruct (wellformed_type_row db (Row.entry r) Hwf
                (entry_file_value_entry db r Hrin)) as (rT & HrT & HeT & HfT).
    destruct (merged_entry_typed rows) as (ty & fields & Ety).
    { exists rT. split; [|exact HfT].
      rewrite (iter_group_filter db w k rows Hone Hg) in Hr |- *.
      apply list_elem_of_filter in Hr as [_ Hr].
      apply select_values_between_elem in Hr as [_ Hb].
      apply list_elem_of_filter. split; [unfold id_hash; rewrite HeT; exact Hk|].
      apply select_values_between_elem. split; [exact HrT|]. rewrite HeT. exact Hb. }
    exists v, ty, fields. split; [|exact Ety]. subst k. exact Hv. }
  destruct (yield_until_all merged_item items) as (out & Eout & Hall).
  { intros [[id_ hash_] grp] Hin. destruct (Hitem _ _ Hin) as (i & ty & fields & Hi & Ety).
    simpl in Hi. subst id_. unfold merged_item. rewrite Ety. eauto. }
  exists out. split; [exact Eout|]. split.
  - rewrite <- (Forall2_length _ _ _ Hall), <- (length_map fst items),
      <- (length_map fst (map fst items)).
    apply Permutation_length, NoDup_Permutation.
    + apply NoDup_fmap_2_strong; [|exact Hnd].
      intros [i1 h1] [i2 h2] H1 H2 E. simpl in E. subst i2. f_equal.
      apply Hkeys in H1 as (r1 & Hr1 & E1), H2 as (r2 & Hr2 & E2).
      unfold id_hash in E1, E2. injection E1 as Hi1 Hh1. injection E2 as Hi2 Hh2.
      rewrite <- Hh1, <- Hh2.
      apply Hone; [apply entry_file_value_entry..|]; try assumption. congruence.
    + apply unique_NoDup.
    + intros i. rewrite unique_elem, !list_elem_of_fmap. split.
      * intros (k & -> & Hk). apply list_elem_of_fmap in Hk as (item & -> & Hin).
        assert (Hk : item.1 ∈ map fst items) by (apply list_elem_of_fmap_2, Hin).
        apply Hkeys in Hk as (r & Hr & E). exists (Row.entry r).
        split; [rewrite <- E; reflexivity|apply entry_file_value_entry, Hr].
      * intros (e & -> & He). destruct (Hrow e He) as (r & Hr & E).
        assert (Hk : (Entry.id e, Entry.hash e) ∈ map fst items)
          by (apply Hkeys; eauto).
        exists (Entry.id e, Entry.hash e). split; [reflexivity|exact Hk].
  - intros e He. destruct (Hrow e He) as (r & Hr & E).
    assert (Hk : (Entry.id e, Entry.hash e) ∈ map fst items) by (apply Hkeys; eauto).
    apply list_elem_of_fmap in Hk as ([k grp] & Hk & Hin). simpl in Hk. subst k.
    apply list_elem_of_lookup in Hin as [n Hn].
    destruct (Forall2_lookup_l _ _ _ _ _ Hall Hn) as (y & Hy & Ey).
    destruct (Hitem _ _ (list_elem_of_lookup_2 _ _ _ Hn))
      as (i & ty & fields & Hi & Ety).
    simpl in Hi. unfold merged_item in Ey. rewrite Ety, Hi in Ey. injection Ey as <-.
    exists ty, (<[REF_ID_FIELD := text_of_int i]> fields).
    split; [eapply list_elem_of_lookup_2, Hy|]. rewrite Hi. apply lookup_insert_eq.
Qed.

Lemma tie_resolved_one_hash : one_hash_per_id tie_resolved.
Proof.
  intros e1 e2 H1 H2 _. simpl in H1, H2. members H1; members H2; reflexivity.
Qed.

Lemma merged_ref_id_witness :
  length (merged (H:=sample) tie_resolved).1 = 1%nat /\
  (forall h ty fields, (h, (ty, fields)) ∈ (merged (H:=sample) tie_resolved).1 ->
     exists e i, e ∈ entries tie_resolved /\ Entry.hash e = h /\ Entry.id e = Some i /\
                 fields !! REF_ID_FIELD = Some (text_of_int i) /\
                 fields !! ENTRYTYPE = None) /\
  (merged (H:=sample) tie_resolved).2 <> Some TypeError.
Proof.
  split; [vm_compute; reflexivity|].
  apply (merged_ref_id (H:=sample) tie_resolved).
  destruct (merged tie_resolved). reflexivity.
Defined.

Lemma merged_runs_through_witness :
  wellformed tie_resolved /\ one_hash_per_id tie_resolved /\
  allid tie_resolved = true /\ onetoone (H:=sample) tie_resolved = true /\
  exists out, merged (H:=sample) tie_resolved = (out, None) /\
    length out = length (unique (map Entry.id (entries tie_resolved))) /\
    forall e, e ∈ entries tie_resolved ->
      exists ty fields, (Entry.hash e, (ty, fields)) ∈ out /\
        fields !! REF_ID_FIELD = text_of_int <$> Entry.id e.
Proof.
  assert (H1 : allid tie_resolved = true) by (vm_compute; reflexivity).
  assert (H2 : onetoone (H:=sample) tie_resolved = true) by (vm_compute; reflexivity).
  split; [apply tie_resolved_wf|]. split; [apply tie_resolved_one_hash|].
  split; [exact H1|]. split; [exact H2|].
  apply (merged_runs_through (H:=sample) tie_resolved tie_resolved_wf
           tie_resolved_one_hash H1 H2).
Defined.

(** ** to_replacements and to_csvfile *)

Lemma cmp_pairs_lawful :
  LawfulCmp (fun p p' : option Z * option Z => cmp_int p.2 p'.2).
Proof.
  apply (on_lawful (fun p : option Z * option Z => p.2) cmp_int).
  apply cmp_opt_lawful, Z_compare_lawful.
Qed.

(** X15. [to_replacements] keeps what the file held and appends, sorted
    by replacement, one pair per record whose id differs from its prior
    identifier: records without prior identifier give no pair, nor do
    records without id, and nothing is de-duplicated. *)
Theorem to_replacements_appends (db : Store)
    (file : option (list (option Z * option Z))) :
  exists new,
    to_replacements db file = (default [] file ++ new)%list /\
    sorted_by (fun p p' => cmp_int p.2 p'.2) new /\
    new ≡ₚ map (fun e => (Entry.refid e, Entry.id e))
              (filter (fun e => replaced e = true) (entries db)).
Proof.
  exists (select_pairs db). split; [reflexivity|]. unfold select_pairs. split.
  - apply order_by_sorted, cmp_pairs_lawful.
  - rewrite order_by_perm.
    rewrite (list_filter_iff _ (fun e => replaced e = true)); [reflexivity|].
    intros e. rewrite holds_ne. unfold replaced. split.
    + intros (i & r & -> & -> & Hne). apply negb_true_iff, Z.eqb_neq, Hne.
    + destruct (Entry.refid e) as [r|], (Entry.id e) as [i|]; try discriminate.
      intros E. apply negb_true_iff, Z.eqb_neq in E. eauto.
Qed.

(** ** trickle: the ids go back into the bibfiles *)

Lemma od_get_elem {V} (d : odict V) k v :
  NoDup (map fst d) -> (k, v) ∈ d -> od_get d k = Some v.
Proof.
  induction d as [|[k' v'] d IH]; simpl; intros Hnd Hin; [inversion Hin|].
  apply NoDup_cons in Hnd as [Hk' Hnd].
  destruct (decide (k' = k)) as [->|Hne].
  - apply elem_of_cons in Hin as [[= ->]|Hin]; [reflexivity|].
    exfalso. apply Hk'. apply (list_elem_of_fmap_2 fst _ (k, v) Hin).
  - apply elem_of_cons in Hin as [[= -> _]|Hin]; [congruence|]. apply IH; assumption.
Qed.

Lemma od_set_new {V} (d : odict V) k v :
  k ∉ map fst d -> od_set d k v = (d ++ [(k, v)])%list.
Proof.
  induction d as [|[k' v'] d IH]; simpl; intros Hn; [reflexivity|].
  apply not_elem_of_cons in Hn as [Hne Hn].
  destruct (decide (k' = k)); [congruence|]. rewrite IH by exact Hn. reflexivity.
Qed.

Lemma od_set_map {V} (d : odict V) k v :
  NoDup (map fst d) -> k ∈ map fst d ->
  od_set d k v = map (fun kv => if decide (kv.1 = k) then (k, v) else kv) d.
Proof.
  induction d as [|[k' v'] d IH]; simpl; intros Hnd Hin; [inversion Hin|].
  apply NoDup_cons in Hnd as [Hk' Hnd].
  destruct (decide (k' = k)) as [->|Hne].
  - f_equal. symmetry. rewrite <- (map_id d) at 2. apply map_ext_in.
    intros [k1 v1] H1. simpl. destruct (decide (k1 = k)) as [->|]; [|reflexivity].
    exfalso. apply Hk'. apply list_elem_of_In in H1.
    apply (list_elem_of_fmap_2 fst _ (k, v1) H1).
  - f_equal. apply elem_of_cons in Hin as [->|Hin]; [congruence|]. apply IH; assumption.
Qed.

Lemma other_fields_no_ref_id fields : REF_ID_FIELD ∉ map fst (other_fields fields).
Proof.
  intros Hin. apply list_elem_of_fmap in Hin as ([k v] & Hk & Hin).
  apply list_elem_of_filter in Hin as [Hne _]. simpl in *. congruence.
Qed.

Lemma other_fields_idemp fields : other_fields (other_fields fields) = other_fields fields.
Proof.
  unfold other_fields. apply filter_all. intros kv Hin.
  apply list_elem_of_filter in Hin as [Hne _]. exact Hne.
Qed.

(** Writing the id: the other fields stay, the id goes last. *)
Lemma od_set_ref_id fields new :
  od_set (other_fields fields) REF_ID_FIELD new
  = (other_fields fields ++ [(REF_ID_FIELD, new)])%list.
Proof. apply od_set_new, other_fields_no_ref_id. Qed.

Lemma load_spec (b : BibFile.t) :
  NoDup (map BibEntry.key (BibFile.iterentries b)) ->
  BibFile.load b = map loaded (BibFile.iterentries b).
Proof.
  unfold BibFile.load. intros Hnd.
  enough (Hgen : forall es acc,
            NoDup (map fst acc ++ map BibEntry.key es) ->
            foldl (fun d e => od_set d (BibEntry.key e) (BibEntry.type e, BibEntry.fields e))
                  acc es = (acc ++ map loaded es)%list).
  { apply (Hgen _ []). exact Hnd. }
  clear. induction es as [|e es IH]; intros acc Hnd; simpl.
  - rewrite app_nil_r. reflexivity.
  - rewrite od_set_new.
    + rewrite IH.
      * rewrite <- app_assoc. reflexivity.
      * rewrite map_app. simpl. rewrite <- app_assoc. exact Hnd.
    + apply NoDup_app in Hnd as (_ & Hdis & _). intros Hin. apply (Hdis _ Hin). left.
Qed.

Lemma save_loaded (b : BibFile.t) : BibFile.save b (map loaded (BibFile.iterentries b)) = b.
Proof.
  unfold BibFile.save. rewrite map_map. destruct b as [n s m p es]. simpl. f_equal.
  rewrite <- (map_id es) at 2. apply map_ext. intros [k ty fs]. reflexivity.
Qed.

Lemma trickled_item_nil kv : trickled_item [] kv = kv.
Proof. reflexivity. Qed.

Lemma trickled_file_nil b : trickled_file [] b = b.
Proof.
  unfold trickled_file. rewrite (map_ext _ id) by apply trickled_item_nil.
  rewrite map_id. apply save_loaded.
Qed.

(** One changed row: the entry is there and holds the prior identifier
    the store has for it. *)
Lemma trickle_entry_step (d : odict (string * odict string)) bk refid new ty fs :
  NoDup (map fst d) -> (bk, (ty, fs)) ∈ d -> od_get fs REF_ID_FIELD = refid ->
  trickle_entry d (bk, refid, new)
  = Ok (od_set d bk (ty, od_set (other_fields fs) REF_ID_FIELD new)).
Proof.
  intros Hd Hmem Hold. unfold trickle_entry.
  rewrite (od_get_elem d bk (ty, fs) Hd Hmem). unfold od_pop. rewrite Hold.
  rewrite bool_decide_eq_true_2 by reflexivity. reflexivity.
Qed.

(** The inner loop over the changed rows of one file. *)
Lemma trickle_entries_spec (rows : list (string * option string * string)) :
  forall d : odict (string * odict string),
  NoDup (map fst d) ->
  NoDup (map (fun row : string * option string * string => row.1.1) rows) ->
  (forall row, row ∈ rows ->
     exists ty fs, (row.1.1, (ty, fs)) ∈ d /\ od_get fs REF_ID_FIELD = row.1.2) ->
  foldM trickle_entry d rows = Ok (map (trickled_item rows) d).
Proof.
  induction rows as [|[[bk refid] new] rows IH]; intros d Hd Hrows Hin.
  - simpl. rewrite (map_ext _ id) by apply trickled_item_nil. rewrite map_id. reflexivity.
  - simpl in Hrows. apply NoDup_cons in Hrows as [Hbk Hrows].
    destruct (Hin (bk, refid, new)) as (ty & fs & Hmem & Hold); [left|].
    simpl in Hmem, Hold.
    change (foldM trickle_entry d ((bk, refid, new) :: rows))
      with (trickle_entry d (bk, refid, new) ≫= fun d' => foldM trickle_entry d' rows).
    rewrite (trickle_entry_step d bk refid new ty fs Hd Hmem Hold).
    set (d' := od_set d bk (ty, od_set (other_fields fs) REF_ID_FIELD new)).
    change (foldM trickle_entry d' rows
            = Ok (map (trickled_item ((bk, refid, new) :: rows)) d)).
    assert (Ed' : d' = map (fun kv : string * (string * odict string) =>
                              if decide (kv.1 = bk)
                              then (bk, (ty, od_set (other_fields fs) REF_ID_FIELD new))
                              else kv) d).
    { apply od_set_map; [exact Hd|]. apply (list_elem_of_fmap_2 fst _ _ Hmem). }
    assert (Hk' : map fst d' = map fst d).
    { rewrite Ed', map_map. apply map_ext. intros kv. destruct (decide _); simpl; congruence. }
    rewrite IH.
    + f_equal. rewrite Ed', map_map. apply map_ext_in. intros [k [ty1 fs1]] Hkv.
      apply list_elem_of_In in Hkv. unfold trickled_item at 2. simpl.
      destruct (decide (k = bk)) as [->|Hne].
      * rewrite filter_cons_True by reflexivity.
        assert (E1 : (ty1, fs1) = (ty, fs)).
        { pose proof (od_get_elem d bk (ty1, fs1) Hd Hkv) as E1.
          rewrite (od_get_elem d bk (ty, fs) Hd Hmem) in E1. congruence. }
        injection E1 as -> ->. simpl.
        unfold trickled_item. simpl. rewrite filter_none; [reflexivity|].
        intros row Hrow E. apply Hbk. rewrite <- E.
        apply (list_elem_of_fmap_2 (fun row : string * option string * string => row.1.1)
                 _ _ Hrow).
      * rewrite filter_cons_False by (simpl; congruence). reflexivity.
    + rewrite Hk'. exact Hd.
    + exact Hrows.
    + intros row Hrow. destruct (Hin row) as (ty1 & fs1 & Hmem1 & Hold1); [right; exact Hrow|].
      exists ty1, fs1. split; [|exact Hold1]. rewrite Ed'.
      apply list_elem_of_fmap. exists (row.1.1, (ty1, fs1)). split; [|exact Hmem1].
      simpl. destruct (decide (row.1.1 = bk)) as [E|]; [|reflexivity].
      exfalso. apply Hbk. rewrite <- E.
      apply (list_elem_of_fmap_2 (fun row : string * option string * string => row.1.1)
               _ _ Hrow).
Qed.

Lemma od_get_set_eq {V} (d : odict V) k v : od_get (od_set d k v) k = Some v.
Proof.
  induction d as [|[k' v'] d IH]; simpl.
  - destruct (decide (k = k)); congruence.
  - destruct (decide (k' = k)) as [->|Hne]; simpl.
    + destruct (decide (k = k)); congruence.
    + destruct (decide (k' = k)); [congruence|exact IH].
Qed.

Lemma select_files_elem db c :
  c ∈ select_files db <->
  exists f, f ∈ files db /\ c = (File.pk f, File.name f) /\
            exists r, r ∈ entries db /\ Entry.file_pk r = File.pk f /\ changed r = true.
Proof.
  unfold select_files. rewrite order_by_elem, list_elem_of_fmap. split.
  - intros (f & -> & Hf). apply list_elem_of_filter in Hf as [Hex Hf].
    apply existsb_elem in Hex as (r & Hr & Hc). apply andb_true_iff in Hc as [Hpk Hc].
    apply bool_decide_eq_true in Hpk. exists f. eauto 10.
  - intros (f & Hf & -> & r & Hr & Hpk & Hc). exists f. split; [reflexivity|].
    apply list_elem_of_filter. split; [|exact Hf].
    apply existsb_elem. exists r. split; [exact Hr|].
    rewrite Hc, andb_true_r. apply bool_decide_eq_true, Hpk.
Qed.

Lemma select_changed_elem db pk row :
  row ∈ select_changed db pk <->
  exists r i, r ∈ entries db /\ Entry.file_pk r = pk /\ changed r = true /\
              Entry.id r = Some i /\
              row = (Entry.bibkey r, text_of_int <$> Entry.refid r, text_of_int i).
Proof.
  unfold select_changed. rewrite order_by_elem, list_elem_of_bind. split.
  - intros (r & Hrow & Hr). apply list_elem_of_filter in Hr as [Hc Hr].
    apply andb_true_iff in Hc as [Hpk Hc]. apply bool_decide_eq_true in Hpk.
    destruct (Entry.id r) as [i|] eqn:Ei; [|inversion Hrow].
    apply list_elem_of_singleton in Hrow. exists r, i. auto 10.
  - intros (r & i & Hr & Hpk & Hc & Ei & ->). exists r. split.
    + rewrite Ei. left.
    + apply list_elem_of_filter. split; [|exact Hr].
      rewrite Hc, andb_true_r. apply bool_decide_eq_true, Hpk.
Qed.

Lemma map_bind {A B C} (f : B -> C) (g : A -> list B) (l : list A) :
  map f (l ≫= g) = l ≫= fun x => map f (g x).
Proof.
  induction l as [|x l IH]; [reflexivity|].
  change ((x :: l) ≫= g) with (g x ++ (l ≫= g))%list. rewrite map_app, IH. reflexivity.
Qed.

Lemma select_changed_keys db pk :
  NoDup (map Entry.pk (entries db)) -> NoDup (map entry_key (entries db)) ->
  NoDup (map (fun row : string * option string * string => row.1.1)
             (select_changed db pk)).
Proof.
  intros Hpk Hkey. unfold select_changed. rewrite order_by_perm.
  change (NoDup ((fun row : string * option string * string => row.1.1) <$>
                 (filter (fun e => bool_decide (Entry.file_pk e = pk) && changed e = true)
                         (entries db) ≫=
                  fun e => match Entry.id e with
                           | Some i => [(Entry.bibkey e, text_of_int <$> Entry.refid e,
                                         text_of_int i)]
                           | None => []
                           end))).
  rewrite map_bind. apply NoDup_bind.
  - intros r1 r2 k H1 H2 Hk1 Hk2.
    apply list_elem_of_filter in H1 as [Hc1 H1], H2 as [Hc2 H2].
    apply andb_true_iff in Hc1 as [Hp1 _], Hc2 as [Hp2 _].
    apply bool_decide_eq_true in Hp1, Hp2.
    apply (NoDup_map_inj entry_key (entries db)); try assumption.
    unfold entry_key. rewrite Hp1, Hp2. f_equal. simpl in Hk1, Hk2.
    destruct (Entry.id r1); [|inversion Hk1]. destruct (Entry.id r2); [|inversion Hk2].
    apply list_elem_of_singleton in Hk1, Hk2. simpl in Hk1, Hk2. congruence.
  - intros r _. simpl. destruct (Entry.id r); simpl; [apply NoDup_singleton|apply NoDup_nil_2].
  - apply NoDup_filter. apply (NoDup_fmap_1 Entry.pk), Hpk.
Qed.

Lemma trickled_file_name rows b : BibFile.name (trickled_file rows b) = BibFile.name b.
Proof. reflexivity. Qed.

(** The outer loop over the changed files. *)
Lemma trickle_files_spec db (cf : list (Z * string)) :
  forall cur : list BibFile.t,
  NoDup (map snd cf) -> NoDup (map BibFile.name cur) ->
  (forall c, c ∈ cf -> exists b, b ∈ cur /\ file_ready db c b) ->
  trickle_files db cur cf = (map (trickled db cf) cur, Ok tt).
Proof.
  induction cf as [|[pk filename] cf IH]; intros cur Hcf Hcur Hready.
  - simpl. f_equal. rewrite <- (map_id cur) at 1. apply map_ext. reflexivity.
  - simpl in Hcf. apply NoDup_cons in Hcf as [Hfn Hcf].
    destruct (Hready (pk, filename)) as (b & Hb & Hname & Hkeys & Hrows & Hrow); [left|].
    simpl in Hname, Hrows, Hrow.
    assert (Eget : bibfiles_get cur filename = Ok b).
    { unfold bibfiles_get.
      rewrite (filter_unique BibFile.name _ cur b Hcur Hb Hname); [reflexivity|].
      intros y _ Hy. congruence. }
    assert (Eloop : foldM trickle_entry (BibFile.load b) (select_changed db pk)
                    = Ok (map (trickled_item (select_changed db pk))
                              (map loaded (BibFile.iterentries b)))).
    { rewrite (load_spec b Hkeys). apply trickle_entries_spec.
      - rewrite map_map. exact Hkeys.
      - exact Hrows.
      - intros row Hin. destruct (Hrow row Hin) as (e & He & Hk & Hold).
        exists (BibEntry.type e), (BibEntry.fields e). split; [|exact Hold].
        rewrite <- Hk. apply (list_elem_of_fmap_2 loaded _ e He). }
    cbn [trickle_files]. rewrite Eget.
    change (Ok b ≫= ?k) with (k b). cbv beta. rewrite Eloop.
    change (Ok ?x ≫= ?k) with (k x). cbv beta iota.
    fold (trickled_file (select_changed db pk) b).
    set (saved := map _ cur).
    assert (Esaved : saved = map (fun b0 => if decide (BibFile.name b0 = filename)
                                   then trickled_file (select_changed db pk) b0
                                   else b0) cur).
    { subst saved. apply map_ext_in. intros b0 H0. apply list_elem_of_In in H0.
      destruct (decide (BibFile.name b0 = filename)) as [E|]; [|reflexivity].
      f_equal. apply (NoDup_map_inj BibFile.name cur); congruence. }
    assert (Hnames : map BibFile.name saved = map BibFile.name cur).
    { rewrite Esaved, map_map. apply map_ext. intros b0.
      destruct (decide _); reflexivity. }
    rewrite IH.
    + f_equal. rewrite Esaved, map_map. apply map_ext. intros b0. unfold trickled.
      destruct (decide (BibFile.name b0 = filename)) as [E|Hne].
      * rewrite trickled_file_name, E. rewrite filter_cons_True by reflexivity.
        rewrite filter_none; [reflexivity|].
        intros c Hc Ec. apply Hfn. rewrite <- Ec. apply (list_elem_of_fmap_2 snd _ c Hc).
      * rewrite filter_cons_False by (simpl; congruence). reflexivity.
    + exact Hcf.
    + rewrite Hnames. exact Hcur.
    + intros c Hc. destruct (Hready c) as (b' & Hb' & Hr'); [right; exact Hc|].
      exists b'. split; [|exact Hr']. rewrite Esaved. apply list_elem_of_fmap.
      exists b'. split; [|exact Hb'].
      destruct (decide (BibFile.name b' = filename)) as [E|]; [|reflexivity].
      exfalso. apply Hfn. destruct Hr' as [Hn' _]. rewrite <- E, Hn'.
      apply (list_elem_of_fmap_2 snd _ c Hc).
Qed.

(** What links a store built from the bibfiles to them. *)
Lemma import_links `{Collaborators} bibfiles db0 db :
  import_bibfiles empty_store bibfiles = Ok db0 -> same_import db0 db ->
  wellformed db /\
  NoDup (map BibFile.name bibfiles) /\
  (forall b, b ∈ bibfiles -> NoDup (map BibEntry.key (BibFile.iterentries b))) /\
  map File.name (files db) = map BibFile.name bibfiles /\
  (forall b e, b ∈ bibfiles -> e ∈ BibFile.iterentries b ->
     exists f r, f ∈ files db /\ File.name f = BibFile.name b /\
                 r ∈ entries db /\ Entry.file_pk r = File.pk f /\
                 Entry.bibkey r = BibEntry.key e /\
                 Entry.refid r = int_of_text <$> od_get (BibEntry.fields e) REF_ID_FIELD) /\
  (forall r f, r ∈ entries db -> f ∈ files db -> Entry.file_pk r = File.pk f ->
     exists b e, b ∈ bibfiles /\ e ∈ BibFile.iterentries b /\
                 BibFile.name b = File.name f /\ BibEntry.key e = Entry.bibkey r).
Proof.
  intros E (Hf & Hv & He).
  pose proof (import_bibfiles_wf _ _ E) as Hwf0.
  apply import_bibfiles_spec in E as [Hall ->]; [|apply empty_store_wf].
  set (db0 := imported_store empty_store bibfiles) in *.
  assert (Hwf : wellformed db) by (apply (wellformed_source db0); assumption).
  apply (bibfile_ok_all _ _ empty_store_wf) in Hall as Hvalid.
  destruct Hvalid as (Hvalid & Hnames & _).
  split; [exact Hwf|]. split; [exact Hnames|]. split; [|split; [|split]].
  - intros b Hb. rewrite Forall_forall in Hvalid. apply (Hvalid b Hb).
  - rewrite Hf. pose proof (imported_store_files _ _ empty_store_wf Hall) as Hs.
    fold db0 in Hs. simpl in Hs.
    apply (f_equal (map fst)) in Hs. rewrite !map_map in Hs. exact Hs.
  - intros b e Hb Hin.
    destruct (imported_store_record_of _ _ b e empty_store_wf Hall Hb Hin)
      as (f & r0 & Hf0 & Hn & Hr0 & Er0 & _). fold db0 in Hf0, Hr0.
    destruct (same_cols_elem entry_source db0 db r0 (eq_sym He) Hr0) as (r & Hr & Hc).
    injection Hc as _ Hc2 Hc3 Hc4.
    exists f, r. rewrite Hf. split; [exact Hf0|]. split; [exact Hn|]. split; [exact Hr|].
    rewrite Hc2, Hc3, Hc4, Er0. simpl. auto.
  - intros r f Hr Hfin Hpk.
    destruct (same_cols_elem entry_source db db0 r He Hr) as (r0 & Hr0 & Hc).
    injection Hc as _ Hc2 Hc3 _.
    rewrite Hf in Hfin.
    destruct (imported_store_provenance bibfiles Hall r0 f Hr0 Hfin) as (b & e & Hb & Hin & Hn & Hk).
    { congruence. }
    exists b, e. rewrite <- Hc3. auto.
Qed.

Lemma other_fields_set fields new :
  other_fields (od_set (other_fields fields) REF_ID_FIELD new) = other_fields fields.
Proof.
  rewrite od_set_ref_id. unfold other_fields at 1, odict. rewrite filter_app.
  fold (other_fields (other_fields fields)). rewrite other_fields_idemp.
  rewrite filter_cons_False by (simpl; tauto). rewrite filter_nil. apply app_nil_r.
Qed.

(** A file the loop does not turn to has no changed row. *)
Lemma select_changed_nil db f :
  f ∈ files db -> (File.pk f, File.name f) ∉ select_files db ->
  select_changed db (File.pk f) = [].
Proof.
  intros Hf Hnot. destruct (select_changed db (File.pk f)) as [|row rows] eqn:E; [reflexivity|].
  exfalso. assert (Hrow : row ∈ select_changed db (File.pk f)) by (rewrite E; left).
  apply select_changed_elem in Hrow as (r & i & Hr & Hpk & Hc & _).
  apply Hnot, select_files_elem. exists f. eauto 10.
Qed.

Lemma trickled_select_files db b f :
  NoDup (map File.name (files db)) -> f ∈ files db -> File.name f = BibFile.name b ->
  trickled db (select_files db) b = trickled_file (select_changed db (File.pk f)) b.
Proof.
  intros Hnd Hf Hn. unfold trickled.
  destruct (filter _ (select_files db)) as [|c cs] eqn:E.
  - rewrite select_changed_nil; [symmetry; apply trickled_file_nil|exact Hf|].
    intros Hin. assert (Hc : (File.pk f, File.name f) ∈ filter
                               (fun c : Z * string => c.2 = BibFile.name b) (select_files db)).
    { apply list_elem_of_filter. split; [exact Hn|exact Hin]. }
    rewrite E in Hc. inversion Hc.
  - assert (Hc : c ∈ filter (fun c : Z * string => c.2 = BibFile.name b) (select_files db))
      by (rewrite E; left).
    apply list_elem_of_filter in Hc as [Hcn Hc].
    apply select_files_elem in Hc as (f' & Hf' & -> & _). simpl in Hcn.
    assert (f' = f) by (apply (NoDup_map_inj File.name (files db)); congruence).
    subst f'. reflexivity.
Qed.

Lemma written_trickled `{Collaborators} bibfiles db0 db b f :
  import_bibfiles empty_store bibfiles = Ok db0 -> same_import db0 db ->
  (forall r, r ∈ entries db -> exists i, Entry.id r = Some i /\ 0 < i) ->
  numeral_ids bibfiles ->
  b ∈ bibfiles -> f ∈ files db -> File.name f = BibFile.name b ->
  written db b (trickled_file (select_changed db (File.pk f)) b).
Proof.
  intros E Hsame Hid Hnum Hb Hf Hn.
  assert (Hcanon : forall b e x, b ∈ bibfiles -> e ∈ BibFile.iterentries b ->
            od_get (BibEntry.fields e) REF_ID_FIELD = Some x ->
            text_of_int (int_of_text x) = x).
  { intros b0 e0 x0 Hb0 He0 Ex0. symmetry. apply (Hnum b0 e0 x0 Hb0 He0 Ex0). }
  destruct (import_links bibfiles db0 db E Hsame) as (Hwf & _ & _ & _ & Hrec & _).
  unfold written, trickled_file. simpl. repeat (split; [reflexivity|]).
  rewrite !map_map. apply Forall2_fmap_r, Forall_Forall2_diag, Forall_forall.
  intros e He. destruct (Hrec b e Hb He) as (f' & r & Hf' & Hn' & Hr & Hpk & Hk & Hrefid).
  assert (f' = f)
    by (apply (NoDup_map_inj File.name (files db)); [apply Hwf|..]; congruence).
  subst f'. destruct (Hid r Hr) as (i & Ei & Hpos).
  unfold trickled_item, loaded. simpl.
  destruct (filter _ (select_changed db (File.pk f))) as [|row rows] eqn:Erows.
  - destruct e as [k ty fs]. simpl in *. split; [reflexivity|]. split; [reflexivity|].
    split; [reflexivity|]. exists f, r. rewrite Ei. simpl. repeat (split; [assumption|]).
    destruct (changed r) eqn:Ec.
    + exfalso.
      assert (Hrow : (Entry.bibkey r, text_of_int <$> Entry.refid r, text_of_int i)
                     ∈ filter (fun row : string * option string * string => row.1.1 = k)
                              (select_changed db (File.pk f))).
      { apply list_elem_of_filter. split; [exact Hk|].
        apply select_changed_elem. exists r, i. auto 10. }
      rewrite Erows in Hrow. inversion Hrow.
    + unfold changed in Ec. rewrite Ei in Ec. simpl in Ec.
      case_bool_decide as Hi; [|discriminate].
      destruct (od_get fs REF_ID_FIELD) as [x|] eqn:Ex; simpl in Hrefid;
        rewrite Hrefid in Hi; simpl in Hi; [|lia].
      f_equal. rewrite Hi. symmetry. apply (Hcanon b (BibEntry.mk k ty fs) x Hb He Ex).
  - assert (Hrow : row ∈ filter (fun row : string * option string * string =>
                                   row.1.1 = BibEntry.key e)
                                (select_changed db (File.pk f))) by (rewrite Erows; left).
    apply list_elem_of_filter in Hrow as [Hrk Hrow].
    apply select_changed_elem in Hrow as (r' & i' & Hr' & Hpk' & _ & Ei' & ->).
    simpl in Hrk.
    assert (r' = r).
    { apply (NoDup_map_inj entry_key (entries db)); [apply Hwf|assumption..|].
      unfold entry_key. congruence. }
    subst r'. simpl. split; [reflexivity|]. split; [reflexivity|].
    split; [apply other_fields_set|].
    exists f, r. repeat (split; [assumption|]). rewrite Ei'. apply od_get_set_eq.
Qed.

(** X18. A store built from the bibfiles, with a positive id for every
    record, goes back into them: when each prior identifier in the
    files is the decimal numeral of a 64-bit integer, [trickle] returns,
    and every bibfile is left with its name and its records in their
    order, each record with its key, type and other fields as they
    were and with the id of its entry as [glottolog_ref_id]. *)
Theorem trickle_writes_ids `{Collaborators} (bibfiles : list BibFile.t) (db0 db : Store) :
  import_bibfiles empty_store bibfiles = Ok db0 -> same_import db0 db ->
  (forall r, r ∈ entries db -> exists i, Entry.id r = Some i /\ 0 < i) ->
  numeral_ids bibfiles ->
  exists bibfiles',
    trickle db bibfiles = (bibfiles', Ok tt) /\ Forall2 (written db) bibfiles bibfiles'.
Proof.
  intros E Hsame Hid Hnum.
  assert (Hcanon : forall b e x, b ∈ bibfiles -> e ∈ BibFile.iterentries b ->
            od_get (BibEntry.fields e) REF_ID_FIELD = Some x ->
            text_of_int (int_of_text x) = x).
  { intros b0 e0 x0 Hb0 He0 Ex0. symmetry. apply (Hnum b0 e0 x0 Hb0 He0 Ex0). }
  destruct (import_links bibfiles db0 db E Hsame)
    as (Hwf & Hnames & Hkeys & Hfiles & Hrec & Hprov).
  assert (Hfile : forall b, b ∈ bibfiles -> exists f, f ∈ files db /\ File.name f = BibFile.name b).
  { intros b Hb. apply (list_elem_of_fmap_2 BibFile.name) in Hb.
    change (BibFile.name b ∈ map BibFile.name bibfiles) in Hb. rewrite <- Hfiles in Hb.
    apply list_elem_of_fmap in Hb as (f & Hn & Hf). eauto. }
  exists (map (trickled db (select_files db)) bibfiles). split.
  - unfold trickle.
    assert (Hallid : allid db = true).
    { apply allid_true. intros r Hr. destruct (Hid r Hr) as (i & Ei & _). eauto. }
    assert (Hup : is_uptodate db bibfiles = true).
    { pose proof (import_bibfiles_uptodate bibfiles db0 E) as Hup.
      unfold is_uptodate, same_as, indb in *. destruct Hsame as (-> & _). exact Hup. }
    rewrite Hallid, Hup. simpl. apply trickle_files_spec.
    + unfold select_files. rewrite order_by_perm, map_map. simpl.
      apply (NoDup_fmap_2_strong File.name).
      * intros f1 f2 H1 H2 E12. apply list_elem_of_filter in H1 as [_ H1], H2 as [_ H2].
        apply (NoDup_map_inj File.name (files db)); [apply Hwf|assumption..].
      * apply NoDup_filter, (NoDup_fmap_1 File.pk), Hwf.
    + exact Hnames.
    + intros c Hc. apply select_files_elem in Hc as (f & Hf & -> & _).
      assert (Hbn : File.name f ∈ map BibFile.name bibfiles).
      { rewrite <- Hfiles. apply (list_elem_of_fmap_2 File.name _ f Hf). }
      apply list_elem_of_fmap in Hbn as (b & Hn & Hb). exists b. split; [exact Hb|].
      unfold file_ready. simpl. split; [congruence|]. split; [apply Hkeys, Hb|].
      split; [apply select_changed_keys; apply Hwf|].
      intros row Hrow. apply select_changed_elem in Hrow as (r & i & Hr & Hpk & _ & _ & ->).
      destruct (Hprov r f Hr Hf Hpk) as (b' & e & Hb' & He & Hn' & Hk).
      assert (b' = b) by (apply (NoDup_map_inj BibFile.name bibfiles); congruence).
      subst b'. exists e. split; [exact He|]. split; [exact Hk|]. simpl.
      destruct (Hrec b e Hb He) as (f' & r' & Hf' & Hfn & Hr' & Hpk' & Hk' & Hrefid).
      assert (f' = f)
        by (apply (NoDup_map_inj File.name (files db)); [apply Hwf|..]; congruence).
      subst f'.
      assert (r' = r).
      { apply (NoDup_map_inj entry_key (entries db)); [apply Hwf|assumption..|].
        unfold entry_key. congruence. }
      subst r'. rewrite Hrefid.
      destruct (od_get (BibEntry.fields e) REF_ID_FIELD) as [x|] eqn:Ex; [|reflexivity].
      simpl. f_equal. symmetry. apply (Hcanon b e x Hb He Ex).
  - apply Forall2_fmap_r, Forall_Forall2_diag, Forall_forall. intros b Hb.
    destruct (Hfile b Hb) as (f & Hf & Hn). unfold compose.
    rewrite (trickled_select_files db b f (wf_file_name _ Hwf) Hf Hn).
    apply (written_trickled bibfiles db0 db b f); assumption.
Qed.

Lemma import_tie_bibfiles :
  import_bibfiles (H:=sample) empty_store tie_bibfiles = Ok tie_imported.
Proof. vm_compute. reflexivity. Qed.

Lemma tie_resolved_same_import : same_import tie_imported tie_resolved.
Proof. split; [reflexivity|]. split; reflexivity. Qed.

Lemma tie_resolved_ids r :
  r ∈ entries tie_resolved -> exists i, Entry.id r = Some i /\ 0 < i.
Proof. intros Hr. simpl in Hr. members Hr; simpl; eexists; (split; [reflexivity|lia]). Qed.

Lemma tie_bibfiles_numerals : numeral_ids (H:=sample) tie_bibfiles.
Proof.
  intros b e x Hb He Ex. simpl in Hb. members Hb. simpl in He.
  members He; vm_compute in Ex; try discriminate; injection Ex as <-;
    (split; [vm_compute; reflexivity|vm_compute; split; [discriminate|reflexivity]]).
Qed.

Lemma trickle_writes_ids_witness :
  import_bibfiles (H:=sample) empty_store tie_bibfiles = Ok tie_imported /\
  same_import tie_imported tie_resolved /\
  (forall r, r ∈ entries tie_resolved -> exists i, Entry.id r = Some i /\ 0 < i) /\
  numeral_ids (H:=sample) tie_bibfiles /\
  exists bibfiles',
    trickle tie_resolved tie_bibfiles = (bibfiles', Ok tt) /\
    Forall2 (written tie_resolved) tie_bibfiles bibfiles'.
Proof.
  split; [exact import_tie_bibfiles|]. split; [exact tie_resolved_same_import|].
  split; [exact tie_resolved_ids|]. split; [exact tie_bibfiles_numerals|].
  exact (trickle_writes_ids (H:=sample) tie_bibfiles tie_imported tie_resolved
           import_tie_bibfiles tie_resolved_same_import tie_resolved_ids
           tie_bibfiles_numerals).
Defined.

(** The three records of the tie: [k0] gets the id, [k1] has its id
    replaced, [k2] stays as it is. *)
Example trickle_tie :
  trickle tie_resolved tie_bibfiles
  = ([BibFile.mk "a.bib" 10 100 1
        [BibEntry.mk "k0" "book"
           [("author", "Smith"); ("title", "Grammar"); ("year", "1999"); ("note", "1");
            (REF_ID_FIELD, "2")];
         BibEntry.mk "k1" "book"
           [("author", "Smith"); ("title", "Grammar"); ("year", "1999"); ("note", "2");
            (REF_ID_FIELD, "2")];
         BibEntry.mk "k2" "book"
           [("author", "Smith"); ("title", "Grammar"); ("year", "1999"); ("note", "1");
            (REF_ID_FIELD, "2")]]],
     Ok tt).
Proof. vm_compute. reflexivity. Qed.
